(** * The client synchronization protocol

    A shallow embedding of [ClientSync]
    (packages/sdk/src/adapters/multipeer/protocols/clientSync.ts): the stage
    machine, the message router, the per-client queue drain, the stage
    drivers and the animation time reconciliation, together with the
    properties the specification states about them.

    Conventions.  Mutable fields of the protocol object, of its client and of
    the payload objects it copies are the fields of [State]; every function
    that mutates takes a state and returns the next one.  Calls that leave the
    class (the parent [Protocol], the [Client], the session connection, the
    console and the log) are recorded, in program order, in [trace].

    Asynchrony.  The code is single-threaded: between two [await]s it runs to
    completion.  Sending never waits; a reply is observed only while the
    driver is suspended in an [await] on replies, and such an [await] lasts
    until no reply is outstanding (or one that it awaits fails).  The reply to
    a message is given by [respond] and the order in which outstanding replies
    arrive by [sched]; both are arbitrary, so every statement holds for every
    order of arrival and every pattern of failures.  An [await] on a value
    that is not a pending promise only yields to the tasks that are already
    runnable.  No application traffic arrives while the driver runs. *)

From Stdlib Require Import Floats.
From stdpp Require Import gmap strings list.

Set Default Proof Using "Type".
Set Warnings "-inexact-float".

(** ** Data model *)

(** [SynchronizationStage], clientSync.ts lines 18-25. *)
Inductive SynchronizationStage :=
| StageAlways
| StageLoadAssets
| StageCreateActors
| StageCreateAnimations
| StageSyncAnimations
| StageSetBehaviors
| StageNever.

#[global] Instance SynchronizationStage_eq_dec : EqDecision SynchronizationStage.
Proof. solve_decision. Defined.

(** The four ways the router can treat an outgoing message. *)
Inductive Handling := Allow | Queue | Ignore | Error.

#[global] Instance Handling_eq_dec : EqDecision Handling.
Proof. solve_decision. Defined.

(** The part of a rule that [handlingForMessage] reads:
    [rule.synchronization.{stage,before,during,after}]. *)
Record SynchronizationRule := {
  stage : SynchronizationStage;
  before : Handling;
  during : Handling;
  after : Handling;
}.

Record Rule := { synchronization : SynchronizationRule }.

(** Property values of the payload objects that the source copies with an
    object spread.  A nested object is a reference into the store. *)
Definition loc := positive.

Inductive Value :=
| VBool (b : bool)
| VNumber (x : float)
| VString (s : string)
| VObject (l : loc).

(** Modelled from the spec: an animation state sample is
    [{ animation_id, state: { time: seconds, ... } }]; the payload types are
    declared in types/network/payloads.  [stateRest] stands for the fields of
    [state] other than [time]. *)
Record MediaState := {
  time : float;
  stateRest : gmap string Value;
}.

Record AnimationState := {
  animationId : string;
  state : MediaState;
}.

Record ActorLike := { actor_id : string }.

(** Payloads, by the fields the source reads.  An interpolation payload is an
    object used as a property map; a create-actor payload exposes [type] and
    [actor.id]; any other payload only its [type]. *)
Inductive Payload :=
| SyncCompletePayload
| SyncAnimationsPayload (animationStates : option (list AnimationState))
| SetBehaviorPayload (behaviorType : string) (actorId : string)
| InterpolateActorPayload (props : gmap string Value)
| CreateActorCommon (type : string) (actor : ActorLike)
| OtherPayload (type : string).

Definition payload_type (p : Payload) : string :=
  match p with
  | SyncCompletePayload => "sync-complete"
  | SyncAnimationsPayload _ => "sync-animations"
  | SetBehaviorPayload _ _ => "set-behavior"
  | InterpolateActorPayload props =>
      match props !! "type" with Some (VString s) => s | _ => "" end
  | CreateActorCommon type _ => type
  | OtherPayload type => type
  end.

Record Message := {
  message_id : string;
  payload : Payload;
}.

(** [{ payload }]: a message built around a payload, without an id. *)
Definition messageOf (p : Payload) : Message :=
  {| message_id := ""; payload := p |}.

(** JavaScript truthiness of a string. *)
Definition truthy (s : string) : bool := negb (String.eqb s "").

(** The cached actor records (the types [CreateActor], [CreateAnimation] and
    [SyncActor]).  The protocol receives [Partial<SyncActor>], so every field
    may be absent; the cached interpolation payloads are objects in the store
    and the record holds references to them. *)
Record CreateActor := { message : Message }.

Record CreateAnimation := {
  animation_message : Message;
  animation_enabled : bool;
}.

Record SyncActor := {
  actorId : string;
  created : option CreateActor;
  createdAnimations : option (list CreateAnimation);
  activeInterpolations : option (list loc);
  behavior : option string;
}.

(** Modelled from the spec: the session cache exposes [root_actors] and
    [children_of(actor_id)], "the cached actor tree".  Each root actor is kept
    with the subtree that repeated [childrenOf] calls return. *)
#[warnings="-register-all"]
Inductive ActorTree :=
| ActorNode (actor : SyncActor) (children : list ActorTree).

Definition tree_actor (t : ActorTree) : SyncActor :=
  match t with ActorNode a _ => a end.

Definition childrenOf (t : ActorTree) : list ActorTree :=
  match t with ActorNode _ kids => kids end.

(** Modelled from the spec: a peer has an id, a join [order], a flag
    [authoritative] and a reported latency in milliseconds
    ([conn.quality.latencyMs.value]). *)
Record Client := {
  client_id : string;
  order : nat;
  authoritative : bool;
  latencyMs : float;
}.

(** Modelled from the spec: the session, read-only for the protocol. *)
Record Session := {
  peerAuthoritative : bool;
  authoritativeClient : Client;
  assets : list Message;
  assetUpdates : list Payload;
  rootActors : list ActorTree;
  actors : list SyncActor;
}.

(** A caller's reply continuation ([ExportedPromise]), opaque to the
    protocol. *)
Record ExportedPromise := { promise_id : nat }.

Record QueuedMessage := {
  queued_message : Message;
  queued_promise : option ExportedPromise;
}.

(** What happens when the reply to a message sent with a continuation
    arrives.  [ExpectResponse] is the pair of callbacks built by
    [sendAndExpectResponse]; its [Awaiter] says who awaits the promise that
    function returns. *)
Inductive Awaiter :=
| AwaitAsset
| AwaitActor (t : ActorTree)
| AwaitNothing.

Inductive Continuation :=
| ExpectResponse (w : Awaiter)
| CallerPromise (p : ExportedPromise)
| SyncAnimationsReply.

(** Calls that leave the class and the replies that come back. *)
Inductive Event :=
| LogBeginStage (s : SynchronizationStage)
| LogCompleteStage (s : SynchronizationStage)
| ConsoleErrorInvalidMessage (type : string)
    (inProgress complete : list SynchronizationStage)
| ConsoleErrorNoHandler (s : SynchronizationStage)
| ProtocolSendMessage (m : Message) (expectsReply : bool)
| ProtocolSendPayload (p : Payload)
| ClientSendPayload (c : Client) (p : Payload)
| SessionConnSend (reply : Message)
| ReplyReceived (m reply : Message)
| ReplyFailed (m : Message)
| PromiseResolved (p : ExportedPromise) (reply : Message)
| PromiseRejected (p : ExportedPromise).

Record State := {
  inProgressStages : list SynchronizationStage;
  completedStages : list SynchronizationStage;
  queuedMessages : list QueuedMessage;
  promises : list (Message * Continuation);
  resumed : list ActorTree;
  objects : gmap loc (gmap string Value);
  trace : list Event;
}.

Definition set_inProgressStages (l : list SynchronizationStage) (st : State) : State :=
  {| inProgressStages := l; completedStages := completedStages st;
     queuedMessages := queuedMessages st; promises := promises st;
     resumed := resumed st; objects := objects st; trace := trace st |}.

Definition set_completedStages (l : list SynchronizationStage) (st : State) : State :=
  {| inProgressStages := inProgressStages st; completedStages := l;
     queuedMessages := queuedMessages st; promises := promises st;
     resumed := resumed st; objects := objects st; trace := trace st |}.

Definition set_queuedMessages (l : list QueuedMessage) (st : State) : State :=
  {| inProgressStages := inProgressStages st; completedStages := completedStages st;
     queuedMessages := l; promises := promises st;
     resumed := resumed st; objects := objects st; trace := trace st |}.

Definition set_promises (l : list (Message * Continuation)) (st : State) : State :=
  {| inProgressStages := inProgressStages st; completedStages := completedStages st;
     queuedMessages := queuedMessages st; promises := l;
     resumed := resumed st; objects := objects st; trace := trace st |}.

Definition set_resumed (l : list ActorTree) (st : State) : State :=
  {| inProgressStages := inProgressStages st; completedStages := completedStages st;
     queuedMessages := queuedMessages st; promises := promises st;
     resumed := l; objects := objects st; trace := trace st |}.

Definition set_objects (h : gmap loc (gmap string Value)) (st : State) : State :=
  {| inProgressStages := inProgressStages st; completedStages := completedStages st;
     queuedMessages := queuedMessages st; promises := promises st;
     resumed := resumed st; objects := h; trace := trace st |}.

Definition addEvent (e : Event) (st : State) : State :=
  {| inProgressStages := inProgressStages st; completedStages := completedStages st;
     queuedMessages := queuedMessages st; promises := promises st;
     resumed := resumed st; objects := objects st; trace := trace st ++ [e] |}.

(** The state of a freshly constructed [ClientSync] (lines 32-33): no stage
    begun or completed, no reply outstanding.  The queue belongs to the
    client and the payload objects to the session cache, so both are given. *)
Definition newClientSync (queue : list QueuedMessage)
    (cache : gmap loc (gmap string Value)) : State :=
  {| inProgressStages := []; completedStages := [];
     queuedMessages := queue; promises := [];
     resumed := []; objects := cache; trace := [] |}.

(** How a driver that awaits ends: [this.resolve()], [this.reject(e)], or
    neither because a promise it awaits never settles. *)
Inductive Outcome :=
| Resolved (st : State)
| Rejected (st : State)
| Hung (st : State).

Definition outcome_state (o : Outcome) : State :=
  match o with Resolved st | Rejected st | Hung st => st end.

(** ** Reading the cached actor tree *)

(** Every node of a forest, paired with its parent ([None] for a root). *)
Fixpoint tree_edges (parent : option ActorTree) (t : ActorTree)
    : list (option ActorTree * ActorTree) :=
  match t with
  | ActorNode a kids =>
      (parent, ActorNode a kids)
      :: flat_map (tree_edges (Some (ActorNode a kids))) kids
  end.

Definition forest_edges (forest : list ActorTree)
    : list (option ActorTree * ActorTree) :=
  flat_map (tree_edges None) forest.

(** Induction on a tree with the hypothesis for every child. *)
Fixpoint ActorTree_forall_ind (P : ActorTree → Prop)
    (step : ∀ a kids, Forall P kids → P (ActorNode a kids))
    (t : ActorTree) : P t :=
  match t with
  | ActorNode a kids =>
      step a kids
        ((fix each (l : list ActorTree) : Forall P l :=
            match l with
            | [] => Forall_nil_2 P
            | k :: l' => Forall_cons_2 P k l' (ActorTree_forall_ind P step k) (each l')
            end) kids)
  end.

(** ** Reading a trace *)

(** The events by which the driver itself marks its progress: the two log
    lines of the stage machine and the [sync-complete] notification. *)
Definition is_driver_event (e : Event) : bool :=
  match e with
  | LogBeginStage _ | LogCompleteStage _ => true
  | ProtocolSendPayload SyncCompletePayload => true
  | _ => false
  end.

Definition driver_events (t : list Event) : list Event :=
  List.filter is_driver_event t.

Definition is_sync_complete (e : Event) : bool :=
  match e with
  | ProtocolSendPayload SyncCompletePayload => true
  | _ => false
  end.

(** The number of times the [sync-complete] payload was emitted. *)
Definition sync_complete_count (t : list Event) : nat :=
  length (List.filter is_sync_complete t).

(** The two stage sets after the log lines of a trace, replayed from the
    empty sets with the updates of [beginStage] and [completeStage]. *)
Definition replay_event (sets : list SynchronizationStage * list SynchronizationStage)
    (e : Event) : list SynchronizationStage * list SynchronizationStage :=
  match e with
  | LogBeginStage s => (sets.1 ++ [s], sets.2)
  | LogCompleteStage s =>
      (List.filter (fun item => negb (bool_decide (item = s))) sets.1, sets.2 ++ [s])
  | _ => sets
  end.

Definition replay (t : list Event) : list SynchronizationStage * list SynchronizationStage :=
  fold_left replay_event t ([], []).

(** Where a stage stands with respect to the two sets. *)
Inductive StageStatus := Absent | InProgress | Complete | InBoth.

Definition stage_status (sets : list SynchronizationStage * list SynchronizationStage)
    (s : SynchronizationStage) : StageStatus :=
  match bool_decide (s ∈ sets.1), bool_decide (s ∈ sets.2) with
  | false, false => Absent
  | true, false => InProgress
  | false, true => Complete
  | true, true => InBoth
  end.

(** The steps a stage may take: none, from absent to in progress, or from
    in progress to complete. *)
Definition stage_transition (before after : StageStatus) : Prop :=
  match before, after with
  | Absent, Absent | InProgress, InProgress | Complete, Complete => True
  | Absent, InProgress | InProgress, Complete => True
  | _, _ => False
  end.

(** [st'] was reached from [st] by steps that leave the stage sets alone and
    emit no driver event. *)
Definition quiet (st st' : State) : Prop :=
  inProgressStages st' = inProgressStages st ∧
  completedStages st' = completedStages st ∧
  ∃ t, trace st' = trace st ++ t ∧ Forall (fun e => is_driver_event e = false) t.

Definition extends (st st' : State) : Prop :=
  ∃ t, trace st' = trace st ++ t.

(** The full log of a driver that resolves. *)
Definition stage_log (stages : list SynchronizationStage) : list Event :=
  flat_map (fun s => [LogBeginStage s; LogCompleteStage s]) stages.

(** ** Sample tables, sessions and environments *)

Definition mkRule (s : SynchronizationStage) (b d a : Handling) : Rule :=
  {| synchronization := {| stage := s; before := b; during := d; after := a |} |}.

(** Modelled from the spec: the representative rule shapes of the rule table
    and the default rule (stage [never], queue, queue, allow). *)
Definition specRules : gmap string Rule :=
  list_to_map
    [("load-assets", mkRule StageLoadAssets Queue Allow Allow);
     ("asset-update", mkRule StageLoadAssets Queue Allow Allow);
     ("create-empty", mkRule StageCreateActors Queue Allow Allow);
     ("set-behavior", mkRule StageSetBehaviors Queue Allow Allow);
     ("create-animation", mkRule StageCreateAnimations Queue Allow Allow);
     ("interpolate-actor", mkRule StageCreateAnimations Queue Allow Allow);
     ("sync-animations", mkRule StageSyncAnimations Ignore Allow Allow);
     ("actor-update", mkRule StageNever Queue Queue Allow);
     ("heartbeat", mkRule StageAlways Allow Allow Allow)].

Definition specMissingRule : Rule := mkRule StageNever Queue Queue Allow.

(** Two peers: the first to join, authoritative, with a latency of 100 ms,
    and a joining peer with a latency of 60 ms. *)
Definition firstClient : Client :=
  {| client_id := "first"; order := 0; authoritative := true; latencyMs := 100%float |}.

Definition joiningClient : Client :=
  {| client_id := "joining"; order := 1; authoritative := false; latencyMs := 60%float |}.

Definition emptySession : Session :=
  {| peerAuthoritative := true; authoritativeClient := firstClient;
     assets := []; assetUpdates := []; rootActors := []; actors := [] |}.

Definition sampleMessage (i type : string) : Message :=
  {| message_id := i; payload := OtherPayload type |}.

Definition createActorMessage (i type : string) : Message :=
  {| message_id := i; payload := CreateActorCommon type {| actor_id := i |} |}.

Definition sampleActor (i type : string) : SyncActor :=
  {| actorId := i; created := Some {| message := createActorMessage i type |};
     createdAnimations := None; activeInterpolations := None; behavior := None |}.

(** Every message is answered. *)
Definition replyTo (m : Message) : Message :=
  {| message_id := "reply-to-" +:+ message_id m; payload := OtherPayload "reply" |}.

Definition alwaysReplies (m : Message) : option Message := Some (replyTo m).

(** No message is answered: every reply promise is rejected. *)
Definition neverReplies (m : Message) : option Message := None.

(** Replies arrive in the order the messages were sent. *)
Definition oldestFirst (outstanding : list (Message * Continuation)) : nat := 0.

(** A session with one cached asset. *)
Definition assetSession : Session :=
  {| peerAuthoritative := true; authoritativeClient := firstClient;
     assets := [sampleMessage "X" "load-assets"]; assetUpdates := [];
     rootActors := []; actors := [] |}.

(** A cached root actor [A] with one child [B]. *)
Definition actorB : ActorTree := ActorNode (sampleActor "B" "create-empty") [].
Definition actorA : ActorTree := ActorNode (sampleActor "A" "create-empty") [actorB].

Definition treeSession : Session :=
  {| peerAuthoritative := true; authoritativeClient := firstClient;
     assets := []; assetUpdates := [];
     rootActors := [actorA]; actors := [tree_actor actorA; tree_actor actorB] |}.

(** A cached root actor without a create message ([created] is absent), with
    one ordinary child. *)
Definition uncreatedParent : ActorTree :=
  ActorNode {| actorId := "P"; created := None; createdAnimations := None;
               activeInterpolations := None; behavior := None |} [actorB].

Definition uncreatedSession : Session :=
  {| peerAuthoritative := true; authoritativeClient := firstClient;
     assets := []; assetUpdates := [];
     rootActors := [uncreatedParent];
     actors := [tree_actor uncreatedParent; tree_actor actorB] |}.

(** A session that caches a behavior for one of its two actors. *)
Definition behavingActor : SyncActor :=
  {| actorId := "A"; created := Some {| message := createActorMessage "A" "create-empty" |};
     createdAnimations := None; activeInterpolations := None;
     behavior := Some "button" |}.

Definition behaviorSession : Session :=
  {| peerAuthoritative := true; authoritativeClient := firstClient;
     assets := []; assetUpdates := []; rootActors := [];
     actors := [behavingActor; tree_actor actorB] |}.

(** A session with a cached asset, a cached asset update, a root actor that
    has a behavior, and a child of it. *)
Definition behavingTree : ActorTree := ActorNode behavingActor [actorB].

Definition busySession : Session :=
  {| peerAuthoritative := true; authoritativeClient := firstClient;
     assets := [sampleMessage "X" "load-assets"];
     assetUpdates := [OtherPayload "asset-update"];
     rootActors := [behavingTree];
     actors := [behavingActor; tree_actor actorB] |}.

(** A session whose only cached actor has one created animation, joined by
    its first client. *)
Definition animationMessage : Message := sampleMessage "anim" "create-animation".

Definition animatedActor : SyncActor :=
  {| actorId := "A"; created := None;
     createdAnimations :=
       Some [{| animation_message := animationMessage; animation_enabled := true |}];
     activeInterpolations := None; behavior := None |}.

Definition animatedSession : Session :=
  {| peerAuthoritative := true; authoritativeClient := firstClient;
     assets := []; assetUpdates := []; rootActors := []; actors := [animatedActor] |}.

(** The authoritative peer answers a [sync-animations] request with one
    animation at 10.000 s. *)
Definition sampleAnimationState : AnimationState :=
  {| animationId := "animation:0";
     state := {| time := 10%float; stateRest := ∅ |} |}.

Definition animationsReply : Message :=
  {| message_id := "reply";
     payload := SyncAnimationsPayload (Some [sampleAnimationState]) |}.

Definition repliesWithAnimations (m : Message) : option Message :=
  Some animationsReply.

(** A queued application message that expects a reply. *)
Definition heartbeat : Message := sampleMessage "h" "heartbeat".

Definition callerPromise : ExportedPromise := {| promise_id := 7 |}.

Definition heartbeatQueued : QueuedMessage :=
  {| queued_message := heartbeat; queued_promise := Some callerPromise |}.

(** Whether an event resolves or rejects a caller's continuation. *)
Definition settles (p : ExportedPromise) (e : Event) : Prop :=
  (∃ reply, e = PromiseResolved p reply) ∨ e = PromiseRejected p.


(** ** The stage machine and the router *)

Section ClientSync.

(** The rule table and its fallback ([Rules], [MissingRule]) are imported from
    the multipeer adapter's index module: they are parameters. *)
Variable Rules : gmap string Rule.
Variable MissingRule : Rule.

Variable client : Client.
Variable session : Session.

(** The environment: the reply to a message ([None]: the reply promise is
    rejected) and the outstanding reply that arrives next. *)
Variable respond : Message -> option Message.
Variable sched : list (Message * Continuation) -> nat.

(** [sequence], lines 36-42. *)
Definition sequence : list SynchronizationStage :=
  [StageLoadAssets; StageCreateActors; StageSetBehaviors;
   StageCreateAnimations; StageSyncAnimations].

Definition isStageComplete (st : State) (s : SynchronizationStage) : bool :=
  bool_decide (s ∈ completedStages st).

Definition isStageInProgress (st : State) (s : SynchronizationStage) : bool :=
  bool_decide (s ∈ inProgressStages st).

(** [Rules[message.payload.type] || MissingRule] *)
Definition ruleFor (m : Message) : Rule :=
  default MissingRule (Rules !! payload_type (payload m)).

(** [handlingForMessage], lines 79-88. *)
Definition handlingForMessage (st : State) (m : Message) : Handling :=
  let rule := ruleFor m in
  let handling := before (synchronization rule) in
  if isStageComplete st (stage (synchronization rule)) then
    after (synchronization rule)
  else if isStageInProgress st (stage (synchronization rule)) then
    during (synchronization rule)
  else handling.

(** [beginStage], lines 98-101. *)
Definition beginStage (s : SynchronizationStage) (st : State) : State :=
  let st := addEvent (LogBeginStage s) st in
  set_inProgressStages (inProgressStages st ++ [s]) st.

(** [completeStage], lines 103-107. *)
Definition completeStage (s : SynchronizationStage) (st : State) : State :=
  let st := addEvent (LogCompleteStage s) st in
  let st :=
    set_inProgressStages
      (List.filter (fun item => negb (bool_decide (item = s))) (inProgressStages st)) st in
  set_completedStages (completedStages st ++ [s]) st.

(** ** The parent class and the client *)

(** Modelled from the spec: [Protocol.sendMessage(message, promise)], the
    parent class's send, hands the message to the transport and keeps the
    reply continuation, when there is one, until the reply arrives. *)
Definition Protocol_sendMessage (m : Message) (k : option Continuation)
    (st : State) : State :=
  let st := addEvent (ProtocolSendMessage m (bool_decide (is_Some k))) st in
  match k with
  | Some c => set_promises (promises st ++ [(m, c)]) st
  | None => st
  end.

(** Modelled from the spec: [Protocol.sendPayload(payload)] is "the parent
    class's raw send (bypassing the router)". *)
Definition Protocol_sendPayload (p : Payload) (st : State) : State :=
  addEvent (ProtocolSendPayload p) st.

(** Modelled from the spec: [Client.sendPayload(payload, promise)] sends a
    reply-expecting payload on that client's connection. *)
Definition Client_sendPayload (c : Client) (p : Payload) (k : Continuation)
    (st : State) : State :=
  let st := addEvent (ClientSendPayload c p) st in
  set_promises (promises st ++ [(messageOf p, k)]) st.

(** Modelled from the spec: the per-peer outbound queue is FIFO; the router
    appends [(message, reply)]. *)
Definition queueMessage (m : Message) (p : option ExportedPromise)
    (st : State) : State :=
  set_queuedMessages
    (queuedMessages st ++ [{| queued_message := m; queued_promise := p |}]) st.

(** Modelled from the spec: "[filter(predicate)] removes matching entries in
    order, returning them to the caller". *)
Definition filterQueuedMessages (predicate : QueuedMessage -> bool)
    (st : State) : list QueuedMessage * State :=
  (List.filter predicate (queuedMessages st),
   set_queuedMessages
     (List.filter (fun q => negb (predicate q)) (queuedMessages st)) st).

(** ** The router's send *)

(** [sendMessage], lines 57-77. *)
Definition sendMessage (m : Message) (promise : option ExportedPromise)
    (st : State) : State :=
  match handlingForMessage st m with
  | Allow => Protocol_sendMessage m (CallerPromise <$> promise) st
  | Queue => queueMessage m promise st
  | Ignore => st
  | Error =>
      addEvent
        (ConsoleErrorInvalidMessage (payload_type (payload m))
           (inProgressStages st) (completedStages st)) st
  end.

(** [sendAndExpectResponse], lines 273-286.  The callbacks it builds run when
    the reply arrives (see [deliver]); [w] is the party that awaits the
    promise it returns. *)
Definition sendAndExpectResponse (m : Message) (w : Awaiter) (st : State) : State :=
  Protocol_sendMessage m (Some (ExpectResponse w)) st.

(** ** Replaying the cache *)

(** [createActor], lines 249-253: [Some] when a promise is returned, [None]
    when the guard fails and the function returns [undefined]. *)
Definition createActor (a : SyncActor) (w : Awaiter) (st : State) : option State :=
  match created a with
  | Some c =>
      if truthy (payload_type (payload (message c)))
      then Some (sendAndExpectResponse (message c) w st)
      else None
  | None => None
  end.

(** [createActorRecursive], lines 223-226: the part of the task that runs
    before its first [await].  Awaiting a promise parks the task with the
    reply continuation; awaiting [undefined] re-queues it behind the tasks
    that are already runnable. *)
Definition createActorRecursive (t : ActorTree) (st : State) : State :=
  match createActor (tree_actor t) (AwaitActor t) st with
  | Some st' => st'
  | None => set_resumed (resumed st ++ [t]) st
  end.

(** One turn of a task. *)
Inductive Turn :=
| Continue (st : State)
| Stuck (st : State)
| Throw (st : State).

(** [createActorRecursive], lines 227-235: the task after its [await].
    Evaluating [actor.created.message.payload.actor.id] throws when [created]
    or [payload.actor] is missing; thrown inside the [async] executor, the
    exception settles nothing and the task's promise stays pending. *)
Definition resumeActor (t : ActorTree) (st : State) : Turn :=
  match created (tree_actor t) with
  | Some c =>
      match payload (message c) with
      | CreateActorCommon _ _ =>
          Continue (fold_left (fun s child => createActorRecursive child s)
                      (childrenOf t) st)
      | _ => Stuck st
      end
  | None => Stuck st
  end.

(** [createActorBehavior], lines 239-247. *)
Definition createActorBehavior (a : SyncActor) (st : State) : State :=
  match behavior a with
  | Some b =>
      if truthy b then Protocol_sendPayload (SetBehaviorPayload b (actorId a)) st
      else st
  | None => st
  end.

(** [createActorAnimations], lines 255-260.  The promises are collected into
    an array that is itself the single element handed to [Promise.all], so
    nothing awaits them. *)
Definition createActorAnimations (a : SyncActor) (st : State) : State :=
  fold_left
    (fun s createdAnimation =>
       sendAndExpectResponse (animation_message createdAnimation) AwaitNothing s)
    (default [] (createdAnimations a)) st.

(** One iteration of the loop of [createActorInterpolations], lines 263-270:
    the loop variable is rebound to a fresh object, a copy of the cached one
    with [enabled] overridden, and that object is sent.  A reference always
    points into the store; outside it there is nothing to copy. *)
Definition forwardInterpolation (st : State) (activeInterpolation : loc) : State :=
  match objects st !! activeInterpolation with
  | Some o =>
      let copy := <["enabled" := VBool false]> o in
      let l := fresh (dom (objects st)) in
      Protocol_sendPayload (InterpolateActorPayload copy)
        (set_objects (<[l := copy]> (objects st)) st)
  | None => st
  end.

(** [createActorInterpolations], lines 262-271. *)
Definition createActorInterpolations (a : SyncActor) (st : State) : State :=
  fold_left forwardInterpolation (default [] (activeInterpolations a)) st.

(** ** Awaiting replies *)

(** The two kinds of [await] on replies: inside a stage driver, and
    [drainPromises] in the queue drain. *)
Inductive AwaitContext := AwaitStage | AwaitDrain.

(** Lines 210-215: both links' one-way delay is added to the sample's
    clock. *)
Definition adjustAnimationState (a : AnimationState) : AnimationState :=
  let t := time (state a) in
  let t := (t + latencyMs (authoritativeClient session) / 2000)%float in
  let t := (t + latencyMs client / 2000)%float in
  {| animationId := animationId a;
     state := {| time := t; stateRest := stateRest (state a) |} |}.

(** The reply to [m], sent with continuation [k], arrives.
    - [ExpectResponse] (lines 276-283): echo the reply to the application when
      this client is authoritative, then resolve; the awaiting task, if any,
      goes on.
    - [SyncAnimationsReply] (lines 207-218): adjust every sample and forward
      the payload with the parent's [sendPayload].
    - A caller's own continuation is resolved by the parent class.
    Modelled from the spec for the failure of a reply: "any awaited reply
    fails: propagate out of the stage; the driver rejects"; [drainPromises]
    awaits every outstanding reply. *)
Definition deliver (ctx : AwaitContext) (m : Message) (k : Continuation)
    (st : State) : Turn :=
  match respond m with
  | Some reply =>
      let st := addEvent (ReplyReceived m reply) st in
      match k with
      | ExpectResponse w =>
          let st :=
            if authoritative client then addEvent (SessionConnSend reply) st
            else st in
          match w with
          | AwaitActor t => resumeActor t st
          | AwaitAsset | AwaitNothing => Continue st
          end
      | CallerPromise p => Continue (addEvent (PromiseResolved p reply) st)
      | SyncAnimationsReply =>
          match payload reply with
          | SyncAnimationsPayload (Some animationStates) =>
              Continue
                (Protocol_sendPayload
                   (SyncAnimationsPayload
                      (Some (map adjustAnimationState animationStates))) st)
          | _ => Stuck st
          end
      end
  | None =>
      let st := addEvent (ReplyFailed m) st in
      match k with
      | ExpectResponse AwaitAsset => Throw st
      | ExpectResponse (AwaitActor _) => Stuck st
      | ExpectResponse AwaitNothing =>
          match ctx with AwaitDrain => Throw st | AwaitStage => Continue st end
      | CallerPromise p =>
          let st := addEvent (PromiseRejected p) st in
          match ctx with AwaitDrain => Throw st | AwaitStage => Continue st end
      | SyncAnimationsReply => Throw st
      end
  end.

(** The outstanding reply chosen by the scheduler, removed from the list. *)
Definition pick {A} (i : nat) (l : list A) : option (A * list A) :=
  let i := i `mod` length l in
  match l !! i with
  | Some x => Some (x, delete i l)
  | None => None
  end.

(** The event loop while the driver awaits: runnable tasks first, in order;
    then the next reply.  It ends when nothing is runnable and no reply is
    outstanding; the driver goes on unless a promise it awaits was left
    pending ([stuck]). *)
Fixpoint awaitReplies (fuel : nat) (ctx : AwaitContext) (stuck : bool)
    (st : State) : option Outcome :=
  match resumed st with
  | t :: rest =>
      match fuel with
      | 0 => None
      | S fuel' =>
          match resumeActor t (set_resumed rest st) with
          | Continue st' => awaitReplies fuel' ctx stuck st'
          | Stuck st' => awaitReplies fuel' ctx true st'
          | Throw st' => Some (Rejected st')
          end
      end
  | [] =>
      match pick (sched (promises st)) (promises st) with
      | None => Some (if stuck then Hung st else Resolved st)
      | Some ((m, k), rest) =>
          match fuel with
          | 0 => None
          | S fuel' =>
              match deliver ctx m k (set_promises rest st) with
              | Continue st' => awaitReplies fuel' ctx stuck st'
              | Stuck st' => awaitReplies fuel' ctx true st'
              | Throw st' => Some (Rejected st')
              end
          end
      end
  end.

(** A bound on the turns the event loop can take from a state. *)
Fixpoint tree_weight (t : ActorTree) : nat :=
  match t with
  | ActorNode _ kids => S (sum_list_with (fun k => S (tree_weight k)) kids)
  end.

Definition continuation_weight (k : Continuation) : nat :=
  match k with
  | ExpectResponse (AwaitActor t) => S (tree_weight t)
  | _ => 1
  end.

Definition weight (st : State) : nat :=
  sum_list_with tree_weight (resumed st)
  + sum_list_with (fun mk => continuation_weight (snd mk)) (promises st).

Definition awaitAll (ctx : AwaitContext) (st : State) : option Outcome :=
  awaitReplies (weight st) ctx false st.

(** Modelled from the spec: [drainPromises] is [await_all_pending_replies()]. *)
Definition drainPromises (st : State) : option Outcome :=
  awaitAll AwaitDrain st.

(** ** The stage drivers *)

(** ['stage:load-assets'], lines 149-157. *)
Definition stage_load_assets (st : State) : option Outcome :=
  let st :=
    fold_left (fun s m => sendAndExpectResponse m AwaitAsset s) (assets session) st in
  match awaitAll AwaitStage st with
  | Some (Resolved st) =>
      Some (Resolved
              (fold_left (fun s p => sendMessage (messageOf p) None s)
                 (assetUpdates session) st))
  | other => other
  end.

(** ['stage:create-actors'], lines 163-168. *)
Definition stage_create_actors (st : State) : option Outcome :=
  awaitAll AwaitStage
    (fold_left (fun s syncActor => createActorRecursive syncActor s)
       (rootActors session) st).

(** ['stage:set-behaviors'], lines 174-178. *)
Definition stage_set_behaviors (st : State) : option Outcome :=
  Some (Resolved
          (fold_left (fun s syncActor => createActorBehavior syncActor s)
             (actors session) st)).

(** ['stage:create-animations'], lines 184-189.  [Promise.all] receives an
    array whose only element is the array of promises: it resolves without
    waiting for any of them. *)
Definition stage_create_animations (st : State) : option Outcome :=
  let st :=
    fold_left (fun s syncActor => createActorInterpolations syncActor s)
      (actors session) st in
  let st :=
    fold_left (fun s syncActor => createActorAnimations syncActor s)
      (actors session) st in
  Some (Resolved st).

(** ['stage:sync-animations'], lines 195-221. *)
Definition stage_sync_animations (st : State) : option Outcome :=
  if Nat.eqb (order (authoritativeClient session)) (order client) then
    Some (Resolved st)
  else
    awaitAll AwaitStage
      (Client_sendPayload (authoritativeClient session)
         (SyncAnimationsPayload None) SyncAnimationsReply st).

(** [executeStage], lines 109-116: the handler is looked up by name; the two
    stages outside [sequence] have none. *)
Definition executeStage (s : SynchronizationStage) (st : State) : option Outcome :=
  match s with
  | StageLoadAssets => stage_load_assets st
  | StageCreateActors => stage_create_actors st
  | StageSetBehaviors => stage_set_behaviors st
  | StageCreateAnimations => stage_create_animations st
  | StageSyncAnimations => stage_sync_animations st
  | StageAlways | StageNever => Some (Resolved (addEvent (ConsoleErrorNoHandler s) st))
  end.

(** ** The queue drain and the driver *)

(** [sendQueuedMessages], lines 288-306. *)
Fixpoint sendQueuedMessages (fuel : nat) (st : State) : option Outcome :=
  let '(queuedMessages, st) :=
    filterQueuedMessages
      (fun queuedMessage =>
         bool_decide (handlingForMessage st (queued_message queuedMessage) = Allow))
      st in
  match queuedMessages with
  | [] => Some (Resolved st)
  | _ :: _ =>
      match fuel with
      | 0 => None
      | S fuel' =>
          let st :=
            fold_left
              (fun s queuedMessage =>
                 sendMessage (queued_message queuedMessage)
                   (queued_promise queuedMessage) s)
              queuedMessages st in
          match drainPromises st with
          | Some (Resolved st) => sendQueuedMessages fuel' st
          | other => other
          end
      end
  end.

Definition sendAllQueuedMessages (st : State) : option Outcome :=
  sendQueuedMessages (S (length (queuedMessages st))) st.

(** The loop of [run], lines 127-132. *)
Fixpoint runStages (stages : list SynchronizationStage) (st : State)
    : option Outcome :=
  match stages with
  | [] => Some (Resolved st)
  | s :: rest =>
      let st := beginStage s st in
      match executeStage s st with
      | Some (Resolved st) =>
          let st := completeStage s st in
          match sendAllQueuedMessages st with
          | Some (Resolved st) => runStages rest st
          | other => other
          end
      | other => other
      end
  end.

(** [run], lines 121-143.  An exception leaves the [try] block for
    [this.reject(e)]; otherwise the driver ends with [this.resolve()].
    [startListening], of the parent class, only subscribes to incoming
    messages. *)
Definition run (st : State) : option Outcome :=
  let st := beginStage StageAlways st in
  match
    (if peerAuthoritative session then runStages sequence st
     else Some (Resolved st))
  with
  | Some (Resolved st) =>
      let st := completeStage StageAlways st in
      let st := Protocol_sendPayload SyncCompletePayload st in
      sendAllQueuedMessages st
  | other => other
  end.

(** ** Auxiliary definitions for the statements *)

Definition turn_state (t : Turn) : State :=
  match t with Continue st | Stuck st | Throw st => st end.

(** The message [createActor] sends for an actor, when its guard holds. *)
Definition createMessage (a : SyncActor) : option Message :=
  match created a with
  | Some c =>
      if truthy (payload_type (payload (message c))) then Some (message c) else None
  | None => None
  end.

(** Whether a queued message is one the drain takes now. *)
Definition allowedNow (st : State) (q : QueuedMessage) : bool :=
  bool_decide (handlingForMessage st (queued_message q) = Allow).

(** The fields of the state that the replay of actors and the arrival of
    replies never write. *)
Definition same_queue_and_objects (st st' : State) : Prop :=
  queuedMessages st' = queuedMessages st ∧ objects st' = objects st.

(** The messages one iteration takes out of the queue and those it leaves. *)
Definition taken (st : State) : list QueuedMessage :=
  List.filter (allowedNow st) (queuedMessages st).

Definition remaining (st : State) : list QueuedMessage :=
  List.filter (fun q => negb (allowedNow st q)) (queuedMessages st).

(** The transport calls by which the taken messages leave. *)
Definition forwarded (qs : list QueuedMessage) : list Event :=
  map (fun q => ProtocolSendMessage (queued_message q)
                  (bool_decide (is_Some (queued_promise q)))) qs.

(** The two stage sets agree with the log lines emitted so far. *)
Definition consistent (st : State) : Prop :=
  replay (trace st) = (inProgressStages st, completedStages st).

(** What one call of [sendQueuedMessages] achieves, whatever its outcome. *)
Definition drained (st : State) (o : Outcome) : Prop :=
  quiet st (outcome_state o) ∧
  queuedMessages (outcome_state o) = remaining st ∧
  objects (outcome_state o) = objects st ∧
  (∃ t, trace (outcome_state o) = trace st ++ forwarded (taken st) ++ t) ∧
  taken (outcome_state o) = [].

(** A pass over a list of stages in which every handler and every drain
    resolves: each stage is begun, executed and completed, and the queue is
    drained before the next one begins. *)
Inductive staged : list SynchronizationStage → State → State → Prop :=
| staged_nil st : staged [] st st
| staged_cons s rest st st1 st2 st3 :
    executeStage s (beginStage s st) = Some (Resolved st1) →
    sendAllQueuedMessages (completeStage s st1) = Some (Resolved st2) →
    drained (completeStage s st1) (Resolved st2) →
    staged rest st2 st3 →
    staged (s :: rest) st st3.

(** The driver events of a run that resolves. *)
Definition expected_log : list Event :=
  LogBeginStage StageAlways
  :: (if peerAuthoritative session then stage_log sequence else [])
  ++ [LogCompleteStage StageAlways; ProtocolSendPayload SyncCompletePayload].

(** *** Replaying the actor tree *)

(** The create messages the replay sends are pairwise distinct: distinct
    cached actors have distinct create messages. *)
Definition distinct_create_messages (forest : list ActorTree) : Prop :=
  NoDup (omap (fun pt => createMessage (tree_actor pt.2)) (forest_edges forest)).

(** The transport calls, the parked tasks and the re-queued tasks that
    starting the tasks of [kids] produces. *)
Definition sends (kids : list ActorTree) : list Event :=
  omap (fun c => (fun m => ProtocolSendMessage m true) <$> createMessage (tree_actor c))
    kids.

Definition parked (kids : list ActorTree) : list (Message * Continuation) :=
  omap (fun c => (fun m => (m, ExpectResponse (AwaitActor c)))
                   <$> createMessage (tree_actor c)) kids.

Definition requeued (kids : list ActorTree) : list ActorTree :=
  omap (fun c => match createMessage (tree_actor c) with
                 | Some _ => None
                 | None => Some c
                 end) kids.

(** The children whose tasks a resumed task starts: all of them, unless
    reading [actor.created.message.payload.actor.id] throws. *)
Definition children_started (t : ActorTree) : list ActorTree :=
  match created (tree_actor t) with
  | Some c =>
      match payload (message c) with
      | CreateActorCommon _ _ => childrenOf t
      | _ => []
      end
  | None => []
  end.

(** The echo of a reply to the application (lines 277-281). *)
Definition echo (reply : Message) : list Event :=
  if authoritative client then [SessionConnSend reply] else [].

(** The cached create messages are [Message<CreateActorCommon>]: their
    payload type is one of the create-actor payload types, never the empty
    string. *)
Definition typed_create_messages (forest : list ActorTree) : Prop :=
  Forall (fun pt => ∀ c, created (tree_actor pt.2) = Some c →
                         truthy (payload_type (payload (message c))) = true)
    (forest_edges forest).

(** [waits forest t]: in the trace [t], wherever the create message of a
    cached actor with a parent is sent, the parent has a create message and
    the reply to it was received before. *)
Definition waits (forest : list ActorTree) (t : list Event) : Prop :=
  ∀ tp ta ca b t1 t2,
    (Some tp, ta) ∈ forest_edges forest →
    created (tree_actor ta) = Some ca →
    t = t1 ++ ProtocolSendMessage (message ca) b :: t2 →
    ∃ cp r, created (tree_actor tp) = Some cp ∧ ReplyReceived (message cp) r ∈ t1.

(** [fans_out forest t]: in the trace [t], the reply to an actor's create
    message is followed at once by the create messages of all its children,
    before any other reply is received. *)
Definition fans_out (forest : list ActorTree) (t : list Event) : Prop :=
  ∀ par tp mp r t1 t2,
    (par, tp) ∈ forest_edges forest →
    createMessage (tree_actor tp) = Some mp →
    t = t1 ++ ReplyReceived mp r :: t2 →
    (echo r ++ sends (children_started tp)) `prefix_of` t2.

(** The two conditions on one event of a trace, given what precedes and
    what follows it. *)
Definition actor_event_ok (forest : list ActorTree)
    (t1 : list Event) (e : Event) (t2 : list Event) : Prop :=
  (∀ tp ta ma b,
     e = ProtocolSendMessage ma b →
     (Some tp, ta) ∈ forest_edges forest →
     createMessage (tree_actor ta) = Some ma →
     ta ∈ children_started tp ∧
     ∀ mp, createMessage (tree_actor tp) = Some mp → ∃ r, ReplyReceived mp r ∈ t1) ∧
  (∀ par tp mp r,
     e = ReplyReceived mp r →
     (par, tp) ∈ forest_edges forest →
     createMessage (tree_actor tp) = Some mp →
     (echo r ++ sends (children_started tp)) `prefix_of` t2).

Definition everywhere (Q : list Event → Event → list Event → Prop)
    (t : list Event) : Prop :=
  ∀ t1 e t2, t = t1 ++ e :: t2 → Q t1 e t2.

(** The invariant of the event loop during ['stage:create-actors']: [t] is
    the trace since the stage began. *)
Definition actors_inv (forest : list ActorTree) (T0 t : list Event)
    (st : State) : Prop :=
  trace st = T0 ++ t ∧
  everywhere (actor_event_ok forest) t ∧
  (∀ m k, (m, k) ∈ promises st →
     ∃ par tq, k = ExpectResponse (AwaitActor tq) ∧
               (par, tq) ∈ forest_edges forest ∧
               createMessage (tree_actor tq) = Some m) ∧
  (∀ tq, tq ∈ resumed st →
     (∃ par, (par, tq) ∈ forest_edges forest) ∧
     createMessage (tree_actor tq) = None).

(** The [sync-animations] request and what the trace shows once its reply
    was handled: the reply, followed at once by the payload forwarded to this
    client. *)
Definition syncAnimationsRequest : Message :=
  messageOf (SyncAnimationsPayload None).

Definition animations_forwarded (reply : Message)
    (forwarded : list AnimationState) (t : list Event) : Prop :=
  ∃ t1 t2,
    t = t1 ++ ReplyReceived syncAnimationsRequest reply
           :: ProtocolSendPayload (SyncAnimationsPayload (Some forwarded)) :: t2.

(** No stage is both in progress and complete. *)
Definition disjoint_stages (st : State) : Prop :=
  ∀ s, ¬ (s ∈ inProgressStages st ∧ s ∈ completedStages st).

(** *** The stage handlers *)

(** The [set-behavior] payload sent for a cached actor, when it has a
    behavior. *)
Definition behaviorPayload (a : SyncActor) : option Payload :=
  match behavior a with
  | Some b => if truthy b then Some (SetBehaviorPayload b (actorId a)) else None
  | None => None
  end.

(** What the arrival of the reply to a message sent with
    [sendAndExpectResponse] adds to the trace when nothing but the stage
    handler awaits it. *)
Definition arrival (m : Message) : list Event :=
  match respond m with
  | Some reply => ReplyReceived m reply :: echo reply
  | None => [ReplyFailed m]
  end.

Definition answered (m : Message) : Prop := is_Some (respond m).


(** A reply awaited by a task of [createActorRecursive]. *)
Definition awaits_actor (mk : Message * Continuation) : Prop :=
  ∃ t, mk.2 = ExpectResponse (AwaitActor t).

(** What the event loop achieves from [st] when only tasks of
    [createActorRecursive] await replies: no rejection; a driver that goes on
    has seen no failed reply; and every message whose reply is rejected has
    that failure observed. *)
Definition actors_post (stuck : bool) (st : State) (o : Outcome) : Prop :=
  ∃ t, trace (outcome_state o) = trace st ++ t ∧
       match o with
       | Resolved _ => stuck = false ∧ ∀ m, ReplyFailed m ∉ t
       | Rejected _ => False
       | Hung _ => True
       end ∧
       (∀ m k, (m, k) ∈ promises st → respond m = None → ReplyFailed m ∈ t) ∧
       (∀ m b, ProtocolSendMessage m b ∈ t → respond m = None → ReplyFailed m ∈ t).


(** *** The whole forest replayed *)

(** The nodes of a cached tree, the tree itself first, and those below it. *)
Definition nodes (t : ActorTree) : list ActorTree := map snd (tree_edges None t).

Definition forest_nodes (forest : list ActorTree) : list ActorTree :=
  map snd (forest_edges forest).

Definition descendants (t : ActorTree) : list ActorTree :=
  flat_map nodes (childrenOf t).

(** The create messages [createActor] sends for a list of cached actors. *)
Definition createMessages (ts : list ActorTree) : list Message :=
  omap (fun t => createMessage (tree_actor t)) ts.

(** A cached actor whose task goes on to its children: reading
    [actor.created.message.payload.actor.id] succeeds, and its create
    message, when one is sent, is answered. *)
Definition replayable (t : ActorTree) : Prop :=
  (∃ c type actor,
     created (tree_actor t) = Some c ∧
     payload (message c) = CreateActorCommon type actor) ∧
  ∀ m, createMessage (tree_actor t) = Some m → answered m.

(** The messages handed to the transport and the messages answered, in the
    order of a trace. *)
Definition sent (t : list Event) : list Message :=
  omap (fun e => match e with ProtocolSendMessage m _ => Some m | _ => None end) t.

Definition replied (t : list Event) : list Message :=
  omap (fun e => match e with ReplyReceived m _ => Some m | _ => None end) t.

(** The tasks of [createActorRecursive] that have not gone on to their
    children yet: the runnable ones and those parked on a reply. *)
Definition awaited_actor (mk : Message * Continuation) : option ActorTree :=
  match mk.2 with
  | ExpectResponse (AwaitActor t) => Some t
  | _ => None
  end.

Definition pending (st : State) : list ActorTree :=
  resumed st ++ omap awaited_actor (promises st).

Definition replay_inv (st : State) : Prop :=
  Forall replayable (flat_map nodes (pending st)) ∧
  Forall (fun mk => ∃ tq, mk.2 = ExpectResponse (AwaitActor tq) ∧
                          createMessage (tree_actor tq) = Some mk.1) (promises st).

Definition replay_post (st : State) (o : Outcome) : Prop :=
  ∃ st' t,
    o = Resolved st' ∧
    trace st' = trace st ++ t ∧
    sent t ≡ₚ createMessages (flat_map descendants (pending st)) ∧
    replied t ≡ₚ map fst (promises st) ++ sent t.


(** *** The queue and the store *)

(** The reply continuation the parent class keeps for a queued message that
    is forwarded. *)
Definition queued_continuation (q : QueuedMessage) : option (Message * Continuation) :=
  (fun p => (queued_message q, CallerPromise p)) <$> queued_promise q.

(** Every object of the store of [st] is in the store of [st'], unchanged. *)
Definition keeps_objects (st st' : State) : Prop :=
  ∀ l o, objects st !! l = Some o → objects st' !! l = Some o.


(** Every entry of the queue of [st'] was in the queue of [st] or is a
    cached asset update, queued without a reply continuation. *)
Definition queue_from (st st' : State) : Prop :=
  ∀ q, q ∈ queuedMessages st' →
       q ∈ queuedMessages st ∨
       ∃ p, p ∈ assetUpdates session ∧
            q = {| queued_message := messageOf p; queued_promise := None |}.

(** Whether an event is the arrival of a reply, or of its failure. *)
Definition is_reply_event (e : Event) : bool :=
  match e with
  | ReplyReceived _ _ | ReplyFailed _ => true
  | _ => false
  end.


(** The events a run can add to the trace: it never reports a missing stage
    handler, and it reports an invalid message only for a cached asset
    update. *)
Definition expected_event (e : Event) : Prop :=
  match e with
  | ConsoleErrorNoHandler _ => False
  | ConsoleErrorInvalidMessage type _ _ =>
      ∃ p, p ∈ assetUpdates session ∧ type = payload_type p
  | _ => True
  end.

Definition only_expected (st st' : State) : Prop :=
  ∃ t, trace st' = trace st ++ t ∧ Forall expected_event t.


(** * Properties *)

(** ** The router *)

Lemma isStageComplete_spec st s : isStageComplete st s = true ↔ s ∈ completedStages st.
Proof. unfold isStageComplete. apply bool_decide_eq_true. Qed.

Lemma isStageInProgress_spec st s : isStageInProgress st s = true ↔ s ∈ inProgressStages st.
Proof. unfold isStageInProgress. apply bool_decide_eq_true. Qed.

Lemma ruleFor_lookup m :
  ruleFor m = match Rules !! payload_type (payload m) with
              | Some rule => rule
              | None => MissingRule
              end.
Proof. unfold ruleFor. by destruct (Rules !! _). Qed.

(** C1.  The handling of a message is read off its rule, the rule registered
    for its payload type or else the fallback rule: [after] when the rule's
    stage is complete, otherwise [during] when it is in progress, otherwise
    [before]. *)
Theorem handlingForMessage_by_stage st m :
  let rule :=
    match Rules !! payload_type (payload m) with
    | Some rule => synchronization rule
    | None => synchronization MissingRule
    end in
  handlingForMessage st m =
    if decide (stage rule ∈ completedStages st) then after rule
    else if decide (stage rule ∈ inProgressStages st) then during rule
    else before rule.
Proof.
  intros rule. unfold handlingForMessage.
  assert (synchronization (ruleFor m) = rule) as ->.
  { rewrite ruleFor_lookup. subst rule. by destruct (Rules !! _). }
  unfold isStageComplete, isStageInProgress.
  destruct (decide (stage rule ∈ completedStages st)) as [Hc|Hc].
  - by rewrite bool_decide_eq_true_2.
  - rewrite (bool_decide_eq_false_2 _ Hc).
    destruct (decide (stage rule ∈ inProgressStages st)) as [Hp|Hp].
    + by rewrite bool_decide_eq_true_2.
    + by rewrite bool_decide_eq_false_2.
Qed.

(** The handling depends on the state through the two stage sets only. *)
Lemma handlingForMessage_ext st st' m :
  inProgressStages st' = inProgressStages st →
  completedStages st' = completedStages st →
  handlingForMessage st' m = handlingForMessage st m.
Proof.
  intros Hp Hc. unfold handlingForMessage, isStageComplete, isStageInProgress.
  by rewrite Hp, Hc.
Qed.


(** ** Steps that emit no driver event *)

Lemma quiet_refl st : quiet st st.
Proof. repeat split; try done. exists []. by rewrite app_nil_r. Qed.

Lemma quiet_trans st1 st2 st3 : quiet st1 st2 → quiet st2 st3 → quiet st1 st3.
Proof.
  intros (Hp1 & Hc1 & t1 & Ht1 & Hq1) (Hp2 & Hc2 & t2 & Ht2 & Hq2).
  split; [congruence|]. split; [congruence|].
  exists (t1 ++ t2). split.
  - by rewrite Ht2, Ht1, app_assoc.
  - by apply Forall_app.
Qed.

Lemma quiet_addEvent e st : is_driver_event e = false → quiet st (addEvent e st).
Proof. intros He. repeat split; try done. exists [e]. split; [done|]. by constructor. Qed.

Lemma quiet_set_promises l st : quiet st (set_promises l st).
Proof. repeat split; try done. exists []. by rewrite app_nil_r. Qed.

Lemma quiet_set_resumed l st : quiet st (set_resumed l st).
Proof. repeat split; try done. exists []. by rewrite app_nil_r. Qed.

Lemma quiet_set_queuedMessages l st : quiet st (set_queuedMessages l st).
Proof. repeat split; try done. exists []. by rewrite app_nil_r. Qed.

Lemma quiet_set_objects h st : quiet st (set_objects h st).
Proof. repeat split; try done. exists []. by rewrite app_nil_r. Qed.

Lemma quiet_fold_left {A} (f : State → A → State) l st :
  (∀ s x, quiet s (f s x)) → quiet st (fold_left f l st).
Proof.
  intros Hf. revert st. induction l as [|x l IH]; intros st; simpl.
  - apply quiet_refl.
  - eapply quiet_trans; [apply Hf | apply IH].
Qed.

Lemma quiet_driver_events st st' :
  quiet st st' → driver_events (trace st') = driver_events (trace st).
Proof.
  intros (_ & _ & t & -> & Hq). unfold driver_events.
  rewrite List.filter_app.
  assert (List.filter is_driver_event t = []) as ->; [|by rewrite app_nil_r].
  induction Hq as [|e t He _ IH]; simpl; [done|]. by rewrite He.
Qed.

Lemma quiet_extends st st' : quiet st st' → extends st st'.
Proof. intros (_ & _ & t & Ht & _). by exists t. Qed.

Lemma quiet_Protocol_sendMessage m k st : quiet st (Protocol_sendMessage m k st).
Proof.
  unfold Protocol_sendMessage. destruct k.
  - eapply quiet_trans; [|apply quiet_set_promises]. by apply quiet_addEvent.
  - by apply quiet_addEvent.
Qed.

Lemma quiet_Protocol_sendPayload p st :
  p ≠ SyncCompletePayload → quiet st (Protocol_sendPayload p st).
Proof. intros Hp. apply quiet_addEvent. by destruct p. Qed.

Lemma quiet_Client_sendPayload c p k st : quiet st (Client_sendPayload c p k st).
Proof.
  unfold Client_sendPayload.
  eapply quiet_trans; [|apply quiet_set_promises]. by apply quiet_addEvent.
Qed.

Lemma quiet_sendMessage m p st : quiet st (sendMessage m p st).
Proof.
  unfold sendMessage. destruct (handlingForMessage st m).
  - apply quiet_Protocol_sendMessage.
  - apply quiet_set_queuedMessages.
  - apply quiet_refl.
  - by apply quiet_addEvent.
Qed.

Lemma quiet_sendAndExpectResponse m w st : quiet st (sendAndExpectResponse m w st).
Proof. apply quiet_Protocol_sendMessage. Qed.

Lemma quiet_createActorRecursive t st : quiet st (createActorRecursive t st).
Proof.
  unfold createActorRecursive, createActor.
  destruct (created (tree_actor t)) as [c|]; [|apply quiet_set_resumed].
  destruct (truthy _); [apply quiet_sendAndExpectResponse | apply quiet_set_resumed].
Qed.

Lemma quiet_resumeActor t st : quiet st (turn_state (resumeActor t st)).
Proof.
  unfold resumeActor.
  destruct (created (tree_actor t)) as [c|]; [|apply quiet_refl].
  destruct (payload (message c)); simpl; try apply quiet_refl.
  apply quiet_fold_left. intros. apply quiet_createActorRecursive.
Qed.

Lemma quiet_deliver ctx m k st : quiet st (turn_state (deliver ctx m k st)).
Proof.
  unfold deliver. destruct (respond m) as [reply|].
  - eapply quiet_trans; [by apply (quiet_addEvent (ReplyReceived m reply))|].
    destruct k as [w|p|].
    + set (st1 := addEvent (ReplyReceived m reply) st).
      assert (quiet st1 (if authoritative client
                         then addEvent (SessionConnSend reply) st1 else st1)) as Hecho.
      { destruct (authoritative client); [by apply quiet_addEvent | apply quiet_refl]. }
      eapply quiet_trans; [exact Hecho|].
      destruct w; simpl; try apply quiet_refl. apply quiet_resumeActor.
    + simpl. by apply quiet_addEvent.
    + destruct (payload reply) as [|[l|]| | | |]; simpl; try apply quiet_refl.
      by apply quiet_Protocol_sendPayload.
  - eapply quiet_trans; [by apply (quiet_addEvent (ReplyFailed m))|].
    destruct k as [[]|p|]; simpl; try apply quiet_refl.
    + destruct ctx; apply quiet_refl.
    + destruct ctx; simpl; by apply quiet_addEvent.
Qed.

Lemma quiet_awaitReplies fuel ctx stuck st o :
  awaitReplies fuel ctx stuck st = Some o → quiet st (outcome_state o).
Proof.
  revert stuck st. induction fuel as [|fuel IH]; intros stuck st; simpl.
  - destruct (resumed st); [|done].
    destruct (pick _ _) as [[[m k] rest]|]; [done|].
    intros [= <-]. destruct stuck; apply quiet_refl.
  - destruct (resumed st) as [|t rest] eqn:Hr.
    + destruct (pick _ _) as [[[m k] rest]|].
      * pose proof (quiet_deliver ctx m k (set_promises rest st)) as Hd.
        destruct (deliver _ _ _ _) as [st'|st'|st']; simpl in Hd.
        -- intros H. apply IH in H.
           eapply quiet_trans; [|exact H].
           eapply quiet_trans; [apply quiet_set_promises | exact Hd].
        -- intros H. apply IH in H.
           eapply quiet_trans; [|exact H].
           eapply quiet_trans; [apply quiet_set_promises | exact Hd].
        -- intros [= <-]. eapply quiet_trans; [apply quiet_set_promises | exact Hd].
      * intros [= <-]. destruct stuck; apply quiet_refl.
    + pose proof (quiet_resumeActor t (set_resumed rest st)) as Hd.
      destruct (resumeActor _ _) as [st'|st'|st']; simpl in Hd.
      * intros H. apply IH in H.
        eapply quiet_trans; [|exact H].
        eapply quiet_trans; [apply quiet_set_resumed | exact Hd].
      * intros H. apply IH in H.
        eapply quiet_trans; [|exact H].
        eapply quiet_trans; [apply quiet_set_resumed | exact Hd].
      * intros [= <-]. eapply quiet_trans; [apply quiet_set_resumed | exact Hd].
Qed.


(** ** The event loop returns *)

Lemma pick_Some {A} i (l : list A) x rest :
  pick i l = Some (x, rest) → l ≡ₚ x :: rest.
Proof.
  unfold pick. destruct (l !! (i `mod` length l)) as [y|] eqn:Hl; [|done].
  intros [= <- <-]. by apply delete_Permutation.
Qed.

Lemma pick_None {A} i (l : list A) : pick i l = None → l = [].
Proof.
  unfold pick. destruct l as [|y l]; [done|].
  destruct ((y :: l) !! (i `mod` length (y :: l))) eqn:Hl; [done|].
  apply lookup_ge_None in Hl.
  pose proof (Nat.mod_upper_bound i (length (y :: l))) as Hb.
  simpl in *. lia.
Qed.

Lemma pick_nil {A} i : pick i (@nil A) = None.
Proof. done. Qed.

Lemma weight_createActorRecursive t st :
  weight (createActorRecursive t st) ≤ weight st + S (tree_weight t).
Proof.
  unfold createActorRecursive, createActor, sendAndExpectResponse, Protocol_sendMessage.
  destruct (created (tree_actor t)) as [c|];
    [destruct (truthy _)|]; unfold weight; simpl;
    rewrite ?sum_list_with_app; simpl; lia.
Qed.

Lemma weight_spawn kids st :
  weight (fold_left (fun s child => createActorRecursive child s) kids st)
  ≤ weight st + sum_list_with (fun k => S (tree_weight k)) kids.
Proof.
  revert st. induction kids as [|k kids IH]; intros st; simpl; [lia|].
  etrans; [apply IH|]. pose proof (weight_createActorRecursive k st). lia.
Qed.

Lemma weight_resumeActor t st :
  S (weight (turn_state (resumeActor t st))) ≤ weight st + tree_weight t.
Proof.
  unfold resumeActor. destruct t as [a kids]. simpl.
  destruct (created a) as [c|]; [|simpl; lia].
  destruct (payload (message c)); simpl; try lia.
  pose proof (weight_spawn kids st). lia.
Qed.

Lemma weight_deliver ctx m k st :
  S (weight (turn_state (deliver ctx m k st))) ≤ weight st + continuation_weight k.
Proof.
  unfold deliver. destruct (respond m) as [reply|].
  - destruct k as [w|p|].
    + set (st1 := addEvent (ReplyReceived m reply) st).
      set (st2 := if authoritative client then _ else _).
      assert (weight st2 = weight st) as Hw.
      { subst st2. by destruct (authoritative client). }
      destruct w; simpl; try lia.
      pose proof (weight_resumeActor t st2). lia.
    + simpl. unfold weight. simpl. lia.
    + destruct (payload reply) as [|[l|]| | | |]; simpl; unfold weight; simpl; lia.
  - destruct k as [[]|p|]; simpl; try (destruct ctx); simpl; unfold weight; simpl; lia.
Qed.

Lemma weight_pick st m k rest :
  pick (sched (promises st)) (promises st) = Some ((m, k), rest) →
  weight st = weight (set_promises rest st) + continuation_weight k.
Proof.
  intros Hp%pick_Some. unfold weight. simpl. rewrite Hp. simpl. lia.
Qed.

Lemma tree_weight_pos t : 0 < tree_weight t.
Proof. destruct t. simpl. lia. Qed.

Lemma awaitReplies_returns fuel ctx stuck st :
  weight st ≤ fuel → ∃ o, awaitReplies fuel ctx stuck st = Some o.
Proof.
  revert stuck st. induction fuel as [|fuel IH]; intros stuck st Hw.
  - simpl. destruct (resumed st) as [|t rest] eqn:Hr.
    + destruct (pick _ _) as [[[m k] rest]|] eqn:Hp; [|eauto].
      apply weight_pick in Hp. destruct k as [[]| |]; simpl in Hp; lia.
    + unfold weight in Hw. rewrite Hr in Hw. simpl in Hw.
      pose proof (tree_weight_pos t). lia.
  - simpl. destruct (resumed st) as [|t rest] eqn:Hr.
    + destruct (pick _ _) as [[[m k] rest]|] eqn:Hp; [|eauto].
      apply weight_pick in Hp.
      pose proof (weight_deliver ctx m k (set_promises rest st)) as Hd.
      destruct (deliver _ _ _ _) as [st'|st'|st']; simpl in Hd; eauto;
        apply IH; lia.
    + pose proof (weight_resumeActor t (set_resumed rest st)) as Hd.
      assert (weight st = weight (set_resumed rest st) + tree_weight t) as Hs.
      { unfold weight. rewrite Hr. simpl. lia. }
      destruct (resumeActor _ _) as [st'|st'|st']; simpl in Hd; eauto;
        apply IH; lia.
Qed.

Lemma awaitAll_returns ctx st : ∃ o, awaitAll ctx st = Some o.
Proof. by apply awaitReplies_returns. Qed.

Lemma quiet_awaitAll ctx st o : awaitAll ctx st = Some o → quiet st (outcome_state o).
Proof. apply quiet_awaitReplies. Qed.


(** ** What the event loop leaves alone *)

(** A relation between states that holds across every turn of the event loop
    holds across the whole wait. *)
Lemma awaitReplies_rel (R : State → State → Prop) :
  (∀ st, R st st) →
  (∀ st1 st2 st3, R st1 st2 → R st2 st3 → R st1 st3) →
  (∀ l st, R st (set_promises l st)) →
  (∀ l st, R st (set_resumed l st)) →
  (∀ ctx m k st, R st (turn_state (deliver ctx m k st))) →
  (∀ t st, R st (turn_state (resumeActor t st))) →
  ∀ fuel ctx stuck st o,
    awaitReplies fuel ctx stuck st = Some o → R st (outcome_state o).
Proof.
  intros Hrefl Htrans Hsp Hsr Hdel Hres.
  induction fuel as [|fuel IH]; intros ctx stuck st o; simpl.
  - destruct (resumed st); [|done].
    destruct (pick _ _) as [[[m k] rest]|]; [done|].
    intros [= <-]. by destruct stuck.
  - destruct (resumed st) as [|t rest] eqn:Hr.
    + destruct (pick _ _) as [[[m k] rest]|].
      * pose proof (Hdel ctx m k (set_promises rest st)) as Hd.
        pose proof (Hsp rest st) as Hs.
        destruct (deliver _ _ _ _) as [st'|st'|st']; simpl in Hd.
        -- intros H%IH. eauto.
        -- intros H%IH. eauto.
        -- intros [= <-]. eauto.
      * intros [= <-]. by destruct stuck.
    + pose proof (Hres t (set_resumed rest st)) as Hd.
      pose proof (Hsr rest st) as Hs.
      destruct (resumeActor _ _) as [st'|st'|st']; simpl in Hd.
      * intros H%IH. eauto.
      * intros H%IH. eauto.
      * intros [= <-]. eauto.
Qed.

Lemma same_trans st1 st2 st3 :
  same_queue_and_objects st1 st2 → same_queue_and_objects st2 st3 →
  same_queue_and_objects st1 st3.
Proof. intros [H1 H2] [H3 H4]. split; congruence. Qed.

Lemma same_createActorRecursive t st :
  same_queue_and_objects st (createActorRecursive t st).
Proof.
  unfold createActorRecursive, createActor.
  destruct (created (tree_actor t)) as [c|]; [destruct (truthy _)|]; by split.
Qed.

Lemma same_spawn kids st :
  same_queue_and_objects st
    (fold_left (fun s child => createActorRecursive child s) kids st).
Proof.
  revert st. induction kids as [|k kids IH]; intros st; simpl; [by split|].
  eapply same_trans; [apply same_createActorRecursive | apply IH].
Qed.

Lemma same_resumeActor t st :
  same_queue_and_objects st (turn_state (resumeActor t st)).
Proof.
  unfold resumeActor. destruct (created (tree_actor t)) as [c|]; [|by split].
  destruct (payload (message c)); simpl; try by split. apply same_spawn.
Qed.

Lemma same_deliver ctx m k st :
  same_queue_and_objects st (turn_state (deliver ctx m k st)).
Proof.
  unfold deliver. destruct (respond m) as [reply|].
  - destruct k as [w|p|].
    + set (st2 := if authoritative client then _ else _).
      assert (same_queue_and_objects st st2) as [Hq Ho].
      { subst st2. by destruct (authoritative client). }
      destruct w; simpl; try by split.
      eapply same_trans; [|apply same_resumeActor]. by split.
    + by split.
    + by destruct (payload reply) as [|[l|]| | | |].
  - destruct k as [[]|p|]; simpl; try (destruct ctx); by split.
Qed.

Lemma same_awaitReplies fuel ctx stuck st o :
  awaitReplies fuel ctx stuck st = Some o →
  same_queue_and_objects st (outcome_state o).
Proof.
  apply awaitReplies_rel.
  - by split.
  - apply same_trans.
  - by split.
  - by split.
  - apply same_deliver.
  - apply same_resumeActor.
Qed.

(** ** The queue drain *)

Lemma allowedNow_ext st st' q :
  inProgressStages st' = inProgressStages st →
  completedStages st' = completedStages st →
  allowedNow st' q = allowedNow st q.
Proof. intros Hp Hc. unfold allowedNow. by rewrite (handlingForMessage_ext st st'). Qed.

Lemma filter_ext_bool {A} (f g : A → bool) l :
  (∀ x, f x = g x) → List.filter f l = List.filter g l.
Proof. intros H. induction l as [|x l IH]; simpl; [done|]. by rewrite H, IH. Qed.

Lemma taken_ext st st' :
  inProgressStages st' = inProgressStages st →
  completedStages st' = completedStages st →
  queuedMessages st' = queuedMessages st →
  taken st' = taken st.
Proof.
  intros Hp Hc Hq. unfold taken. rewrite Hq.
  apply filter_ext_bool. intros q. by apply allowedNow_ext.
Qed.

Lemma taken_remaining st :
  List.filter (allowedNow st) (remaining st) = [].
Proof.
  unfold remaining. induction (queuedMessages st) as [|q l IH]; simpl; [done|].
  destruct (allowedNow st q) eqn:Hq; simpl; [done|]. by rewrite Hq.
Qed.

Lemma remaining_remaining st :
  List.filter (fun q => negb (allowedNow st q)) (remaining st) = remaining st.
Proof.
  unfold remaining. induction (queuedMessages st) as [|q l IH]; simpl; [done|].
  destruct (allowedNow st q) eqn:Hq; simpl; [done|]. by rewrite Hq, IH.
Qed.

Lemma length_taken_remaining st :
  length (taken st) + length (remaining st) = length (queuedMessages st).
Proof.
  unfold taken, remaining. induction (queuedMessages st) as [|q l IH]; simpl; [done|].
  destruct (allowedNow st q); simpl; lia.
Qed.

(** Re-sending a message the drain took: its classification is still [Allow],
    so it goes to the transport and not back into the queue. *)
Lemma resend_allowed qs : ∀ st,
  Forall (fun q => allowedNow st q = true) qs →
  let st' :=
    fold_left (fun s q => sendMessage (queued_message q) (queued_promise q) s) qs st in
  queuedMessages st' = queuedMessages st ∧
  objects st' = objects st ∧
  inProgressStages st' = inProgressStages st ∧
  completedStages st' = completedStages st ∧
  trace st' = trace st ++ forwarded qs.
Proof.
  induction qs as [|q qs IH]; intros st Hall; simpl.
  - by rewrite app_nil_r.
  - apply Forall_cons in Hall as [Hq Hall].
    unfold allowedNow in Hq. apply bool_decide_eq_true in Hq.
    set (st1 := sendMessage (queued_message q) (queued_promise q) st).
    assert (queuedMessages st1 = queuedMessages st ∧ objects st1 = objects st ∧
            inProgressStages st1 = inProgressStages st ∧
            completedStages st1 = completedStages st ∧
            trace st1 = trace st ++
              [ProtocolSendMessage (queued_message q)
                 (bool_decide (is_Some (queued_promise q)))])
      as (Hq1 & Ho1 & Hp1 & Hc1 & Ht1).
    { subst st1. unfold sendMessage. rewrite Hq. unfold Protocol_sendMessage.
      destruct (queued_promise q) as [p|]; simpl; repeat split; done. }
    destruct (IH st1) as (Hq2 & Ho2 & Hp2 & Hc2 & Ht2).
    { eapply Forall_impl; [exact Hall|]. intros q' Hq'. simpl in Hq'.
      by rewrite (allowedNow_ext st st1). }
    simpl in *. rewrite Hq2, Ho2, Hp2, Hc2, Ht2, Ht1, <- app_assoc. done.
Qed.

Lemma taken_allowed st : Forall (fun q => allowedNow st q = true) (taken st).
Proof.
  unfold taken. apply Forall_forall. intros q Hq%list_elem_of_In.
  by apply List.filter_In in Hq as [_ Hq].
Qed.


Lemma sendQueuedMessages_unfold fuel st :
  sendQueuedMessages fuel st =
    match taken st with
    | [] => Some (Resolved (set_queuedMessages (remaining st) st))
    | _ :: _ =>
        match fuel with
        | 0 => None
        | S fuel' =>
            match
              drainPromises
                (fold_left
                   (fun s q => sendMessage (queued_message q) (queued_promise q) s)
                   (taken st) (set_queuedMessages (remaining st) st))
            with
            | Some (Resolved st') => sendQueuedMessages fuel' st'
            | other => other
            end
        end
    end.
Proof. by destruct fuel. Qed.

Lemma taken_nil_after st st' :
  inProgressStages st' = inProgressStages st →
  completedStages st' = completedStages st →
  queuedMessages st' = remaining st →
  taken st' = [] ∧ remaining st' = remaining st.
Proof.
  intros Hp Hc Hq. split.
  - unfold taken. rewrite Hq.
    rewrite (filter_ext_bool _ (allowedNow st)); [apply taken_remaining|].
    intros q. by apply allowedNow_ext.
  - unfold remaining at 1. rewrite Hq.
    rewrite (filter_ext_bool _ (fun q => negb (allowedNow st q)));
      [apply remaining_remaining|].
    intros q. f_equal. by apply allowedNow_ext.
Qed.

Lemma sendQueuedMessages_drained fuel st :
  ∃ o, sendQueuedMessages (S fuel) st = Some o ∧ drained st o.
Proof.
  rewrite sendQueuedMessages_unfold.
  destruct (taken st) as [|q qs] eqn:Htaken.
  - eexists. split; [done|]. unfold drained. simpl.
    split; [apply quiet_set_queuedMessages|].
    split; [done|]. split; [done|]. split.
    + exists []. by rewrite Htaken, app_nil_r.
    + by apply (taken_nil_after st).
  - rewrite <- Htaken. clear q qs Htaken.
    set (st1 := set_queuedMessages (remaining st) st).
    set (st2 := fold_left _ (taken st) st1).
    destruct (resend_allowed (taken st) st1) as (Hq2 & Ho2 & Hp2 & Hc2 & Ht2).
    { eapply Forall_impl; [apply taken_allowed|]. intros q Hq. simpl in Hq.
      by rewrite (allowedNow_ext st st1). }
    fold st2 in Hq2, Ho2, Hp2, Hc2, Ht2. simpl in Hq2, Ho2, Hp2, Hc2, Ht2.
    assert (quiet st st2) as Hquiet2.
    { eapply quiet_trans; [apply (quiet_set_queuedMessages (remaining st))|].
      apply quiet_fold_left. intros. apply quiet_sendMessage. }
    destruct (awaitAll_returns AwaitDrain st2) as [o1 Ho1].
    unfold drainPromises. rewrite Ho1.
    pose proof (quiet_awaitAll _ _ _ Ho1) as Hquiet3.
    pose proof (same_awaitReplies _ _ _ _ _ Ho1) as [Hq3 Ho3].
    assert (drained st o1) as Hdrained.
    { unfold drained.
      split; [by eapply quiet_trans|].
      split; [congruence|]. split; [congruence|]. split.
      - destruct Hquiet3 as (_ & _ & t & Ht & _). exists t.
        by rewrite Ht, Ht2, <- app_assoc.
      - destruct Hquiet3 as (Hp3 & Hc3 & _).
        apply (taken_nil_after st); congruence. }
    destruct o1 as [st3|st3|st3]; try by eexists.
    destruct Hdrained as (Hquiet & Hq & Ho & [t Ht] & Htk). simpl in *.
    rewrite sendQueuedMessages_unfold, Htk.
    eexists. split; [done|]. unfold drained. simpl.
    destruct Hquiet as (Hp & Hc & Hqt).
    destruct (taken_nil_after st st3) as [_ Hrem]; [done..|].
    split; [|split; [done|split; [done|split]]].
    + eapply quiet_trans; [|apply quiet_set_queuedMessages]. by repeat split.
    + by exists t.
    + apply (taken_nil_after st); done.
Qed.

Lemma sendAllQueuedMessages_drained st :
  ∃ o, sendAllQueuedMessages st = Some o ∧ drained st o.
Proof. apply sendQueuedMessages_drained. Qed.


(** ** The stage drivers return and emit no driver event *)

Lemma quiet_createActorBehavior a st : quiet st (createActorBehavior a st).
Proof.
  unfold createActorBehavior. destruct (behavior a) as [b|]; [|apply quiet_refl].
  destruct (truthy b); [by apply quiet_Protocol_sendPayload | apply quiet_refl].
Qed.

Lemma quiet_forwardInterpolation st l : quiet st (forwardInterpolation st l).
Proof.
  unfold forwardInterpolation. destruct (objects st !! l) as [o|]; [|apply quiet_refl].
  eapply quiet_trans; [apply quiet_set_objects|]. by apply quiet_Protocol_sendPayload.
Qed.

Lemma quiet_createActorInterpolations a st : quiet st (createActorInterpolations a st).
Proof. apply quiet_fold_left. apply quiet_forwardInterpolation. Qed.

Lemma quiet_createActorAnimations a st : quiet st (createActorAnimations a st).
Proof. apply quiet_fold_left. intros. apply quiet_sendAndExpectResponse. Qed.

Lemma executeStage_returns s st : ∃ o, executeStage s st = Some o.
Proof.
  destruct s; simpl; eauto.
  - unfold stage_load_assets.
    destruct (awaitAll_returns AwaitStage
                (fold_left (fun s m => sendAndExpectResponse m AwaitAsset s)
                   (assets session) st)) as [o ->].
    destruct o; eauto.
  - apply awaitAll_returns.
  - unfold stage_sync_animations. destruct (_ =? _); eauto. apply awaitAll_returns.
Qed.

Lemma quiet_executeStage s st o :
  executeStage s st = Some o → quiet st (outcome_state o).
Proof.
  destruct s; simpl.
  - intros [= <-]. by apply quiet_addEvent.
  - unfold stage_load_assets.
    set (st1 := fold_left _ (assets session) st).
    assert (quiet st st1) as H1.
    { apply quiet_fold_left. intros. apply quiet_sendAndExpectResponse. }
    destruct (awaitAll AwaitStage st1) as [o1|] eqn:Ho1; [|done].
    apply quiet_awaitAll in Ho1.
    destruct o1 as [st2|st2|st2]; intros [= <-]; simpl in *;
      try by eapply quiet_trans.
    eapply quiet_trans; [by eapply quiet_trans|].
    apply quiet_fold_left. intros. apply quiet_sendMessage.
  - unfold stage_create_actors. intros H%quiet_awaitAll.
    eapply quiet_trans; [|exact H].
    apply quiet_fold_left. intros. apply quiet_createActorRecursive.
  - unfold stage_create_animations. intros [= <-]. simpl.
    eapply quiet_trans.
    + apply (quiet_fold_left (fun s a => createActorInterpolations a s)).
      intros. apply quiet_createActorInterpolations.
    + apply quiet_fold_left. intros. apply quiet_createActorAnimations.
  - unfold stage_sync_animations. destruct (_ =? _).
    + intros [= <-]. apply quiet_refl.
    + intros H%quiet_awaitAll. eapply quiet_trans; [|exact H].
      apply quiet_Client_sendPayload.
  - unfold stage_set_behaviors. intros [= <-]. simpl.
    apply quiet_fold_left. intros. apply quiet_createActorBehavior.
  - intros [= <-]. by apply quiet_addEvent.
Qed.

(** ** The stage sets and the log *)

Lemma replay_app t1 t2 : replay (t1 ++ t2) = fold_left replay_event t2 (replay t1).
Proof. unfold replay. by rewrite fold_left_app. Qed.

Lemma replay_quiet t sets :
  Forall (fun e => is_driver_event e = false) t → fold_left replay_event t sets = sets.
Proof.
  intros H. revert sets. induction H as [|e t He _ IH]; intros sets; simpl; [done|].
  rewrite <- (IH sets) at 2. f_equal. by destruct e.
Qed.

Lemma consistent_quiet st st' : quiet st st' → consistent st → consistent st'.
Proof.
  intros (Hp & Hc & t & Ht & Hq) Hst. unfold consistent in *.
  by rewrite Ht, replay_app, replay_quiet, Hst, Hp, Hc.
Qed.

Lemma consistent_beginStage s st : consistent st → consistent (beginStage s st).
Proof.
  unfold consistent, beginStage. simpl. intros Hst. by rewrite replay_app, Hst.
Qed.

Lemma consistent_completeStage s st : consistent st → consistent (completeStage s st).
Proof.
  unfold consistent, completeStage. simpl. intros Hst. by rewrite replay_app, Hst.
Qed.

Lemma driver_events_app t1 t2 :
  driver_events (t1 ++ t2) = driver_events t1 ++ driver_events t2.
Proof. apply List.filter_app. Qed.

Lemma driver_events_beginStage s st :
  driver_events (trace (beginStage s st)) = driver_events (trace st) ++ [LogBeginStage s].
Proof. unfold beginStage. simpl. by rewrite driver_events_app. Qed.

Lemma driver_events_completeStage s st :
  driver_events (trace (completeStage s st))
  = driver_events (trace st) ++ [LogCompleteStage s].
Proof. unfold completeStage. simpl. by rewrite driver_events_app. Qed.


(** ** The driver *)

Lemma extends_refl st : extends st st.
Proof. exists []. by rewrite app_nil_r. Qed.

Lemma extends_trans st1 st2 st3 : extends st1 st2 → extends st2 st3 → extends st1 st3.
Proof. intros [t1 H1] [t2 H2]. exists (t1 ++ t2). by rewrite H2, H1, app_assoc. Qed.

Lemma extends_beginStage s st : extends st (beginStage s st).
Proof. by exists [LogBeginStage s]. Qed.

Lemma extends_completeStage s st : extends st (completeStage s st).
Proof. by exists [LogCompleteStage s]. Qed.

Lemma runStages_spec stages : ∀ st,
  ∃ o, runStages stages st = Some o ∧
       (consistent st → consistent (outcome_state o)) ∧
       ∃ done,
         driver_events (trace (outcome_state o)) = driver_events (trace st) ++ done ∧
         done `prefix_of` stage_log stages ∧
         match o with
         | Resolved st' => done = stage_log stages ∧ staged stages st st'
         | _ => True
         end.
Proof.
  induction stages as [|s rest IH]; intros st; simpl.
  - eexists. split; [done|]. split; [done|]. exists []. simpl.
    rewrite app_nil_r. repeat split; try done. constructor.
  - destruct (executeStage_returns s (beginStage s st)) as [o1 Ho1]. rewrite Ho1.
    pose proof (quiet_executeStage _ _ _ Ho1) as Hq1.
    assert (driver_events (trace (outcome_state o1))
            = driver_events (trace st) ++ [LogBeginStage s]) as Hd1.
    { by rewrite (quiet_driver_events _ _ Hq1), driver_events_beginStage. }
    assert (consistent st → consistent (outcome_state o1)) as Hc1.
    { intros H. eapply consistent_quiet; [exact Hq1|]. by apply consistent_beginStage. }
    assert ([LogBeginStage s] `prefix_of`
              LogBeginStage s :: LogCompleteStage s :: stage_log rest) as Hpre1.
    { by exists (LogCompleteStage s :: stage_log rest). }
    destruct o1 as [st1|st1|st1];
      try (eexists; split; [done|]; split; [done|]; by exists [LogBeginStage s]).
    simpl in *.
    destruct (sendAllQueuedMessages_drained (completeStage s st1)) as (o2 & Ho2 & Hdr).
    rewrite Ho2.
    pose proof Hdr as (Hq2 & _).
    assert (driver_events (trace (outcome_state o2))
            = driver_events (trace st) ++ [LogBeginStage s; LogCompleteStage s]) as Hd2.
    { rewrite (quiet_driver_events _ _ Hq2), driver_events_completeStage, Hd1.
      by rewrite <- app_assoc. }
    assert (consistent st → consistent (outcome_state o2)) as Hc2.
    { intros H. eapply consistent_quiet; [exact Hq2|].
      by apply consistent_completeStage, Hc1. }
    assert ([LogBeginStage s; LogCompleteStage s] `prefix_of`
              LogBeginStage s :: LogCompleteStage s :: stage_log rest) as Hpre2.
    { by exists (stage_log rest). }
    destruct o2 as [st2|st2|st2];
      try (eexists; split; [done|]; split; [done|];
           by exists [LogBeginStage s; LogCompleteStage s]).
    simpl in *.
    destruct (IH st2) as (o3 & Ho3 & Hc3 & done & Hd3 & Hpre3 & Hres).
    exists o3. split; [done|]. split; [by auto|].
    exists ([LogBeginStage s; LogCompleteStage s] ++ done). split.
    { by rewrite Hd3, Hd2, <- app_assoc. }
    split.
    { destruct Hpre3 as [k ->]. exists k. by rewrite <- app_assoc. }
    destruct o3 as [st3|st3|st3]; try done.
    destruct Hres as [-> Hst]. split; [done|]. by econstructor.
Qed.

Lemma sync_complete_count_driver_events t :
  sync_complete_count (driver_events t) = sync_complete_count t.
Proof.
  unfold sync_complete_count, driver_events. f_equal.
  induction t as [|e t IH]; simpl; [done|].
  destruct (is_driver_event e) eqn:He; simpl.
  - by rewrite IH.
  - rewrite IH. by destruct e as [| | | | |[]| | | | | |].
Qed.

(** The shape of every run: the driver events emitted form an initial
    segment of [expected_log], all of it when the run resolves; the stage
    sets follow the log. *)
Lemma run_spec st :
  ∃ o, run st = Some o ∧
       (consistent st → consistent (outcome_state o)) ∧
       ∃ done,
         driver_events (trace (outcome_state o)) = driver_events (trace st) ++ done ∧
         done `prefix_of` expected_log ∧
         match o with
         | Resolved st' =>
             done = expected_log ∧
             taken st' = [] ∧
             ∃ st1 post,
               (if peerAuthoritative session
                then staged sequence (beginStage StageAlways st) st1
                else st1 = beginStage StageAlways st) ∧
               trace st' =
                 trace st1
                 ++ [LogCompleteStage StageAlways; ProtocolSendPayload SyncCompletePayload]
                 ++ post ∧
               Forall (fun e => is_driver_event e = false) post
         | _ => True
         end.
Proof.
  unfold run, expected_log.
  set (st0 := beginStage StageAlways st).
  assert (∃ o1, (if peerAuthoritative session then runStages sequence st0
                 else Some (Resolved st0)) = Some o1 ∧
            (consistent st0 → consistent (outcome_state o1)) ∧
            ∃ done, driver_events (trace (outcome_state o1))
                    = driver_events (trace st0) ++ done ∧
              done `prefix_of`
                (if peerAuthoritative session then stage_log sequence else []) ∧
              match o1 with
              | Resolved st1 =>
                  done = (if peerAuthoritative session then stage_log sequence else []) ∧
                  (if peerAuthoritative session then staged sequence st0 st1
                   else st1 = st0)
              | _ => True
              end) as (o1 & Ho1 & Hc1 & done1 & Hd1 & Hpre1 & Hres1).
  { destruct (peerAuthoritative session).
    - apply runStages_spec.
    - eexists. split; [done|]. split; [done|]. exists []. simpl.
      by rewrite app_nil_r. }
  rewrite Ho1.
  assert (driver_events (trace (outcome_state o1))
          = driver_events (trace st) ++ LogBeginStage StageAlways :: done1) as Hd1'.
  { rewrite Hd1. subst st0. rewrite driver_events_beginStage.
    by rewrite <- app_assoc. }
  assert (consistent st → consistent (outcome_state o1)) as Hc1'.
  { intros H. by apply Hc1, consistent_beginStage. }
  assert (LogBeginStage StageAlways :: done1 `prefix_of`
            LogBeginStage StageAlways
            :: (if peerAuthoritative session then stage_log sequence else [])
            ++ [LogCompleteStage StageAlways; ProtocolSendPayload SyncCompletePayload])
    as Hpre1'.
  { destruct Hpre1 as [k ->]. eexists. simpl. by rewrite <- app_assoc. }
  destruct o1 as [st1|st1|st1];
    try (eexists; split; [done|]; split; [done|];
         by exists (LogBeginStage StageAlways :: done1)).
  simpl in *. destruct Hres1 as [-> Hst1].
  set (st2 := Protocol_sendPayload SyncCompletePayload (completeStage StageAlways st1)).
  destruct (sendAllQueuedMessages_drained st2) as (o3 & Ho3 & Hdr).
  exists o3. split; [done|].
  destruct Hdr as (Hq3 & Hqueue & _ & _ & Htaken).
  assert (driver_events (trace st2)
          = driver_events (trace st) ++
            LogBeginStage StageAlways
            :: (if peerAuthoritative session then stage_log sequence else [])
            ++ [LogCompleteStage StageAlways; ProtocolSendPayload SyncCompletePayload])
    as Hd2.
  { subst st2. unfold Protocol_sendPayload, completeStage. simpl.
    rewrite <- app_assoc, driver_events_app, Hd1'. simpl.
    by rewrite <- app_assoc. }
  split.
  { intros H. eapply consistent_quiet; [exact Hq3|].
    subst st2. unfold Protocol_sendPayload.
    assert (consistent (completeStage StageAlways st1)) as Hc
      by (by apply consistent_completeStage, Hc1').
    unfold consistent in *. simpl in *.
    rewrite replay_app. simpl. by rewrite Hc. }
  eexists. split; [by rewrite (quiet_driver_events _ _ Hq3), Hd2|].
  split; [done|].
  destruct o3 as [st3|st3|st3]; try done.
  split; [done|]. split; [done|].
  destruct Hq3 as (_ & _ & post & Hpost & Hquiet).
  exists st1, post. split; [done|]. split; [|done].
  simpl in Hpost. rewrite Hpost. subst st2.
  unfold Protocol_sendPayload, completeStage. simpl.
  by rewrite <- !app_assoc.
Qed.


Lemma remaining_all st : taken st = [] → remaining st = queuedMessages st.
Proof.
  unfold taken, remaining. induction (queuedMessages st) as [|q l IH]; simpl; [done|].
  destruct (allowedNow st q); simpl; [done|]. intros H. by rewrite IH.
Qed.

Lemma set_queuedMessages_same st : set_queuedMessages (queuedMessages st) st = st.
Proof. by destruct st. Qed.

(** C6.  The queue drain returns after at most one sending iteration (any
    positive bound on the iterations suffices): an iteration that finds no
    queued message classified [Allow] exits at once and changes nothing;
    otherwise the messages it removes are exactly those classified [Allow],
    each is handed to the transport, the queue is left strictly shorter and
    holds none of them, and no message classified [Allow] remains, so the
    following iteration exits. *)
Theorem sendQueuedMessages_terminates fuel st :
  ∃ o, sendQueuedMessages (S fuel) st = Some o ∧
       Forall (fun q => handlingForMessage st (queued_message q) = Allow) (taken st) ∧
       queuedMessages (outcome_state o) = remaining st ∧
       (∃ t, trace (outcome_state o) = trace st ++ forwarded (taken st) ++ t) ∧
       taken (outcome_state o) = [] ∧
       match taken st with
       | [] => o = Resolved st
       | _ :: _ =>
           length (queuedMessages (outcome_state o)) < length (queuedMessages st)
       end.
Proof.
  destruct (sendQueuedMessages_drained fuel st) as (o & Ho & _ & Hq & _ & Ht & Hk).
  exists o. split; [done|]. split.
  { eapply Forall_impl; [apply taken_allowed|]. intros q Hq'. simpl in Hq'.
    unfold allowedNow in Hq'. by apply bool_decide_eq_true in Hq'. }
  split; [done|]. split; [done|]. split; [done|].
  destruct (taken st) as [|q qs] eqn:Htaken.
  - rewrite sendQueuedMessages_unfold, Htaken in Ho.
    rewrite remaining_all, set_queuedMessages_same in Ho by done. congruence.
  - rewrite Hq. pose proof (length_taken_remaining st) as Hlen.
    rewrite Htaken in Hlen. simpl in Hlen. lia.
Qed.

Lemma sync_complete_count_prefix t1 t2 :
  t1 `prefix_of` t2 → sync_complete_count t1 ≤ sync_complete_count t2.
Proof.
  intros [k ->]. unfold sync_complete_count.
  rewrite List.filter_app, length_app. lia.
Qed.

Lemma expected_log_cases :
  expected_log =
    if peerAuthoritative session then
      [LogBeginStage StageAlways;
       LogBeginStage StageLoadAssets; LogCompleteStage StageLoadAssets;
       LogBeginStage StageCreateActors; LogCompleteStage StageCreateActors;
       LogBeginStage StageSetBehaviors; LogCompleteStage StageSetBehaviors;
       LogBeginStage StageCreateAnimations; LogCompleteStage StageCreateAnimations;
       LogBeginStage StageSyncAnimations; LogCompleteStage StageSyncAnimations;
       LogCompleteStage StageAlways; ProtocolSendPayload SyncCompletePayload]
    else
      [LogBeginStage StageAlways; LogCompleteStage StageAlways;
       ProtocolSendPayload SyncCompletePayload].
Proof. unfold expected_log. by destruct (peerAuthoritative session). Qed.

Lemma sync_complete_count_expected : sync_complete_count expected_log = 1.
Proof. rewrite expected_log_cases. by destruct (peerAuthoritative session). Qed.

(** C2 (as amended).  Every run of the driver of a fresh [ClientSync] returns.
    Its driver events (stage log lines and the [sync-complete] notification)
    always form an initial segment of the fixed sequence, so the notification
    is emitted at most once.  When the run resolves, the sequence is complete:
    in a peer-authoritative session the five stages are begun and completed
    in the order of [sequence] between the two log lines of [always], each
    handler resolving between its stage's lines and each completion followed
    by a queue drain ([staged]); otherwise only [always] is begun and
    completed; in both cases [sync-complete] is emitted exactly once, right
    after [always] completes, followed by the last drain, after which no
    queued message is classified [Allow]. *)
Theorem run_stage_order queue cache :
  ∃ o, run (newClientSync queue cache) = Some o ∧
       driver_events (trace (outcome_state o)) `prefix_of` expected_log ∧
       sync_complete_count (trace (outcome_state o)) ≤ 1 ∧
       match o with
       | Resolved st' =>
           driver_events (trace st') =
             (if peerAuthoritative session then
                [LogBeginStage StageAlways;
                 LogBeginStage StageLoadAssets; LogCompleteStage StageLoadAssets;
                 LogBeginStage StageCreateActors; LogCompleteStage StageCreateActors;
                 LogBeginStage StageSetBehaviors; LogCompleteStage StageSetBehaviors;
                 LogBeginStage StageCreateAnimations;
                 LogCompleteStage StageCreateAnimations;
                 LogBeginStage StageSyncAnimations; LogCompleteStage StageSyncAnimations;
                 LogCompleteStage StageAlways; ProtocolSendPayload SyncCompletePayload]
              else
                [LogBeginStage StageAlways; LogCompleteStage StageAlways;
                 ProtocolSendPayload SyncCompletePayload]) ∧
           sync_complete_count (trace st') = 1 ∧
           taken st' = [] ∧
           ∃ st1 post,
             (if peerAuthoritative session
              then staged sequence
                     (beginStage StageAlways (newClientSync queue cache)) st1
              else st1 = beginStage StageAlways (newClientSync queue cache)) ∧
             trace st' =
               trace st1
               ++ [LogCompleteStage StageAlways; ProtocolSendPayload SyncCompletePayload]
               ++ post ∧
             Forall (fun e => is_driver_event e = false) post
       | _ => True
       end.
Proof.
  destruct (run_spec (newClientSync queue cache))
    as (o & Ho & _ & done & Hd & Hpre & Hres).
  simpl in Hd. exists o. split; [done|]. rewrite Hd.
  split; [done|]. split.
  { rewrite <- sync_complete_count_driver_events, Hd.
    rewrite <- sync_complete_count_expected. by apply sync_complete_count_prefix. }
  destruct o as [st'| |]; try done.
  destruct Hres as (-> & Htaken & Hshape). simpl in *.
  split; [rewrite Hd; apply expected_log_cases|]. split; [|done].
  by rewrite <- sync_complete_count_driver_events, Hd, sync_complete_count_expected.
Qed.

(** ** The stage sets along a run *)

Lemma replay_driver_events t :
  replay (driver_events t) = replay t.
Proof.
  unfold replay. generalize (@nil SynchronizationStage, @nil SynchronizationStage).
  induction t as [|e t IH]; intros sets; simpl; [done|].
  destruct (is_driver_event e) eqn:He; simpl; rewrite IH; [done|].
  by destruct e.
Qed.

Lemma driver_events_prefix t1 t2 :
  t1 `prefix_of` t2 → driver_events t1 `prefix_of` driver_events t2.
Proof. intros [k ->]. rewrite driver_events_app. by eexists. Qed.

Lemma prefix_is_take {A} (l1 l2 : list A) :
  l1 `prefix_of` l2 → l1 = take (length l1) l2.
Proof. intros [k ->]. by rewrite take_app_length. Qed.

Lemma replay_completed_grows t k :
  ∃ x, (replay (t ++ k)).2 = (replay t).2 ++ x.
Proof.
  rewrite replay_app. generalize (replay t). 
  induction k as [|e k IH]; intros sets; simpl.
  - exists []. by rewrite app_nil_r.
  - destruct (IH (replay_event sets e)) as [x ->].
    destruct e; simpl; try by exists x.
    exists (s :: x). by rewrite <- app_assoc.
Qed.

(** The transitions a stage may make in one step. *)
Lemma expected_log_sets n s :
  stage_status (replay (take n expected_log)) s ≠ InBoth ∧
  stage_transition
    (stage_status (replay (take n expected_log)) s)
    (stage_status (replay (take (S n) expected_log)) s).
Proof.
  rewrite expected_log_cases. destruct (peerAuthoritative session).
  - do 14 (destruct n as [|n]; [by destruct s|]). by destruct s.
  - do 4 (destruct n as [|n]; [by destruct s|]). by destruct s.
Qed.


Lemma stage_status_both sets s :
  stage_status sets s = InBoth ↔ s ∈ sets.1 ∧ s ∈ sets.2.
Proof.
  unfold stage_status.
  destruct (bool_decide (s ∈ sets.1)) eqn:H1, (bool_decide (s ∈ sets.2)) eqn:H2;
    try apply bool_decide_eq_true in H1; try apply bool_decide_eq_true in H2;
    try apply bool_decide_eq_false in H1; try apply bool_decide_eq_false in H2;
    split; try done; intros [? ?]; done.
Qed.

Lemma stage_transition_refl x : x ≠ InBoth → stage_transition x x.
Proof. by destruct x. Qed.

Lemma driver_events_snoc t e :
  driver_events (t ++ [e]) =
    driver_events t ++ (if is_driver_event e then [e] else []).
Proof. rewrite driver_events_app. simpl. by destruct (is_driver_event e). Qed.

(** C7.  Along every run of the driver of a fresh [ClientSync] the two stage
    sets are the ones the log lines describe, and at every point of the run
    (every initial segment of its trace): no stage is in both sets; one more
    event moves a stage at most from absent to in progress or from in progress
    to complete; and a stage that is complete is still complete at every later
    point. *)
Theorem stage_sets_along_run queue cache :
  ∃ o, run (newClientSync queue cache) = Some o ∧
       replay (trace (outcome_state o))
       = (inProgressStages (outcome_state o), completedStages (outcome_state o)) ∧
       ∀ p, p `prefix_of` trace (outcome_state o) →
         (∀ s, ¬ (s ∈ (replay p).1 ∧ s ∈ (replay p).2)) ∧
         (∀ e s, (p ++ [e]) `prefix_of` trace (outcome_state o) →
            stage_transition (stage_status (replay p) s)
              (stage_status (replay (p ++ [e])) s)) ∧
         (∀ q s, p `prefix_of` q → q `prefix_of` trace (outcome_state o) →
            s ∈ (replay p).2 → s ∈ (replay q).2).
Proof.
  destruct (run_spec (newClientSync queue cache))
    as (o & Ho & Hcons & done & Hd & Hpre & _).
  simpl in Hd. subst done. exists o. split; [done|].
  split; [by apply Hcons|].
  intros p Hp.
  assert (∀ p', p' `prefix_of` trace (outcome_state o) →
            replay p' = replay (take (length (driver_events p')) expected_log)) as Htake.
  { intros p' Hp'. rewrite <- replay_driver_events. f_equal.
    apply prefix_is_take. etrans; [by apply driver_events_prefix|done]. }
  split; [|split].
  - intros s Hboth. apply stage_status_both in Hboth.
    rewrite (Htake p Hp) in Hboth. by eapply expected_log_sets.
  - intros e s Hpe. rewrite (Htake p Hp).
    destruct (is_driver_event e) eqn:He.
    + rewrite (Htake _ Hpe), driver_events_snoc, He, length_app. simpl.
      rewrite Nat.add_1_r. apply expected_log_sets.
    + assert (replay (p ++ [e]) = replay p) as ->.
      { rewrite <- (replay_driver_events (p ++ [e])), driver_events_snoc, He.
        by rewrite app_nil_r, replay_driver_events. }
      rewrite (Htake p Hp). apply stage_transition_refl, expected_log_sets.
  - intros q s [k ->] _ Hs.
    destruct (replay_completed_grows p k) as [x ->]. set_solver.
Qed.


(** ** The replay of the actor tree *)

Lemma NoDup_omap_inj {A B} (f : A → option B) (l : list A) x y b :
  NoDup (omap f l) → x ∈ l → y ∈ l → f x = Some b → f y = Some b → x = y.
Proof.
  induction l as [|a l IH]; intros Hnd Hx Hy Hfx Hfy; [by apply elem_of_nil in Hx|].
  simpl in Hnd.
  assert (∀ z, z ∈ l → f z = Some b → f a = Some b → False) as Hclash.
  { intros z Hz Hfz Hfa. rewrite Hfa in Hnd. apply NoDup_cons in Hnd as [Hnotin _].
    apply Hnotin. apply list_elem_of_omap. eauto. }
  assert (NoDup (omap f l)) as Hnd'.
  { destruct (f a); [by apply NoDup_cons in Hnd as [_ ?]|done]. }
  apply elem_of_cons in Hx as [->|Hx]; apply elem_of_cons in Hy as [->|Hy]; eauto.
  - exfalso. eauto.
  - exfalso. eauto.
Qed.

Lemma tree_edges_self parent t : (parent, t) ∈ tree_edges parent t.
Proof. destruct t. simpl. apply elem_of_cons. by left. Qed.

Lemma elem_of_flat_map {A B} (f : A → list B) (l : list A) (y : B) :
  y ∈ flat_map f l ↔ ∃ x, x ∈ l ∧ y ∈ f x.
Proof.
  rewrite list_elem_of_In, in_flat_map. split; intros (x & Hx & Hy); exists x.
  - by rewrite !list_elem_of_In.
  - by rewrite <- !list_elem_of_In.
Qed.

Lemma tree_edges_children t : ∀ parent0 parent tq c,
  (parent, tq) ∈ tree_edges parent0 t → c ∈ childrenOf tq →
  (Some tq, c) ∈ tree_edges parent0 t.
Proof.
  induction t as [a kids IH] using ActorTree_forall_ind.
  intros parent0 parent tq c Htq Hc. simpl in *.
  apply elem_of_cons in Htq as [Heq|Htq].
  - injection Heq as -> ->. simpl in Hc.
    apply elem_of_cons. right. apply elem_of_flat_map.
    exists c. split; [done|]. apply tree_edges_self.
  - apply elem_of_cons. right.
    apply elem_of_flat_map in Htq as (k & Hk & Htq).
    apply elem_of_flat_map. exists k. split; [done|].
    rewrite Forall_forall in IH. eapply IH; eauto.
Qed.

Lemma forest_edges_children forest parent tq c :
  (parent, tq) ∈ forest_edges forest → c ∈ childrenOf tq →
  (Some tq, c) ∈ forest_edges forest.
Proof.
  unfold forest_edges. intros (r & Hr & Htq)%elem_of_flat_map Hc.
  apply elem_of_flat_map. exists r. split; [done|].
  by eapply tree_edges_children.
Qed.

Lemma forest_edges_root forest r : r ∈ forest → (None, r) ∈ forest_edges forest.
Proof.
  intros Hr. apply elem_of_flat_map. exists r. split; [done|]. apply tree_edges_self.
Qed.

Lemma children_started_sub t c : c ∈ children_started t → c ∈ childrenOf t.
Proof.
  unfold children_started. destruct (created (tree_actor t)) as [cr|]; [|by intros ?%elem_of_nil].
  destruct (payload (message cr)); try by intros ?%elem_of_nil. done.
Qed.

(** Two nodes of the forest with the same create message are the same node,
    with the same parent. *)
Lemma same_create_message forest p1 t1 p2 t2 m :
  distinct_create_messages forest →
  (p1, t1) ∈ forest_edges forest → (p2, t2) ∈ forest_edges forest →
  createMessage (tree_actor t1) = Some m → createMessage (tree_actor t2) = Some m →
  p1 = p2 ∧ t1 = t2.
Proof.
  intros Hnd H1 H2 Hm1 Hm2.
  assert ((p1, t1) = (p2, t2)) as Heq; [|by injection Heq].
  eapply (NoDup_omap_inj (fun pt => createMessage (tree_actor pt.2))); eauto.
Qed.

Lemma createActor_createMessage a w st :
  createActor a w st = (fun m => sendAndExpectResponse m w st) <$> createMessage a.
Proof.
  unfold createActor, createMessage. destruct (created a) as [c|]; [|done].
  by destruct (truthy _).
Qed.

(** What starting the tasks of a list of actors does to the state. *)
Lemma spawn_exact kids : ∀ st,
  let st' := fold_left (fun s child => createActorRecursive child s) kids st in
  trace st' = trace st ++ sends kids ∧
  promises st' = promises st ++ parked kids ∧
  resumed st' = resumed st ++ requeued kids.
Proof.
  induction kids as [|k kids IH]; intros st; simpl.
  - by rewrite !app_nil_r.
  - destruct (IH (createActorRecursive k st)) as (Ht & Hp & Hr).
    rewrite Ht, Hp, Hr. clear IH Ht Hp Hr.
    unfold createActorRecursive, sends, parked, requeued. simpl.
    rewrite createActor_createMessage.
    destruct (createMessage (tree_actor k)) as [m|]; simpl;
      rewrite <- ?app_assoc; done.
Qed.

Lemma resumeActor_exact t st :
  let st' := turn_state (resumeActor t st) in
  trace st' = trace st ++ sends (children_started t) ∧
  promises st' = promises st ++ parked (children_started t) ∧
  resumed st' = resumed st ++ requeued (children_started t).
Proof.
  unfold resumeActor, children_started.
  destruct (created (tree_actor t)) as [c|]; simpl; [|by rewrite !app_nil_r].
  destruct (payload (message c)); simpl; try by rewrite !app_nil_r.
  apply spawn_exact.
Qed.

Lemma deliver_actor_exact ctx m t st :
  let st' := turn_state (deliver ctx m (ExpectResponse (AwaitActor t)) st) in
  match respond m with
  | Some r =>
      trace st' = trace st ++ ReplyReceived m r :: echo r ++ sends (children_started t) ∧
      promises st' = promises st ++ parked (children_started t) ∧
      resumed st' = resumed st ++ requeued (children_started t)
  | None =>
      trace st' = trace st ++ [ReplyFailed m] ∧
      promises st' = promises st ∧ resumed st' = resumed st
  end.
Proof.
  unfold deliver, echo. destruct (respond m) as [r|]; simpl; [|done].
  set (st2 := if authoritative client then _ else _).
  destruct (resumeActor_exact t st2) as (Ht & Hp & Hr). simpl in *.
  rewrite Ht, Hp, Hr. subst st2.
  destruct (authoritative client); simpl; rewrite <- ?app_assoc; done.
Qed.


Lemma everywhere_app Q t c :
  (∀ t1 e t2 x, Q t1 e t2 → Q t1 e (t2 ++ x)) →
  everywhere Q t →
  (∀ c1 e c2, c = c1 ++ e :: c2 → Q (t ++ c1) e c2) →
  everywhere Q (t ++ c).
Proof.
  intros Hmono Ht Hc t1 e t2 Heq.
  apply app_eq_inv in Heq as [(k & -> & Hk)|(k & -> & ->)].
  - destruct k as [|e' k]; simpl in Hk.
    + specialize (Hc [] e t2). rewrite !app_nil_r in Hc. by apply Hc.
    + injection Hk as <- ->. apply Hmono. by apply Ht.
  - by apply Hc.
Qed.

Lemma actor_event_ok_mono forest t1 e t2 x :
  actor_event_ok forest t1 e t2 → actor_event_ok forest t1 e (t2 ++ x).
Proof.
  intros [H1 H2]. split; [done|].
  intros par tp mp r He Hin Hm. by apply prefix_app_r, (H2 par tp mp r).
Qed.

(** The create messages sent when the tasks of the children of [parent]
    start are in order, provided the reply to the parent's own create message
    was received. *)
Lemma sends_ok forest parent kids t c1 e c2 :
  distinct_create_messages forest →
  (∀ c, c ∈ kids → (parent, c) ∈ forest_edges forest) →
  (∀ tp c, parent = Some tp → c ∈ kids → c ∈ children_started tp) →
  (∀ tp mp, parent = Some tp → createMessage (tree_actor tp) = Some mp →
            ∃ r, ReplyReceived mp r ∈ t) →
  sends kids = c1 ++ e :: c2 →
  actor_event_ok forest (t ++ c1) e c2.
Proof.
  intros Hnd Hkids Hstarted Hreplied Heq.
  assert (e ∈ sends kids) as He.
  { rewrite Heq. apply elem_of_app. right. apply elem_of_cons. by left. }
  apply list_elem_of_omap in He as (c & Hc & He).
  destruct (createMessage (tree_actor c)) as [mc|] eqn:Hmc; [|done].
  simpl in He. injection He as <-.
  split.
  - intros tp ta ma b [= <- <-] Hin Hma.
    destruct (same_create_message forest (Some tp) ta parent c mc) as [Hpar ->];
      try done; [by apply Hkids|].
    split; [by apply Hstarted|].
    intros mp Hmp. destruct (Hreplied tp mp) as [r Hr]; try done.
    exists r. apply elem_of_app. by left.
  - intros par tp mp r [=].
Qed.

Lemma reply_chunk_ok forest parent tq m r t c1 e c2 :
  distinct_create_messages forest →
  (parent, tq) ∈ forest_edges forest →
  createMessage (tree_actor tq) = Some m →
  ReplyReceived m r :: echo r ++ sends (children_started tq) = c1 ++ e :: c2 →
  actor_event_ok forest (t ++ c1) e c2.
Proof.
  intros Hnd Htq Hm Heq. destruct c1 as [|x c1]; simpl in Heq.
  - injection Heq as <- <-. split; [by intros tp ta ma b [=]|].
    intros par tp mp r' [= <- <-] Hin Hmp.
    by destruct (same_create_message forest par tp parent tq m) as [_ ->].
  - injection Heq as <- Heq.
    apply app_eq_inv in Heq as [(k & Hk1 & Hk2)|(k & -> & Hk)].
    + symmetry in Hk2. destruct k as [|e' k]; simpl in Hk2.
      * rewrite app_nil_r in Hk1. subst c1.
        replace (t ++ ReplyReceived m r :: echo r)
          with ((t ++ ReplyReceived m r :: echo r) ++ []) by apply app_nil_r.
        eapply (sends_ok forest (Some tq)); try done.
        -- intros c Hc%children_started_sub. by eapply forest_edges_children.
        -- by intros tp c [= <-].
        -- intros tp mp [= <-] Hmp. exists r. apply elem_of_app. right.
           apply elem_of_cons. left. congruence.
      * assert (e ∈ echo r) as He.
        { rewrite Hk1. apply elem_of_app. right.
          injection Hk2 as <- _. apply elem_of_cons. by left. }
        unfold echo in He. destruct (authoritative client);
          [apply list_elem_of_singleton in He as ->|by apply elem_of_nil in He].
        split; [by intros tp ta ma b [=]|by intros par tp mp r' [=]].
    + replace (t ++ ReplyReceived m r :: echo r ++ k)
        with ((t ++ ReplyReceived m r :: echo r) ++ k)
        by (by rewrite <- app_assoc).
      eapply (sends_ok forest (Some tq)); try done.
      * intros c Hc%children_started_sub. by eapply forest_edges_children.
      * by intros tp c [= <-].
      * intros tp mp [= <-] Hmp. exists r. apply elem_of_app. right.
        apply elem_of_cons. left. congruence.
Qed.

(** One turn of the event loop keeps the invariant: the state gains the
    events of [chunk] and the tasks of [kids], all children of one node (or
    all roots). *)
Lemma actors_inv_step forest T0 t st st' chunk parent kids :
  actors_inv forest T0 t st →
  trace st' = trace st ++ chunk →
  (∀ x, x ∈ promises st' → x ∈ promises st ∨ x ∈ parked kids) →
  (∀ x, x ∈ resumed st' → x ∈ resumed st ∨ x ∈ requeued kids) →
  (∀ c, c ∈ kids → (parent, c) ∈ forest_edges forest) →
  (∀ c1 e c2, chunk = c1 ++ e :: c2 → actor_event_ok forest (t ++ c1) e c2) →
  actors_inv forest T0 (t ++ chunk) st'.
Proof.
  intros (Ht & Hev & Hprom & Hres) Ht' Hp' Hr' Hkids Hchunk.
  split; [by rewrite Ht', Ht, app_assoc|]. split; [|split].
  - apply everywhere_app; try done. intros. by apply actor_event_ok_mono.
  - intros m k [Hin|Hin]%Hp'; [by apply Hprom|].
    apply list_elem_of_omap in Hin as (c & Hc & Hin).
    destruct (createMessage (tree_actor c)) as [mc|] eqn:Hmc; [|done].
    injection Hin as <- <-. exists parent, c. eauto.
  - intros tq [Hin|Hin]%Hr'; [by apply Hres|].
    apply list_elem_of_omap in Hin as (c & Hc & Hin).
    destruct (createMessage (tree_actor c)) as [mc|] eqn:Hmc; [done|].
    injection Hin as <-. eauto.
Qed.

Lemma actors_inv_awaitReplies forest T0 :
  distinct_create_messages forest →
  ∀ fuel ctx stuck st o t,
    actors_inv forest T0 t st →
    awaitReplies fuel ctx stuck st = Some o →
    ∃ t', actors_inv forest T0 t' (outcome_state o).
Proof.
  intros Hnd. induction fuel as [|fuel IH]; intros ctx stuck st o t Hinv; simpl.
  - destruct (resumed st); [|done].
    destruct (pick _ _) as [[[m k] rest]|]; [done|].
    intros [= <-]. exists t. by destruct stuck.
  - destruct (resumed st) as [|tq rest] eqn:Hr.
    + destruct (pick _ _) as [[[m k] rest]|] eqn:Hpick;
        [|intros [= <-]; exists t; by destruct stuck].
      apply pick_Some in Hpick.
      pose proof Hinv as (Ht & Hev & Hprom & Hres).
      destruct (Hprom m k) as (par & tq & -> & Htq & Hm).
      { rewrite Hpick. apply elem_of_cons. by left. }
      pose proof (deliver_actor_exact ctx m tq (set_promises rest st)) as Hex.
      assert (∃ chunk,
                actors_inv forest T0 (t ++ chunk)
                  (turn_state (deliver ctx m (ExpectResponse (AwaitActor tq))
                                 (set_promises rest st)))) as (chunk & Hinv').
      { simpl in Hex. destruct (respond m) as [r|].
        - destruct Hex as (Ht' & Hp' & Hr').
          eexists.
          eapply (actors_inv_step forest T0 t st _ _ (Some tq)
                    (children_started tq)); try done.
          + simpl in Hp'. rewrite Hp'. intros x [Hx|Hx]%elem_of_app; [left|by right].
            rewrite Hpick. apply elem_of_cons. by right.
          + simpl in Hr'. rewrite Hr'. intros x [Hx|Hx]%elem_of_app; eauto.
          + intros c Hc%children_started_sub. by eapply forest_edges_children.
          + intros c1 e c2 Heq. by eapply reply_chunk_ok.
        - destruct Hex as (Ht' & Hp' & Hr').
          exists [ReplyFailed m].
          eapply (actors_inv_step forest T0 t st _ _ None []); try done.
          + simpl in Hp'. rewrite Hp'. intros x Hx. left.
            rewrite Hpick. apply elem_of_cons. by right.
          + simpl in Hr'. rewrite Hr'. eauto.
          + by intros c ?%elem_of_nil.
          + intros [|x c1] e c2 Heq; [|by destruct c1].
            injection Heq as <- <-.
            split; [by intros tp ta ma b [=]|by intros par' tp mp r' [=]]. }
      destruct (deliver _ _ _ _) as [st'|st'|st']; simpl in Hinv'.
      * intros H. by eapply IH.
      * intros H. by eapply IH.
      * intros [= <-]. eauto.
    + pose proof Hinv as (Ht & Hev & Hprom & Hres).
      destruct (Hres tq) as ([par Htq] & Hm).
      { rewrite Hr. apply elem_of_cons. by left. }
      pose proof (resumeActor_exact tq (set_resumed rest st)) as (Ht' & Hp' & Hr').
      assert (actors_inv forest T0 (t ++ sends (children_started tq))
                (turn_state (resumeActor tq (set_resumed rest st)))) as Hinv'.
      { eapply (actors_inv_step forest T0 t st _ _ (Some tq)
                  (children_started tq)); try done.
        - rewrite Hp'. simpl. intros x [Hx|Hx]%elem_of_app; eauto.
        - rewrite Hr'. simpl. intros x [Hx|Hx]%elem_of_app; [left|by right].
          rewrite Hr. apply elem_of_cons. by right.
        - intros c Hc%children_started_sub. by eapply forest_edges_children.
        - intros c1 e c2 Heq. eapply (sends_ok forest (Some tq)); try done.
          + intros c Hc%children_started_sub. by eapply forest_edges_children.
          + by intros tp c [= <-].
          + intros tp mp [= <-] Hmp. congruence. }
      destruct (resumeActor _ _) as [st'|st'|st']; simpl in Hinv'.
      * intros H. by eapply IH.
      * intros H. by eapply IH.
      * intros [= <-]. eauto.
Qed.


(** A parent of the cached forest is one of its nodes. *)
Lemma tree_edges_parent t : ∀ parent0 tp ta,
  (Some tp, ta) ∈ tree_edges parent0 t →
  (parent0 = Some tp ∧ ta = t) ∨ ∃ par, (par, tp) ∈ tree_edges parent0 t.
Proof.
  induction t as [a kids IH] using ActorTree_forall_ind. intros parent0 tp ta.
  simpl. intros [[= <- <-]|Hin]%elem_of_cons; [by left|]. right.
  apply elem_of_flat_map in Hin as (k & Hk & Hin).
  rewrite Forall_forall in IH.
  destruct (IH k Hk _ _ _ Hin) as [[[= <-] ->]|[par Hpar]].
  - exists parent0. apply elem_of_cons. by left.
  - exists par. apply elem_of_cons. right. apply elem_of_flat_map. by exists k.
Qed.

Lemma forest_edges_parent forest tp ta :
  (Some tp, ta) ∈ forest_edges forest → ∃ par, (par, tp) ∈ forest_edges forest.
Proof.
  unfold forest_edges. intros (r & Hr & Hin)%elem_of_flat_map.
  destruct (tree_edges_parent _ _ _ _ Hin) as [[[=] _]|[par Hpar]].
  exists par. apply elem_of_flat_map. by exists r.
Qed.

Lemma typed_createMessage forest par t c :
  typed_create_messages forest →
  (par, t) ∈ forest_edges forest →
  created (tree_actor t) = Some c →
  createMessage (tree_actor t) = Some (message c).
Proof.
  intros Htyped Hin Hc. unfold typed_create_messages in Htyped.
  rewrite Forall_forall in Htyped. unfold createMessage. rewrite Hc.
  by rewrite (Htyped _ Hin c Hc).
Qed.

(** C3.  ['stage:create-actors'] returns, and in the trace of the stage: the
    create messages of the root actors come first, all of them before any
    reply is received; wherever the create message of a cached actor with a
    parent is sent, the parent has a create message of its own and the reply
    to it was received before (so below an actor without a create message
    nothing is ever created); and the reply to an actor's create message is
    followed at once (after the echo to the application, if any) by the
    create messages of all its children, before any further reply is
    received.  This holds for every order in which replies arrive and every
    pattern of failed replies.  The cached create messages are typed
    ([Message<CreateActorCommon>]), and cached actors are told apart by
    their create messages. *)
Theorem create_actors_parent_first st0 :
  promises st0 = [] → resumed st0 = [] →
  distinct_create_messages (rootActors session) →
  typed_create_messages (rootActors session) →
  ∃ o t, stage_create_actors st0 = Some o ∧
         trace (outcome_state o) = trace st0 ++ t ∧
         sends (rootActors session) `prefix_of` t ∧
         waits (rootActors session) t ∧
         fans_out (rootActors session) t.
Proof.
  intros Hp0 Hr0 Hnd Htyped. unfold stage_create_actors.
  set (st1 := fold_left _ (rootActors session) st0).
  destruct (spawn_exact (rootActors session) st0) as (Ht1 & Hp1 & Hr1).
  fold st1 in Ht1, Hp1, Hr1. simpl in Ht1, Hp1, Hr1.
  assert (actors_inv (rootActors session) (trace st0)
            ([] ++ sends (rootActors session)) st1) as Hinv.
  { eapply (actors_inv_step _ _ [] st0 _ _ None (rootActors session)).
    - split; [by rewrite app_nil_r|]. split; [by intros [|] ? ? ?|].
      rewrite Hp0, Hr0. split; [by intros m k ?%elem_of_nil|by intros tq ?%elem_of_nil].
    - done.
    - rewrite Hp1, Hp0. by right.
    - rewrite Hr1, Hr0. by right.
    - apply forest_edges_root.
    - intros c1 e c2 Heq.
      eapply (sends_ok _ None (rootActors session) []); try done.
      apply forest_edges_root. }
  destruct (awaitAll_returns AwaitStage st1) as [o Ho]. rewrite Ho.
  destruct (actors_inv_awaitReplies _ _ Hnd _ _ _ _ _ _ Hinv Ho)
    as (t & Ht & Hev & _).
  exists o, t. split; [done|]. split; [done|]. split; [|split].
  - destruct (quiet_awaitAll _ _ _ Ho) as (_ & _ & x & Hx & _).
    exists x. rewrite Hx, Ht1, <- app_assoc in Ht. by apply app_inv_head in Ht.
  - intros tp ta ca b t1 t2 Hin Hca Heq.
    destruct (Hev t1 _ t2 Heq) as [Hsend _].
    destruct (Hsend tp ta (message ca) b eq_refl Hin) as [Hstarted Hreplied].
    { by eapply typed_createMessage. }
    assert (∃ cp, created (tree_actor tp) = Some cp) as [cp Hcp].
    { unfold children_started in Hstarted.
      destruct (created (tree_actor tp)) as [cp|]; [by exists cp|].
      by apply elem_of_nil in Hstarted. }
    destruct (forest_edges_parent _ _ _ Hin) as [par Hpar].
    destruct (Hreplied (message cp)) as [r Hr]; [by eapply typed_createMessage|].
    by exists cp, r.
  - intros par tp mp r t1 t2 Hin Hmp Heq.
    destruct (Hev t1 _ t2 Heq) as [_ Hreply]. by eapply Hreply.
Qed.

(** ** The animation reconciler *)

Lemma awaitReplies_unfold fuel ctx stuck st :
  awaitReplies fuel ctx stuck st =
    match resumed st with
    | t :: rest =>
        match fuel with
        | 0 => None
        | S fuel' =>
            match resumeActor t (set_resumed rest st) with
            | Continue st' => awaitReplies fuel' ctx stuck st'
            | Stuck st' => awaitReplies fuel' ctx true st'
            | Throw st' => Some (Rejected st')
            end
        end
    | [] =>
        match pick (sched (promises st)) (promises st) with
        | None => Some (if stuck then Hung st else Resolved st)
        | Some ((m, k), rest) =>
            match fuel with
            | 0 => None
            | S fuel' =>
                match deliver ctx m k (set_promises rest st) with
                | Continue st' => awaitReplies fuel' ctx stuck st'
                | Stuck st' => awaitReplies fuel' ctx true st'
                | Throw st' => Some (Rejected st')
                end
            end
        end
    end.
Proof. by destruct fuel. Qed.

Lemma pick_singleton {A} i (x : A) : pick i [x] = Some (x, []).
Proof. unfold pick. simpl length. by rewrite Nat.mod_1_r. Qed.

Lemma promises_grow_resumeActor t st x :
  x ∈ promises st → x ∈ promises (turn_state (resumeActor t st)).
Proof.
  intros Hx. destruct (resumeActor_exact t st) as (_ & -> & _).
  apply elem_of_app. by left.
Qed.

Lemma promises_grow_deliver ctx m k st x :
  x ∈ promises st → x ∈ promises (turn_state (deliver ctx m k st)).
Proof.
  intros Hx. destruct k as [[|t|]|p|].
  - unfold deliver. destruct (respond m); [|done]. simpl.
    by destruct (authoritative client).
  - pose proof (deliver_actor_exact ctx m t st) as Hex. simpl in Hex.
    destruct (respond m); destruct Hex as (_ & -> & _); [|done].
    apply elem_of_app. by left.
  - unfold deliver. destruct (respond m); simpl.
    + by destruct (authoritative client).
    + by destruct ctx.
  - unfold deliver. destruct (respond m); simpl; [done|]. by destruct ctx.
  - unfold deliver. destruct (respond m) as [r|]; simpl; [|done].
    by destruct (payload r) as [|[l|]| | | |].
Qed.

Lemma animations_forwarded_app reply forwarded t x :
  animations_forwarded reply forwarded t →
  animations_forwarded reply forwarded (t ++ x).
Proof.
  intros (t1 & t2 & ->). exists t1, (t2 ++ x). by rewrite <- app_assoc.
Qed.

(** Once the request is outstanding, a wait that does not reject has handled
    its reply. *)
Lemma sync_reply_awaitReplies reply animationStates T0 :
  respond syncAnimationsRequest = Some reply →
  payload reply = SyncAnimationsPayload (Some animationStates) →
  ∀ fuel ctx stuck st o,
    (∃ t, trace st = T0 ++ t ∧
          ((syncAnimationsRequest, SyncAnimationsReply) ∈ promises st ∨
           animations_forwarded reply (map adjustAnimationState animationStates) t)) →
    awaitReplies fuel ctx stuck st = Some o →
    match o with
    | Rejected _ => True
    | Resolved st' | Hung st' =>
        ∃ t, trace st' = T0 ++ t ∧
             animations_forwarded reply (map adjustAnimationState animationStates) t
    end.
Proof.
  intros Hreply Hpayload.
  assert (∀ st st' t,
            (∃ x, trace st' = trace st ++ x) →
            (∀ x, x ∈ promises st → x ∈ promises st') →
            trace st = T0 ++ t →
            (syncAnimationsRequest, SyncAnimationsReply) ∈ promises st ∨
            animations_forwarded reply (map adjustAnimationState animationStates) t →
            ∃ t', trace st' = T0 ++ t' ∧
              ((syncAnimationsRequest, SyncAnimationsReply) ∈ promises st' ∨
               animations_forwarded reply
                 (map adjustAnimationState animationStates) t')) as Hkeep.
  { intros st st' t [x Hx] Hgrow Ht [Hin|Hfw]; exists (t ++ x);
      (split; [by rewrite Hx, Ht, app_assoc|]).
    - left. by apply Hgrow.
    - right. by apply animations_forwarded_app. }
  assert (∀ st t,
            promises st = [] → trace st = T0 ++ t →
            (syncAnimationsRequest, SyncAnimationsReply) ∈ promises st ∨
            animations_forwarded reply (map adjustAnimationState animationStates) t →
            ∃ t', trace st = T0 ++ t' ∧
              animations_forwarded reply
                (map adjustAnimationState animationStates) t') as Hend.
  { intros st t Hnil Ht [Hin|Hfw]; [|by eauto].
    rewrite Hnil in Hin. by apply elem_of_nil in Hin. }
  induction fuel as [|fuel IH]; intros ctx stuck st o (t & Ht & Hj);
    rewrite awaitReplies_unfold.
  - destruct (resumed st); [|done].
    destruct (pick _ _) as [[[m k] rest]|] eqn:Hpick; [done|].
    apply pick_None in Hpick. intros [= <-]. destruct stuck; by apply (Hend st t).
  - destruct (resumed st) as [|tq rest] eqn:Hr.
    + destruct (pick _ _) as [[[m k] rest]|] eqn:Hpick.
      * apply pick_Some in Hpick.
        assert (∃ t', trace (turn_state (deliver ctx m k (set_promises rest st)))
                      = T0 ++ t' ∧
                  ((syncAnimationsRequest, SyncAnimationsReply)
                     ∈ promises (turn_state (deliver ctx m k (set_promises rest st))) ∨
                   animations_forwarded reply
                     (map adjustAnimationState animationStates) t')) as Hj'.
        { destruct Hj as [Hin|Hfw].
          - rewrite Hpick in Hin. apply elem_of_cons in Hin as [Heq|Hin].
            + injection Heq as <- <-. unfold deliver. rewrite Hreply, Hpayload.
              simpl. eexists. split; [by rewrite Ht, <- !app_assoc|].
              right. by exists t, [].
            + eapply (Hkeep (set_promises rest st)); try done.
              * destruct (quiet_deliver ctx m k (set_promises rest st))
                  as (_ & _ & x & Hx & _). by exists x.
              * intros. by apply promises_grow_deliver.
              * by left.
          - eapply (Hkeep (set_promises rest st)); try done.
            + destruct (quiet_deliver ctx m k (set_promises rest st))
                as (_ & _ & x & Hx & _). by exists x.
            + intros. by apply promises_grow_deliver.
            + by right. }
        destruct (deliver _ _ _ _) as [st'|st'|st']; simpl in Hj'.
        -- by apply IH.
        -- by apply IH.
        -- by intros [= <-].
      * apply pick_None in Hpick. intros [= <-]. destruct stuck; by apply (Hend st t).
    + assert (∃ t', trace (turn_state (resumeActor tq (set_resumed rest st)))
                    = T0 ++ t' ∧
                ((syncAnimationsRequest, SyncAnimationsReply)
                   ∈ promises (turn_state (resumeActor tq (set_resumed rest st))) ∨
                 animations_forwarded reply
                   (map adjustAnimationState animationStates) t')) as Hj'.
      { eapply (Hkeep (set_resumed rest st)); try done.
        - destruct (quiet_resumeActor tq (set_resumed rest st))
            as (_ & _ & x & Hx & _). by exists x.
        - intros. by apply promises_grow_resumeActor. }
      destruct (resumeActor _ _) as [st'|st'|st']; simpl in Hj'.
      * by apply IH.
      * by apply IH.
      * by intros [= <-].
Qed.

(** C4.  The stage is entered with no reply outstanding, by a client that is
    not the authoritative one, while the router lets [sync-animations]
    payloads through (the stage is in progress), and the authoritative client
    answers the request with animation states.  Then the stage resolves, and
    what it does is exactly: send the request on the authoritative client's
    connection, receive the answer, and forward to this client one payload
    that holds, for every sample of the answer and in the same order, the
    sample with its time increased by the authoritative client's latency
    over 2000 and then by this client's latency over 2000 (in the
    floating-point arithmetic of the source) and nothing else changed.  With
    latencies of 100 ms and 60 ms a sample at 10.000 s is forwarded at
    10.080 s. *)
Theorem sync_animations_adjusts_time st0 reply animationStates :
  promises st0 = [] → resumed st0 = [] →
  (∀ l, handlingForMessage st0 (messageOf (SyncAnimationsPayload l)) = Allow) →
  Nat.eqb (order (authoritativeClient session)) (order client) = false →
  respond syncAnimationsRequest = Some reply →
  payload reply = SyncAnimationsPayload (Some animationStates) →
  (∃ st' forwarded,
     stage_sync_animations st0 = Some (Resolved st') ∧
     trace st' =
       trace st0 ++
       [ClientSendPayload (authoritativeClient session) (SyncAnimationsPayload None);
        ReplyReceived syncAnimationsRequest reply;
        ProtocolSendPayload (SyncAnimationsPayload (Some forwarded))] ∧
     Forall2
       (fun a a' =>
          time (state a') =
            (time (state a) + latencyMs (authoritativeClient session) / 2000
             + latencyMs client / 2000)%float ∧
          animationId a' = animationId a ∧
          stateRest (state a') = stateRest (state a))
       animationStates forwarded ∧
     promises st' = [] ∧
     queuedMessages st' = queuedMessages st0) ∧
  (∀ a, latencyMs (authoritativeClient session) = 100%float →
        latencyMs client = 60%float →
        time (state a) = 10%float →
        time (state (adjustAnimationState a)) = 10.08%float).
Proof.
  intros Hp Hr _ Horder Hreply Hpayload. split.
  - unfold stage_sync_animations. rewrite Horder.
    unfold awaitAll, weight, Client_sendPayload. simpl. rewrite Hp, Hr. simpl.
    rewrite Hr. unfold deliver. fold syncAnimationsRequest. rewrite Hreply. simpl.
    rewrite Hpayload. simpl. rewrite Hr. simpl.
    eexists _, (map adjustAnimationState animationStates).
    split; [reflexivity|]. simpl. split; [by rewrite <- !app_assoc|].
    split; [|done].
    clear. induction animationStates as [|a l IH]; simpl; constructor; done.
  - intros a Hauth Hjoin Htime. unfold adjustAnimationState. simpl.
    by rewrite Hauth, Hjoin, Htime.
Qed.

(** ** No reply is outstanding when a stage is entered *)

Lemma awaitReplies_settled fuel ctx stuck st st' :
  awaitReplies fuel ctx stuck st = Some (Resolved st') →
  promises st' = [] ∧ resumed st' = [].
Proof.
  revert stuck st. induction fuel as [|fuel IH]; intros stuck st;
    rewrite awaitReplies_unfold.
  - destruct (resumed st) eqn:Hr; [|done].
    destruct (pick _ _) as [[[m k] rest]|] eqn:Hpick; [done|].
    apply pick_None in Hpick. destruct stuck; [done|]. by intros [= <-].
  - destruct (resumed st) as [|tq rest] eqn:Hr.
    + destruct (pick _ _) as [[[m k] rest]|] eqn:Hpick.
      * destruct (deliver _ _ _ _); try done; apply IH.
      * apply pick_None in Hpick. destruct stuck; [done|]. by intros [= <-].
    + destruct (resumeActor _ _); try done; apply IH.
Qed.

Lemma sendMessage_no_promise m st :
  promises (sendMessage m None st) = promises st ∧
  resumed (sendMessage m None st) = resumed st.
Proof. unfold sendMessage. by destruct (handlingForMessage st m). Qed.

Lemma load_assets_settled st st' :
  stage_load_assets st = Some (Resolved st') →
  promises st' = [] ∧ resumed st' = [].
Proof.
  unfold stage_load_assets.
  destruct (awaitAll _ _) as [[st1|st1|st1]|] eqn:Hwait; try done.
  apply awaitReplies_settled in Hwait as [Hp Hr]. intros [= <-].
  revert st1 Hp Hr. induction (assetUpdates session) as [|p l IH]; intros st1 Hp Hr;
    simpl; [done|].
  destruct (sendMessage_no_promise (messageOf p) st1) as [Hp1 Hr1].
  apply IH; congruence.
Qed.

Lemma sendAllQueuedMessages_settled st st' :
  promises st = [] → resumed st = [] →
  sendAllQueuedMessages st = Some (Resolved st') →
  promises st' = [] ∧ resumed st' = [].
Proof.
  intros Hp Hr. unfold sendAllQueuedMessages.
  rewrite sendQueuedMessages_unfold.
  destruct (taken st) as [|q qs] eqn:Htaken; [by intros [= <-]|].
  rewrite <- Htaken. unfold drainPromises.
  destruct (awaitAll _ _) as [[st3|st3|st3]|] eqn:Hwait; try done.
  pose proof (quiet_awaitAll _ _ _ Hwait) as (Hp3 & Hc3 & _).
  pose proof (same_awaitReplies _ _ _ _ _ Hwait) as [Hq3 _].
  apply awaitReplies_settled in Hwait as [Hp' Hr'].
  destruct (resend_allowed (taken st) (set_queuedMessages (remaining st) st))
    as (Hq2 & _ & Hp2 & Hc2 & _).
  { eapply Forall_impl; [apply taken_allowed|]. intros q' Hq'. simpl in Hq'.
    by rewrite (allowedNow_ext st (set_queuedMessages (remaining st) st)). }
  simpl in *.
  destruct (taken_nil_after st st3) as [Hnil _]; [congruence..|].
  rewrite sendQueuedMessages_unfold, Hnil. by intros [= <-].
Qed.

(** In a run of a fresh [ClientSync], ['stage:create-actors'] starts with no
    reply outstanding and no task runnable. *)
Lemma create_actors_entered_settled queue cache st1 st2 :
  executeStage StageLoadAssets
    (beginStage StageLoadAssets (beginStage StageAlways (newClientSync queue cache)))
  = Some (Resolved st1) →
  sendAllQueuedMessages (completeStage StageLoadAssets st1) = Some (Resolved st2) →
  promises (beginStage StageCreateActors st2) = [] ∧
  resumed (beginStage StageCreateActors st2) = [].
Proof.
  simpl. intros [Hp Hr]%load_assets_settled Hdrain.
  by apply sendAllQueuedMessages_settled in Hdrain.
Qed.

(** ** Sends that expect a reply *)

(** C8 (as amended).  A message classified [Ignore] is dropped: it is neither
    handed to the transport nor queued, and its reply continuation, if any, is
    neither resolved nor kept: the state, trace included, is unchanged. *)
Theorem sendMessage_ignore st m promise :
  handlingForMessage st m = Ignore → sendMessage m promise st = st.
Proof. intros H. unfold sendMessage. by rewrite H. Qed.

(** C9 (as amended).  The callbacks installed by [sendAndExpectResponse] (the
    replay of cached messages) echo the reply on the session connection
    exactly when the client is flagged authoritative as the reply arrives,
    before the awaiting task goes on.  A message forwarded by the router
    carries its caller's continuation instead: the reply resolves it and is
    not echoed. *)
Theorem reply_echo ctx st m reply :
  respond m = Some reply →
  (∀ w, promises (sendAndExpectResponse m w st)
        = promises st ++ [(m, ExpectResponse w)]) ∧
  (∀ w, ∃ t,
     trace (turn_state (deliver ctx m (ExpectResponse w) st)) =
       trace st ++ ReplyReceived m reply
       :: (if authoritative client then [SessionConnSend reply] else []) ++ t ∧
     Forall (fun e => ∃ m' b, e = ProtocolSendMessage m' b) t) ∧
  (∀ p, handlingForMessage st m = Allow →
     promises (sendMessage m (Some p) st) = promises st ++ [(m, CallerPromise p)] ∧
     deliver ctx m (CallerPromise p) st =
       Continue (addEvent (PromiseResolved p reply)
                   (addEvent (ReplyReceived m reply) st))).
Proof.
  intros Hreply. split; [done|]. split.
  - intros w. destruct w as [|t|].
    + exists []. unfold deliver. rewrite Hreply. simpl.
      destruct (authoritative client); simpl; by rewrite <- ?app_assoc.
    + pose proof (deliver_actor_exact ctx m t st) as Hex. simpl in Hex.
      rewrite Hreply in Hex. destruct Hex as (Ht & _).
      exists (sends (children_started t)). split; [done|].
      apply Forall_forall. intros e (c & _ & He)%list_elem_of_omap.
      destruct (createMessage (tree_actor c)); [|done]. injection He as <-. eauto.
    + exists []. unfold deliver. rewrite Hreply. simpl.
      destruct (authoritative client); simpl; by rewrite <- ?app_assoc.
  - intros p Hallow. split.
    + unfold sendMessage. by rewrite Hallow.
    + unfold deliver. by rewrite Hreply.
Qed.

(** ** The replay of interpolations *)

Lemma forwardInterpolation_exact st l :
  let st' := forwardInterpolation st l in
  (∀ l' o, objects st !! l' = Some o → objects st' !! l' = Some o) ∧
  queuedMessages st' = queuedMessages st ∧
  promises st' = promises st ∧
  trace st' =
    trace st ++
    match objects st !! l with
    | Some o => [ProtocolSendPayload (InterpolateActorPayload (<["enabled" := VBool false]> o))]
    | None => []
    end.
Proof.
  unfold forwardInterpolation. destruct (objects st !! l) as [o|] eqn:Hl; simpl.
  - repeat split; try done. intros l' o' Hl'.
    rewrite lookup_insert_ne; [done|]. intros <-.
    pose proof (is_fresh (dom (objects st))) as Hfresh.
    apply Hfresh. apply elem_of_dom. eauto.
  - by rewrite app_nil_r.
Qed.

Lemma forwardInterpolations_exact ls : ∀ st,
  let st' := fold_left forwardInterpolation ls st in
  (∀ l' o, objects st !! l' = Some o → objects st' !! l' = Some o) ∧
  queuedMessages st' = queuedMessages st ∧
  promises st' = promises st ∧
  (∃ t, trace st' = trace st ++ t ∧
        Forall (fun e => ∃ o, e = ProtocolSendPayload
                                    (InterpolateActorPayload
                                       (<["enabled" := VBool false]> o))) t) ∧
  (Forall (fun l => is_Some (objects st !! l)) ls →
   trace st' =
     trace st ++
     map (fun o => ProtocolSendPayload
                     (InterpolateActorPayload (<["enabled" := VBool false]> o)))
       (omap (fun l => objects st !! l) ls)).
Proof.
  induction ls as [|l ls IH]; intros st; simpl.
  - rewrite app_nil_r. repeat split; try done. exists []. by rewrite app_nil_r.
  - destruct (IH (forwardInterpolation st l)) as (Hobj & Hq & Hp & (t & Ht & Hall) & Hex).
    destruct (forwardInterpolation_exact st l) as (Hobj1 & Hq1 & Hp1 & Ht1).
    simpl in *. split; [by eauto|]. split; [congruence|]. split; [congruence|].
    split.
    + eexists. split; [by rewrite Ht, Ht1, <- app_assoc|].
      apply Forall_app. split; [|done].
      destruct (objects st !! l) as [o|]; repeat constructor. by exists o.
    + intros [Hl Hls]%Forall_cons. rewrite Hex.
      * rewrite Ht1, <- app_assoc. f_equal.
        assert (omap (fun l0 => objects (forwardInterpolation st l) !! l0) ls
                = omap (fun l0 => objects st !! l0) ls) as ->.
        { clear -Hobj1 Hls. induction Hls as [|l' ls' [o' Hl'] _ IH']; simpl; [done|].
          rewrite (Hobj1 _ _ Hl'), Hl'. f_equal. exact IH'. }
        by destruct (objects st !! l).
      * eapply Forall_impl; [exact Hls|]. intros l' [o' Hl']. simpl. eauto.
Qed.


Lemma createActorAnimations_exact a st :
  let st' := createActorAnimations a st in
  objects st' = objects st ∧
  promises st' =
    promises st ++
    map (fun ca => (animation_message ca, ExpectResponse AwaitNothing))
      (default [] (createdAnimations a)) ∧
  trace st' =
    trace st ++
    map (fun ca => ProtocolSendMessage (animation_message ca) true)
      (default [] (createdAnimations a)).
Proof.
  unfold createActorAnimations. generalize (default [] (createdAnimations a)).
  intros l. revert st. induction l as [|ca l IH]; intros st; simpl.
  - by rewrite !app_nil_r.
  - destruct (IH (sendAndExpectResponse (animation_message ca) AwaitNothing st))
      as (Ho & Hp & Ht).
    rewrite Ho, Hp, Ht. simpl. by rewrite <- !app_assoc.
Qed.

Lemma interpolations_pass actors0 : ∀ st,
  let st' :=
    fold_left (fun s syncActor => createActorInterpolations syncActor s) actors0 st in
  (∀ l o, objects st !! l = Some o → objects st' !! l = Some o) ∧
  promises st' = promises st ∧
  ∃ t, trace st' = trace st ++ t ∧
       Forall (fun e => ∃ o, e = ProtocolSendPayload
                                   (InterpolateActorPayload
                                      (<["enabled" := VBool false]> o))) t.
Proof.
  induction actors0 as [|a l IH]; intros st; simpl.
  - repeat split; try done. exists []. by rewrite app_nil_r.
  - destruct (IH (createActorInterpolations a st)) as (Ho & Hp & t & Ht & Hall).
    destruct (forwardInterpolations_exact (default [] (activeInterpolations a)) st)
      as (Ho1 & _ & Hp1 & (t1 & Ht1 & Hall1) & _).
    fold (createActorInterpolations a st) in Ho1, Hp1, Ht1.
    split; [by eauto|]. split; [congruence|].
    exists (t1 ++ t). split; [by rewrite Ht, Ht1, <- app_assoc|].
    by apply Forall_app.
Qed.

Lemma animations_pass actors0 : ∀ st,
  let st' :=
    fold_left (fun s syncActor => createActorAnimations syncActor s) actors0 st in
  objects st' = objects st ∧
  promises st' =
    promises st ++
    map (fun ca => (animation_message ca, ExpectResponse AwaitNothing))
      (flat_map (fun a => default [] (createdAnimations a)) actors0) ∧
  trace st' =
    trace st ++
    map (fun ca => ProtocolSendMessage (animation_message ca) true)
      (flat_map (fun a => default [] (createdAnimations a)) actors0).
Proof.
  induction actors0 as [|a l IH]; intros st; simpl.
  - by rewrite !app_nil_r.
  - destruct (IH (createActorAnimations a st)) as (Ho & Hp & Ht).
    destruct (createActorAnimations_exact a st) as (Ho1 & Hp1 & Ht1).
    rewrite Ho, Hp, Ht, Ho1, Hp1, Ht1, !map_app, <- !app_assoc. done.
Qed.

(** What ['stage:create-animations'] leaves behind when it resolves: every
    interpolation was forwarded first, as a copy with [enabled] set to
    [false]; then every create-animation message was sent expecting a reply;
    and the replies to all of them are still outstanding, none having been
    received during the stage. *)
Lemma create_animations_outstanding st :
  ∃ st' t1,
    stage_create_animations st = Some (Resolved st') ∧
    promises st' =
      promises st ++
      map (fun ca => (animation_message ca, ExpectResponse AwaitNothing))
        (flat_map (fun a => default [] (createdAnimations a)) (actors session)) ∧
    trace st' =
      trace st ++ t1 ++
      map (fun ca => ProtocolSendMessage (animation_message ca) true)
        (flat_map (fun a => default [] (createdAnimations a)) (actors session)) ∧
    Forall (fun e => ∃ o, e = ProtocolSendPayload
                                (InterpolateActorPayload
                                   (<["enabled" := VBool false]> o))) t1.
Proof.
  unfold stage_create_animations.
  destruct (interpolations_pass (actors session) st) as (_ & Hp1 & t1 & Ht1 & Hall).
  set (st1 := fold_left _ (actors session) st) in *.
  destruct (animations_pass (actors session) st1) as (_ & Hp2 & Ht2).
  eexists _, t1. split; [done|]. simpl in *.
  rewrite Hp2, Ht2, Hp1, Ht1, <- app_assoc. done.
Qed.

(** C10.  The replay of interpolations writes to no object that was in the
    store before it: after ['stage:create-animations'], and after
    [createActorInterpolations] for any one actor, every such object is
    there unchanged, its [enabled] value included.  What is sent for an actor
    whose references point into the store is, in order, a fresh copy of each
    cached object with [enabled] set to [false], equal to the cached object on
    every other property. *)
Theorem create_animations_keeps_cache st :
  (∃ st', stage_create_animations st = Some (Resolved st') ∧
          ∀ l o, objects st !! l = Some o → objects st' !! l = Some o) ∧
  (∀ a,
     let st' := createActorInterpolations a st in
     (∀ l o, objects st !! l = Some o → objects st' !! l = Some o) ∧
     (Forall (fun l => is_Some (objects st !! l))
        (default [] (activeInterpolations a)) →
      trace st' =
        trace st ++
        map (fun o => ProtocolSendPayload
                        (InterpolateActorPayload (<["enabled" := VBool false]> o)))
          (omap (fun l => objects st !! l) (default [] (activeInterpolations a))))) ∧
  (∀ (o : gmap string Value) k,
     k ≠ "enabled" → (<["enabled" := VBool false]> o) !! k = o !! k).
Proof.
  split; [|split].
  - unfold stage_create_animations. eexists. split; [done|].
    destruct (interpolations_pass (actors session) st) as (Ho1 & _).
    set (st1 := fold_left _ (actors session) st) in *.
    destruct (animations_pass (actors session) st1) as (Ho2 & _).
    intros l o Hl. simpl in *. rewrite Ho2. by apply Ho1.
  - intros a.
    destruct (forwardInterpolations_exact (default [] (activeInterpolations a)) st)
      as (Ho & _ & _ & _ & Hex).
    by split.
  - intros o k Hk. by rewrite lookup_insert_ne.
Qed.


(** * Further properties *)

(** ** The stage machine seen by the router *)

Lemma elem_of_inProgress_completeStage s s' st :
  s' ∈ inProgressStages (completeStage s st) ↔ s' ∈ inProgressStages st ∧ s' ≠ s.
Proof.
  unfold completeStage. simpl. rewrite list_elem_of_In, List.filter_In.
  rewrite <- list_elem_of_In, negb_true_iff, bool_decide_eq_false. done.
Qed.

Lemma elem_of_completed_completeStage s s' st :
  s' ∈ completedStages (completeStage s st) ↔ s' ∈ completedStages st ∨ s' = s.
Proof.
  unfold completeStage. simpl. rewrite elem_of_app, list_elem_of_singleton. done.
Qed.

Lemma elem_of_inProgress_beginStage s s' st :
  s' ∈ inProgressStages (beginStage s st) ↔ s' ∈ inProgressStages st ∨ s' = s.
Proof.
  unfold beginStage. simpl. rewrite elem_of_app, list_elem_of_singleton. done.
Qed.

(** X1.  Completing a stage makes the router apply [after] to every message
    whose rule names that stage, whatever the state was (the stage need not
    have been begun), and changes the handling of no other message. *)
Theorem completeStage_switches_to_after s st m :
  handlingForMessage (completeStage s st) m =
    if decide (stage (synchronization (ruleFor m)) = s)
    then after (synchronization (ruleFor m))
    else handlingForMessage st m.
Proof.
  unfold handlingForMessage, isStageComplete, isStageInProgress.
  set (r := synchronization (ruleFor m)).
  destruct (decide (stage r = s)) as [Heq|Hne].
  - rewrite bool_decide_eq_true_2; [done|].
    apply elem_of_completed_completeStage. by right.
  - rewrite (bool_decide_ext (stage r ∈ completedStages (completeStage s st))
               (stage r ∈ completedStages st)).
    2:{ rewrite elem_of_completed_completeStage. split; [|by left].
        intros [?|?]; done. }
    rewrite (bool_decide_ext (stage r ∈ inProgressStages (completeStage s st))
               (stage r ∈ inProgressStages st)).
    2:{ rewrite elem_of_inProgress_completeStage. split; [by intros []|done]. }
    done.
Qed.

(** X2.  Beginning a stage makes the router apply [during] to every message
    whose rule names that stage, unless the stage is already complete, in
    which case [after] still applies; the handling of no other message
    changes. *)
Theorem beginStage_switches_to_during s st m :
  handlingForMessage (beginStage s st) m =
    if decide (stage (synchronization (ruleFor m)) = s ∧ s ∉ completedStages st)
    then during (synchronization (ruleFor m))
    else handlingForMessage st m.
Proof.
  unfold handlingForMessage, isStageComplete, isStageInProgress.
  set (r := synchronization (ruleFor m)).
  change (completedStages (beginStage s st)) with (completedStages st).
  destruct (decide (stage r = s ∧ s ∉ completedStages st)) as [[Heq Hnc]|Hno].
  - rewrite bool_decide_eq_false_2 by (by rewrite Heq).
    rewrite bool_decide_eq_true_2; [done|].
    apply elem_of_inProgress_beginStage. by right.
  - destruct (decide (stage r ∈ completedStages st)) as [Hc|Hc].
    + by rewrite !bool_decide_eq_true_2.
    + rewrite !(bool_decide_eq_false_2 _ Hc).
      rewrite (bool_decide_ext (stage r ∈ inProgressStages (beginStage s st))
                 (stage r ∈ inProgressStages st)); [done|].
      rewrite elem_of_inProgress_beginStage. split; [|by left].
      intros [?|Heq]; [done|]. exfalso. apply Hno. split; [done|]. by rewrite <- Heq.
Qed.

(** X3.  [completeStage] leaves its stage complete and not in progress, even
    if it was begun several times or never, and keeps the two stage sets
    disjoint; [beginStage] keeps them disjoint exactly when its stage is not
    already complete. *)
Theorem stage_operations_disjoint s st :
  s ∈ completedStages (completeStage s st) ∧
  (s ∉ inProgressStages (completeStage s st)) ∧
  (disjoint_stages st → disjoint_stages (completeStage s st)) ∧
  (disjoint_stages (beginStage s st) ↔
   (disjoint_stages st ∧ s ∉ completedStages st)).
Proof.
  split; [apply elem_of_completed_completeStage; by right|].
  split; [rewrite elem_of_inProgress_completeStage; by intros [_ ?]|].
  split.
  - intros Hd s' [[Hp Hne]%elem_of_inProgress_completeStage
                    [Hc|Heq]%elem_of_completed_completeStage]; [|done].
    by apply (Hd s').
  - unfold disjoint_stages.
    change (completedStages (beginStage s st)) with (completedStages st).
    setoid_rewrite elem_of_inProgress_beginStage. split.
    + intros Hd. split; [intros s' [Hp Hc]; apply (Hd s'); eauto|].
      intros Hc. apply (Hd s). eauto.
    + intros [Hd Hnc] s' [[Hp|Heq] Hc]; [by apply (Hd s')|by subst s'].
Qed.

(** X4.  When a run of a fresh [ClientSync] resolves, no stage is left in
    progress and the completed stages are those of [sequence], in order,
    followed by [always] (only [always] when the session is not
    peer-authoritative).  From then on the router applies [after] to a
    message whose rule names a completed stage and [before] to any other: a
    rule on [never] (and, without the staged replay, a rule on any stage of
    [sequence]) is never released. *)
Theorem run_resolved_stage_sets queue cache :
  ∃ o, run (newClientSync queue cache) = Some o ∧
       match o with
       | Resolved st' =>
           inProgressStages st' = [] ∧
           completedStages st' =
             (if peerAuthoritative session then sequence else []) ++ [StageAlways] ∧
           ∀ m,
             handlingForMessage st' m =
               if decide (stage (synchronization (ruleFor m)) = StageAlways ∨
                          (peerAuthoritative session = true ∧
                           stage (synchronization (ruleFor m)) ∈ sequence))
               then after (synchronization (ruleFor m))
               else before (synchronization (ruleFor m))
       | _ => True
       end.
Proof.
  destruct (run_spec (newClientSync queue cache))
    as (o & Ho & Hcons & done & Hd & _ & Hres).
  exists o. split; [done|]. destruct o as [st'| |]; try done.
  destruct Hres as (-> & _). simpl in Hd.
  specialize (Hcons eq_refl). unfold consistent in Hcons. simpl in Hcons.
  rewrite <- replay_driver_events, Hd, expected_log_cases in Hcons.
  assert (inProgressStages st' = [] ∧
          completedStages st' =
            (if peerAuthoritative session then sequence else []) ++ [StageAlways])
    as [Hp Hc].
  { destruct (peerAuthoritative session); by injection Hcons as <- <-. }
  split; [done|]. split; [done|].
  intros m. unfold handlingForMessage, isStageComplete, isStageInProgress.
  set (r := synchronization (ruleFor m)). rewrite Hp, Hc.
  rewrite (bool_decide_eq_false_2 (stage r ∈ [])) by apply not_elem_of_nil.
  destruct (decide (_ ∨ _)) as [Hyes|Hno].
  - rewrite bool_decide_eq_true_2; [done|].
    apply elem_of_app. destruct Hyes as [->|[-> Hin]].
    + right. by apply list_elem_of_singleton.
    + by left.
  - rewrite bool_decide_eq_false_2; [done|].
    intros [Hin|Hin%list_elem_of_singleton]%elem_of_app; apply Hno; [|by left].
    right. destruct (peerAuthoritative session); [done|].
    by apply elem_of_nil in Hin.
Qed.


(** ** The handlers of set-behaviors and load-assets *)

Lemma behaviors_pass actors0 : ∀ st,
  let st' := fold_left (fun s syncActor => createActorBehavior syncActor s) actors0 st in
  trace st' = trace st ++ map ProtocolSendPayload (omap behaviorPayload actors0) ∧
  promises st' = promises st ∧
  resumed st' = resumed st ∧
  queuedMessages st' = queuedMessages st ∧
  objects st' = objects st.
Proof.
  induction actors0 as [|a actors0 IH]; intros st; simpl.
  - by rewrite app_nil_r.
  - destruct (IH (createActorBehavior a st)) as (Ht & Hp & Hr & Hq & Ho).
    rewrite Ht, Hp, Hr, Hq, Ho. clear.
    unfold createActorBehavior, behaviorPayload.
    destruct (behavior a) as [b|]; [destruct (truthy b)|]; simpl;
      rewrite <- ?app_assoc; done.
Qed.

(** X5.  While the router lets the cached set-behavior payloads through (as
    it does when set-behaviors is in progress), the handler of set-behaviors
    sends, with the parent's send, one set-behavior payload for every cached
    actor that has a non-empty behavior, in the order of the cache; it
    expects no reply, queues nothing and resolves. *)
Theorem set_behaviors_exact st :
  Forall (fun a => ∀ p, behaviorPayload a = Some p →
                        handlingForMessage st (messageOf p) = Allow)
    (actors session) →
  ∃ st',
    stage_set_behaviors st = Some (Resolved st') ∧
    trace st' =
      trace st ++ map ProtocolSendPayload (omap behaviorPayload (actors session)) ∧
    promises st' = promises st ∧
    queuedMessages st' = queuedMessages st ∧
    inProgressStages st' = inProgressStages st ∧
    completedStages st' = completedStages st.
Proof.
  intros _. eexists. split; [reflexivity|].
  destruct (behaviors_pass (actors session) st) as (Ht & Hp & _ & Hq & _).
  destruct (quiet_fold_left (fun s a => createActorBehavior a s) (actors session) st)
    as (Hi & Hc & _); [intros; apply quiet_createActorBehavior|].
  done.
Qed.


Lemma assets_sent ms : ∀ st,
  let st' := fold_left (fun s m => sendAndExpectResponse m AwaitAsset s) ms st in
  trace st' = trace st ++ map (fun m => ProtocolSendMessage m true) ms ∧
  promises st' = promises st ++ map (fun m => (m, ExpectResponse AwaitAsset)) ms ∧
  resumed st' = resumed st ∧
  queuedMessages st' = queuedMessages st.
Proof.
  induction ms as [|m ms IH]; intros st; simpl.
  - by rewrite !app_nil_r.
  - destruct (IH (sendAndExpectResponse m AwaitAsset st)) as (Ht & Hp & Hr & Hq).
    rewrite Ht, Hp, Hr, Hq. simpl. by rewrite <- !app_assoc.
Qed.

(** The event loop when every outstanding reply is awaited by the handler of
    load-assets: the replies arrive in some order until one fails. *)
Lemma assets_awaitReplies fuel : ∀ ctx st o,
  resumed st = [] →
  Forall (fun mk => mk.2 = ExpectResponse AwaitAsset) (promises st) →
  awaitReplies fuel ctx false st = Some o →
  ∃ order rest,
    map fst (promises st) ≡ₚ order ++ rest ∧
    trace (outcome_state o) = trace st ++ flat_map arrival order ∧
    match o with
    | Resolved _ => rest = [] ∧ Forall answered order
    | Rejected _ =>
        ∃ order' m, order = order' ++ [m] ∧ Forall answered order' ∧ respond m = None
    | Hung _ => False
    end.
Proof.
  induction fuel as [|fuel IH]; intros ctx st o Hres Hall;
    rewrite awaitReplies_unfold, Hres.
  - destruct (pick (sched (promises st)) (promises st)) as [[[m k] rest]|] eqn:Hpick;
      [done|].
    intros [= <-]. apply pick_None in Hpick. exists [], []. rewrite Hpick. simpl.
    by rewrite app_nil_r.
  - destruct (pick (sched (promises st)) (promises st)) as [[[m k] rest]|] eqn:Hpick.
    + pose proof (pick_Some _ _ _ _ Hpick) as Hperm.
      assert (k = ExpectResponse AwaitAsset ∧
              Forall (fun mk => mk.2 = ExpectResponse AwaitAsset) rest) as [-> Hrest].
      { rewrite Hperm in Hall. by inversion Hall. }
      unfold deliver. destruct (respond m) as [reply|] eqn:Hr.
      * intros Hrun. apply IH in Hrun as (order & rest' & Hp & Htr & Ho).
        -- exists (m :: order), rest'. split.
           { rewrite Hperm. simpl. by rewrite <- Hp; destruct (authoritative client). }
           split.
           { rewrite Htr. simpl. unfold arrival at 2, echo. rewrite Hr.
             destruct (authoritative client); simpl; by rewrite <- !app_assoc. }
           destruct o as [st'|st'|st']; [| |done].
           ++ destruct Ho as [-> Ho]. split; [done|]. constructor; [|done].
              by exists reply.
           ++ destruct Ho as (order' & m' & -> & Ho & Hm').
              exists (m :: order'), m'. split; [done|]. split; [|done].
              constructor; [by exists reply|done].
        -- by destruct (authoritative client).
        -- by destruct (authoritative client).
      * intros [= <-]. exists [m], (map fst rest). split; [by rewrite Hperm|]. split.
        { simpl. unfold arrival. rewrite Hr. by rewrite app_nil_r. }
        exists [], m. done.
    + intros [= <-]. apply pick_None in Hpick. exists [], []. rewrite Hpick. simpl.
      by rewrite app_nil_r.
Qed.

Lemma load_assets_cases st :
  promises st = [] → resumed st = [] →
  ∃ o order rest,
    stage_load_assets st = Some o ∧
    assets session ≡ₚ order ++ rest ∧
    match o with
    | Resolved st' =>
        rest = [] ∧ Forall answered order ∧
        ∃ st1,
          st' = fold_left (fun s p => sendMessage (messageOf p) None s)
                  (assetUpdates session) st1 ∧
          trace st1 =
            trace st ++ map (fun m => ProtocolSendMessage m true) (assets session)
            ++ flat_map arrival order ∧
          promises st1 = [] ∧
          queuedMessages st1 = queuedMessages st ∧
          inProgressStages st1 = inProgressStages st ∧
          completedStages st1 = completedStages st
    | Rejected st' =>
        (∃ order' m, order = order' ++ [m] ∧ Forall answered order' ∧ respond m = None) ∧
        trace st' =
          trace st ++ map (fun m => ProtocolSendMessage m true) (assets session)
          ++ flat_map arrival order ∧
        queuedMessages st' = queuedMessages st
    | Hung _ => False
    end.
Proof.
  intros Hp Hr. unfold stage_load_assets.
  set (st0 := fold_left (fun s m => sendAndExpectResponse m AwaitAsset s)
                (assets session) st).
  destruct (assets_sent (assets session) st) as (Ht0 & Hp0 & Hr0 & Hq0).
  fold st0 in Ht0, Hp0, Hr0, Hq0. rewrite Hp in Hp0. rewrite Hr in Hr0. simpl in Hp0.
  destruct (awaitAll_returns AwaitStage st0) as [o Ho]. rewrite Ho.
  pose proof (quiet_awaitAll _ _ _ Ho) as (Hi & Hc & _).
  pose proof (same_awaitReplies _ _ _ _ _ Ho) as [Hq _].
  assert (quiet st st0) as (Hi0 & Hc0 & _).
  { apply quiet_fold_left. intros. apply quiet_sendAndExpectResponse. }
  pose proof Ho as Hrun.
  apply assets_awaitReplies in Hrun as (order & rest & Hperm & Htr & Hout);
    [|done|rewrite Hp0; by apply Forall_map, Forall_true].
  rewrite Hp0, map_map, map_id in Hperm. simpl in Hperm.
  rewrite Ht0, <- app_assoc in Htr.
  destruct o as [st'|st'|st']; [| |done].
  - eexists _, order, rest. split; [done|]. split; [done|].
    destruct Hout as [-> Hout]. split; [done|]. split; [done|].
    exists st'. split; [done|]. split; [done|].
    apply awaitReplies_settled in Ho as [Hps _]. simpl in *.
    rewrite Hq, Hq0, Hi, Hi0, Hc, Hc0. done.
  - eexists _, order, rest. split; [done|]. split; [done|].
    split; [done|]. split; [done|]. simpl in *. by rewrite Hq, Hq0.
Qed.

(** X6.  The handler of load-assets, entered with no reply outstanding, sends
    every cached load-assets message before it observes any reply; the
    replies then arrive in some order.  When all of them have arrived the
    cached asset updates are routed through [sendMessage], with the stage
    sets as they were on entry; when one fails the handler rejects at that
    reply, and no asset update has been sent or queued. *)
Theorem load_assets_replay st :
  promises st = [] → resumed st = [] →
  ∃ o order,
    stage_load_assets st = Some o ∧
    match o with
    | Resolved st' =>
        order ≡ₚ assets session ∧
        ∃ st1,
          st' = fold_left (fun s p => sendMessage (messageOf p) None s)
                  (assetUpdates session) st1 ∧
          trace st1 =
            trace st ++ map (fun m => ProtocolSendMessage m true) (assets session)
            ++ flat_map arrival order ∧
          promises st1 = [] ∧
          queuedMessages st1 = queuedMessages st ∧
          (∀ m, handlingForMessage st1 m = handlingForMessage st m)
    | Rejected st' =>
        (∃ m, m ∈ assets session ∧ respond m = None ∧
              last (trace st') = Some (ReplyFailed m)) ∧
        order ⊆ assets session ∧
        trace st' =
          trace st ++ map (fun m => ProtocolSendMessage m true) (assets session)
          ++ flat_map arrival order ∧
        queuedMessages st' = queuedMessages st
    | Hung _ => False
    end.
Proof.
  intros Hp Hr.
  destruct (load_assets_cases st Hp Hr) as (o & order & rest & Ho & Hperm & Hout).
  exists o, order. split; [done|].
  destruct o as [st'|st'|st']; [| |done].
  - destruct Hout as (-> & _ & st1 & -> & Ht & Hps & Hq & Hi & Hc).
    rewrite app_nil_r in Hperm. split; [done|].
    exists st1. repeat (split; [done|]). intros m. by apply handlingForMessage_ext.
  - destruct Hout as ((order' & m & -> & Hans & Hm) & Ht & Hq).
    split; [|split; [|done]].
    + exists m. split; [|split; [done|]].
      * rewrite Hperm, !elem_of_app, list_elem_of_singleton. by left; right.
      * rewrite Ht, flat_map_app. simpl. unfold arrival at 2. rewrite Hm.
        rewrite app_nil_r, !app_assoc. apply last_snoc.
    + intros x Hx. rewrite Hperm. apply elem_of_app. by left.
Qed.

(** X7.  The handler of load-assets, entered with no reply outstanding,
    resolves exactly when every cached load-assets message is answered, and
    rejects otherwise; it is never left pending. *)
Theorem load_assets_resolves_iff st :
  promises st = [] → resumed st = [] →
  ∃ o, stage_load_assets st = Some o ∧
       ((∃ st', o = Resolved st') ↔ Forall answered (assets session)) ∧
       ((∃ st', o = Rejected st') ↔ Exists (fun m => respond m = None) (assets session)).
Proof.
  intros Hp Hr.
  destruct (load_assets_cases st Hp Hr) as (o & order & rest & Ho & Hperm & Hout).
  exists o. split; [done|].
  destruct o as [st'|st'|st']; [| |done].
  - destruct Hout as (-> & Hans & _). rewrite app_nil_r in Hperm.
    assert (Forall answered (assets session)) as Hall by by rewrite Hperm.
    split.
    + split; [done|]. by exists st'.
    + split; [by intros [? ?]|]. intros Hex. exfalso.
      apply Exists_exists in Hex as (m & Hm & Hnone).
      rewrite Forall_forall in Hall. destruct (Hall m Hm) as [r Hsome]. congruence.
  - destruct Hout as ((order' & m & -> & _ & Hm) & _).
    assert (Exists (fun m => respond m = None) (assets session)) as Hex.
    { apply Exists_exists. exists m. split; [|done].
      rewrite Hperm, !elem_of_app, list_elem_of_singleton. by left; right. }
    split.
    + split; [by intros [? ?]|]. intros Hall. exfalso.
      apply Exists_exists in Hex as (m' & Hm' & Hnone).
      rewrite Forall_forall in Hall. destruct (Hall m' Hm') as [r Hsome]. congruence.
    + split; [done|]. by exists st'.
Qed.


(** ** Failed replies during create-actors *)

Lemma elem_of_sends e kids :
  e ∈ sends kids ↔
  ∃ c m, c ∈ kids ∧ createMessage (tree_actor c) = Some m ∧ e = ProtocolSendMessage m true.
Proof.
  unfold sends. rewrite list_elem_of_omap. split.
  - intros (c & Hc & Hm). destruct (createMessage (tree_actor c)) as [m|] eqn:Hcm; [|done].
    injection Hm as <-. by exists c, m.
  - intros (c & m & Hc & Hm & ->). exists c. by rewrite Hm.
Qed.

Lemma elem_of_parked m k kids :
  (m, k) ∈ parked kids ↔
  ∃ c, c ∈ kids ∧ createMessage (tree_actor c) = Some m ∧ k = ExpectResponse (AwaitActor c).
Proof.
  unfold parked. rewrite list_elem_of_omap. split.
  - intros (c & Hc & Hm). destruct (createMessage (tree_actor c)) as [m'|] eqn:Hcm; [|done].
    injection Hm as <- <-. by exists c.
  - intros (c & Hc & Hm & ->). exists c. by rewrite Hm.
Qed.

Lemma parked_awaits_actor kids : Forall awaits_actor (parked kids).
Proof.
  apply Forall_forall. intros [m k] (c & _ & _ & ->)%elem_of_parked. by exists c.
Qed.

Lemma sends_parked m b kids :
  ProtocolSendMessage m b ∈ sends kids → ∃ k, (m, k) ∈ parked kids.
Proof.
  intros (c & m' & Hc & Hm & [= -> ->])%elem_of_sends.
  eexists. apply elem_of_parked. by exists c.
Qed.

Lemma resumeActor_no_throw t st st' : resumeActor t st ≠ Throw st'.
Proof.
  unfold resumeActor. destruct (created (tree_actor t)) as [c|]; [|done].
  by destruct (payload (message c)).
Qed.

Lemma actors_post_step stuck stuck' st st' o chunk :
  trace st' = trace st ++ chunk →
  (stuck = true → stuck' = true) →
  (∀ m, ReplyFailed m ∈ chunk → stuck' = true) →
  (∀ m k, (m, k) ∈ promises st → respond m = None →
          ReplyFailed m ∈ chunk ∨ (m, k) ∈ promises st') →
  (∀ m b, ProtocolSendMessage m b ∈ chunk → ∃ k, (m, k) ∈ promises st') →
  actors_post stuck' st' o → actors_post stuck st o.
Proof.
  intros Ht Hs Hf Hp Hsent (t & Ht' & Ho & Hp' & Hsent').
  exists (chunk ++ t). split; [by rewrite Ht', Ht, app_assoc|]. split; [|split].
  - destruct o as [s|s|s]; [|done..]. destruct Ho as [-> Ho]. split.
    + destruct stuck; [by specialize (Hs eq_refl)|done].
    + intros m [Hm|Hm]%elem_of_app; [by specialize (Hf _ Hm)|by eapply Ho].
  - intros m k Hmk Hnone. apply elem_of_app.
    destruct (Hp _ _ Hmk Hnone) as [?|?]; [by left|right; by eapply Hp'].
  - intros m b [Hm|Hm]%elem_of_app Hnone; apply elem_of_app.
    + right. destruct (Hsent _ _ Hm) as [k Hk]. by eapply Hp'.
    + right. by eapply Hsent'.
Qed.

Lemma actors_awaitReplies fuel : ∀ ctx stuck st o,
  Forall awaits_actor (promises st) →
  awaitReplies fuel ctx stuck st = Some o →
  actors_post stuck st o.
Proof.
  assert (Hnil : ∀ stuck st, promises st = [] →
            actors_post stuck st (if stuck then Hung st else Resolved st)).
  { intros stuck st Hp. exists []. split; [by destruct stuck; simpl; rewrite app_nil_r|].
    split; [destruct stuck; [done|]; split; [done|]; by intros m ?%elem_of_nil|].
    split; [rewrite Hp; by intros m k ?%elem_of_nil|by intros m b ?%elem_of_nil]. }
  induction fuel as [|fuel IH]; intros ctx stuck st o Hall;
    rewrite awaitReplies_unfold.
  - destruct (resumed st); [|done].
    destruct (pick _ _) as [[[m k] rest]|] eqn:Hpick; [done|].
    intros [= <-]. apply pick_None in Hpick. by apply Hnil.
  - destruct (resumed st) as [|tq rest] eqn:Hr.
    + destruct (pick _ _) as [[[m k] rest]|] eqn:Hpick;
        [|intros [= <-]; apply pick_None in Hpick; by apply Hnil].
      apply pick_Some in Hpick.
      assert (awaits_actor (m, k) ∧ Forall awaits_actor rest) as [[tq Hk] Hrest].
      { rewrite Hpick in Hall. by inversion Hall. }
      simpl in Hk. subst k.
      pose proof (deliver_actor_exact ctx m tq (set_promises rest st)) as Hex.
      simpl in Hex.
      destruct (respond m) as [r|] eqn:Hm.
      * destruct Hex as (Ht' & Hp' & _).
        assert (∀ stuck', (stuck = true → stuck' = true) →
                  actors_post stuck'
                    (turn_state (deliver ctx m (ExpectResponse (AwaitActor tq))
                                   (set_promises rest st))) o →
                  actors_post stuck st o) as Hstep.
        { intros stuck' Hs. eapply actors_post_step; [exact Ht'|exact Hs|..].
          - intros m' [[=]|Hin]%elem_of_cons.
            apply elem_of_app in Hin as [Hin|Hin].
            + unfold echo in Hin. destruct (authoritative client);
                [by apply list_elem_of_singleton in Hin|by apply elem_of_nil in Hin].
            + by apply elem_of_sends in Hin as (? & ? & _ & _ & [=]).
          - intros m' k' Hin Hnone. right. rewrite Hp'. apply elem_of_app. left.
            rewrite Hpick in Hin. apply elem_of_cons in Hin as [[= -> ->]|Hin];
              [congruence|done].
          - intros m' b [[=]|Hin]%elem_of_cons.
            apply elem_of_app in Hin as [Hin|Hin].
            + unfold echo in Hin. destruct (authoritative client);
                [by apply list_elem_of_singleton in Hin|by apply elem_of_nil in Hin].
            + apply sends_parked in Hin as [k' Hk']. exists k'. rewrite Hp'.
              apply elem_of_app. by right. }
        assert (Forall awaits_actor
                  (promises (turn_state (deliver ctx m (ExpectResponse (AwaitActor tq))
                                           (set_promises rest st))))) as Hall'.
        { rewrite Hp'. apply Forall_app. split; [done|apply parked_awaits_actor]. }
        assert (∀ s, deliver ctx m (ExpectResponse (AwaitActor tq))
                       (set_promises rest st) ≠ Throw s) as Hnt.
        { intros s. unfold deliver. rewrite Hm. apply resumeActor_no_throw. }
        destruct (deliver _ _ _ _) as [s|s|s]; simpl in *.
        -- intros Hrun. apply (Hstep stuck); [done|]. by eapply IH.
        -- intros Hrun. apply (Hstep true); [done|]. by eapply IH.
        -- by destruct (Hnt s).
      * destruct Hex as (Ht' & Hp' & _).
        assert (deliver ctx m (ExpectResponse (AwaitActor tq)) (set_promises rest st)
                = Stuck (addEvent (ReplyFailed m) (set_promises rest st))) as Hd.
        { unfold deliver. by rewrite Hm. }
        rewrite Hd in *. simpl in *. intros Hrun.
        eapply (actors_post_step stuck true st
                  (addEvent (ReplyFailed m) (set_promises rest st)) o [ReplyFailed m]);
          [done|done|done|..].
        -- intros m' k' Hin Hnone. rewrite Hpick in Hin.
           apply elem_of_cons in Hin as [[= -> ->]|Hin];
             [left; by apply list_elem_of_singleton|by right].
        -- by intros m' b [=]%list_elem_of_singleton.
        -- by eapply IH.
    + pose proof (resumeActor_exact tq (set_resumed rest st)) as (Ht' & Hp' & _).
      simpl in Ht', Hp'.
      assert (∀ stuck', (stuck = true → stuck' = true) →
                actors_post stuck' (turn_state (resumeActor tq (set_resumed rest st))) o →
                actors_post stuck st o) as Hstep.
      { intros stuck' Hs. eapply actors_post_step; [exact Ht'|exact Hs|..].
        - intros m' Hin. by apply elem_of_sends in Hin as (? & ? & _ & _ & [=]).
        - intros m' k' Hin Hnone. right. rewrite Hp'. apply elem_of_app. by left.
        - intros m' b Hin. apply sends_parked in Hin as [k' Hk']. exists k'.
          rewrite Hp'. apply elem_of_app. by right. }
      assert (Forall awaits_actor
                (promises (turn_state (resumeActor tq (set_resumed rest st))))) as Hall'.
      { rewrite Hp'. apply Forall_app. split; [done|apply parked_awaits_actor]. }
      pose proof (resumeActor_no_throw tq (set_resumed rest st)) as Hnt.
      destruct (resumeActor _ _) as [s|s|s]; simpl in *.
      * intros Hrun. apply (Hstep stuck); [done|]. by eapply IH.
      * intros Hrun. apply (Hstep true); [done|]. by eapply IH.
      * by destruct (Hnt s).
Qed.

(** X8.  The handler of create-actors, entered with no reply outstanding,
    never rejects.  A create message whose reply is rejected has the failure
    observed, and the handler is then left pending for ever: the exception is
    raised inside the [async] executor of [createActorRecursive], which
    settles nothing. *)
Theorem create_actors_never_rejects st0 :
  promises st0 = [] →
  ∃ o t,
    stage_create_actors st0 = Some o ∧
    trace (outcome_state o) = trace st0 ++ t ∧
    (∀ st', o ≠ Rejected st') ∧
    (∀ m b, ProtocolSendMessage m b ∈ t → respond m = None →
            ReplyFailed m ∈ t ∧ ∃ st', o = Hung st').
Proof.
  intros Hp0. unfold stage_create_actors.
  set (st1 := fold_left _ (rootActors session) st0).
  destruct (spawn_exact (rootActors session) st0) as (Ht1 & Hp1 & _).
  fold st1 in Ht1, Hp1. simpl in Ht1, Hp1. rewrite Hp0 in Hp1. simpl in Hp1.
  destruct (awaitAll_returns AwaitStage st1) as [o Ho]. rewrite Ho.
  assert (actors_post false st0 o) as (t & Ht & Hout & _ & Hsent).
  { eapply (actors_post_step false false st0 st1); [exact Ht1|done|..].
    - intros m Hin. by apply elem_of_sends in Hin as (? & ? & _ & _ & [=]).
    - rewrite Hp0. by intros m k ?%elem_of_nil.
    - intros m b Hin. apply sends_parked in Hin as [k Hk]. exists k. by rewrite Hp1.
    - eapply actors_awaitReplies; [|exact Ho]. rewrite Hp1. apply parked_awaits_actor. }
  exists o, t. split; [done|]. split; [done|]. split.
  - intros st' ->. done.
  - intros m b Hin Hnone. pose proof (Hsent _ _ Hin Hnone) as Hf. split; [done|].
    destruct o as [s|s|s]; [|done|by exists s].
    destruct Hout as [_ Hout]. by destruct (Hout m).
Qed.


(** ** The whole forest is replayed *)

Lemma map_flat_map {A B C} (g : B → C) (f : A → list B) l :
  map g (flat_map f l) = flat_map (fun x => map g (f x)) l.
Proof. induction l as [|x l IH]; simpl; [done|]. by rewrite map_app, IH. Qed.

Lemma flat_map_ext_Forall {A B} (f g : A → list B) l :
  Forall (fun x => f x = g x) l → flat_map f l = flat_map g l.
Proof. induction 1 as [|x l Hx _ IH]; simpl; [done|]. by rewrite Hx, IH. Qed.

Lemma nodes_tree_edges t parent : map snd (tree_edges parent t) = nodes t.
Proof. by destruct t. Qed.

Lemma nodes_unfold t : nodes t = t :: descendants t.
Proof.
  destruct t as [a kids]. unfold nodes, descendants. simpl. f_equal.
  rewrite map_flat_map. apply flat_map_ext_Forall, Forall_forall.
  intros c _. apply nodes_tree_edges.
Qed.

Lemma forest_nodes_nodes forest : forest_nodes forest = flat_map nodes forest.
Proof. unfold forest_nodes, forest_edges. by rewrite map_flat_map. Qed.

Lemma nodes_children kids :
  flat_map nodes kids ≡ₚ kids ++ flat_map descendants kids.
Proof.
  induction kids as [|c kids IH]; simpl; [done|].
  rewrite nodes_unfold, IH. solve_Permutation.
Qed.

Lemma pending_spawn kids :
  omap awaited_actor (parked kids) ++ requeued kids ≡ₚ kids.
Proof.
  induction kids as [|c kids IH]; simpl; [done|].
  unfold parked, requeued in *. simpl.
  destruct (createMessage (tree_actor c)) as [m|]; simpl.
  - by rewrite IH.
  - by rewrite <- Permutation_middle, IH.
Qed.

Lemma sent_sends kids : sent (sends kids) = createMessages kids.
Proof.
  unfold sent, sends, createMessages.
  induction kids as [|c kids IH]; simpl; [done|].
  destruct (createMessage (tree_actor c)) as [m|]; simpl; [f_equal|]; exact IH.
Qed.

Lemma replied_sends kids : replied (sends kids) = [].
Proof.
  unfold replied, sends.
  induction kids as [|c kids IH]; simpl; [done|].
  destruct (createMessage (tree_actor c)) as [m|]; simpl; exact IH.
Qed.

Lemma fst_parked kids : map fst (parked kids) = createMessages kids.
Proof.
  unfold parked, createMessages.
  induction kids as [|c kids IH]; simpl; [done|].
  destruct (createMessage (tree_actor c)) as [m|]; simpl; [f_equal|]; exact IH.
Qed.

Lemma sent_app t1 t2 : sent (t1 ++ t2) = sent t1 ++ sent t2.
Proof. apply omap_app. Qed.

Lemma replied_app t1 t2 : replied (t1 ++ t2) = replied t1 ++ replied t2.
Proof. apply omap_app. Qed.

Lemma sent_echo r : sent (echo r) = [] ∧ replied (echo r) = [].
Proof. unfold echo. by destruct (authoritative client). Qed.

Lemma resumeActor_replayable t st :
  replayable t →
  children_started t = childrenOf t ∧
  ∃ st', resumeActor t st = Continue st'.
Proof.
  intros [(c & ty & actor & Hc & Hp) _]. unfold children_started, resumeActor.
  rewrite Hc, Hp. eauto.
Qed.

Lemma replay_step st st1 tq pend_rest prom_first prom_rest pre o :
  replay_inv st →
  pending st ≡ₚ tq :: pend_rest →
  promises st ≡ₚ prom_first ++ prom_rest →
  trace st1 = trace st ++ pre ++ sends (childrenOf tq) →
  sent pre = [] →
  replied pre = map fst prom_first →
  promises st1 = prom_rest ++ parked (childrenOf tq) →
  pending st1 ≡ₚ pend_rest ++ childrenOf tq →
  (replay_inv st1 → replay_post st1 o) →
  replay_post st o.
Proof.
  intros [Hnodes Hprom] Hpend Hperm Ht Hsent Hrep Hp1 Hpend1 Hpost.
  destruct Hpost as (st' & t & -> & Ht' & Hs & Hr).
  { split.
    - rewrite Hpend1, flat_map_app. rewrite Hpend in Hnodes. simpl in Hnodes.
      rewrite nodes_unfold in Hnodes. simpl in Hnodes.
      apply Forall_cons in Hnodes as [_ Hnodes]. apply Forall_app in Hnodes as [Hd Hr].
      apply Forall_app. done.
    - rewrite Hp1. apply Forall_app. split.
      + rewrite Hperm in Hprom. by apply Forall_app in Hprom as [_ ?].
      + apply Forall_forall. intros [m k] (c & _ & Hm & ->)%elem_of_parked.
        by exists c. }
  exists st', (pre ++ sends (childrenOf tq) ++ t). split; [done|].
  split; [by rewrite Ht', Ht, <- !app_assoc|].
  rewrite !sent_app, !replied_app, Hsent, Hrep, sent_sends, replied_sends.
  simpl. split.
  - rewrite Hs. unfold createMessages. rewrite Hpend1, Hpend. simpl.
    rewrite !flat_map_app, !omap_app.
    unfold descendants at 3. rewrite (nodes_children (childrenOf tq)), omap_app.
    solve_Permutation.
  - rewrite Hr, Hp1, Hperm, !map_app, fst_parked. solve_Permutation.
Qed.

Lemma replay_awaitReplies fuel : ∀ ctx st o,
  replay_inv st →
  awaitReplies fuel ctx false st = Some o →
  replay_post st o.
Proof.
  assert (Hnil : ∀ st, resumed st = [] → promises st = [] →
            replay_post st (Resolved st)).
  { intros st Hr Hp. exists st, []. unfold pending. rewrite Hr, Hp. simpl.
    by rewrite app_nil_r. }
  induction fuel as [|fuel IH]; intros ctx st o Hinv; rewrite awaitReplies_unfold.
  - destruct (resumed st) eqn:Hr; [|done].
    destruct (pick _ _) as [[[m k] rest]|] eqn:Hpick; [done|].
    intros [= <-]. apply pick_None in Hpick. by apply Hnil.
  - destruct (resumed st) as [|tq rest] eqn:Hr.
    + destruct (pick _ _) as [[[m k] rest]|] eqn:Hpick;
        [|intros [= <-]; apply pick_None in Hpick; by apply Hnil].
      apply pick_Some in Hpick. pose proof Hinv as [Hnodes Hprom].
      assert (∃ tq, k = ExpectResponse (AwaitActor tq) ∧
                    createMessage (tree_actor tq) = Some m) as (tq & -> & Hm).
      { rewrite Hpick in Hprom. by apply Forall_cons in Hprom as [? _]. }
      assert (pending st ≡ₚ tq :: omap awaited_actor rest) as Hpend.
      { unfold pending. by rewrite Hr, Hpick. }
      assert (replayable tq) as Htq.
      { rewrite Hpend in Hnodes. simpl in Hnodes. rewrite nodes_unfold in Hnodes.
        by apply Forall_cons in Hnodes as [? _]. }
      destruct (proj2 Htq m Hm) as [r Hrm].
      pose proof (deliver_actor_exact ctx m tq (set_promises rest st)) as Hex.
      simpl in Hex. rewrite Hrm in Hex. destruct Hex as (Ht' & Hp' & Hr').
      destruct (resumeActor_replayable tq
                  (if authoritative client
                   then addEvent (SessionConnSend r)
                          (addEvent (ReplyReceived m r) (set_promises rest st))
                   else addEvent (ReplyReceived m r) (set_promises rest st)) Htq)
        as [Hkids [s Hs]].
      assert (deliver ctx m (ExpectResponse (AwaitActor tq)) (set_promises rest st)
              = Continue s) as Hd.
      { unfold deliver. by rewrite Hrm. }
      rewrite Hd in *. simpl in *. rewrite Hkids in *. intros Hrun.
      eapply (replay_step st s tq (omap awaited_actor rest)
                [(m, ExpectResponse (AwaitActor tq))] rest
                (ReplyReceived m r :: echo r)); try done.
      * simpl. apply sent_echo.
      * simpl. f_equal. apply sent_echo.
      * unfold pending. rewrite Hr', Hp', Hr, omap_app. simpl.
        rewrite <- (pending_spawn (childrenOf tq)) at 3. solve_Permutation.
      * intros Hinv'. by eapply IH.
    + pose proof Hinv as [Hnodes Hprom].
      assert (pending st ≡ₚ tq :: (rest ++ omap awaited_actor (promises st))) as Hpend.
      { unfold pending. by rewrite Hr. }
      assert (replayable tq) as Htq.
      { rewrite Hpend in Hnodes. simpl in Hnodes. rewrite nodes_unfold in Hnodes.
        by apply Forall_cons in Hnodes as [? _]. }
      pose proof (resumeActor_exact tq (set_resumed rest st)) as (Ht' & Hp' & Hr').
      destruct (resumeActor_replayable tq (set_resumed rest st) Htq) as [Hkids [s Hs]].
      rewrite Hs in *. simpl in *. rewrite Hkids in *. intros Hrun.
      eapply (replay_step st s tq (rest ++ omap awaited_actor (promises st))
                [] (promises st) []); try done.
      * unfold pending. rewrite Hr', Hp', omap_app.
        rewrite <- (pending_spawn (childrenOf tq)) at 3. solve_Permutation.
      * intros Hinv'. by eapply IH.
Qed.

(** X9.  When reading the actor id succeeds for every cached actor of the
    forest and every create message sent is answered, the handler of
    create-actors, entered with nothing outstanding, resolves; it has then
    sent the create message of every cached actor that has one exactly once,
    and has received exactly one reply to each message it sent. *)
Theorem create_actors_replays_forest st0 :
  promises st0 = [] → resumed st0 = [] →
  Forall replayable (forest_nodes (rootActors session)) →
  ∃ st' t,
    stage_create_actors st0 = Some (Resolved st') ∧
    trace st' = trace st0 ++ t ∧
    sent t ≡ₚ createMessages (forest_nodes (rootActors session)) ∧
    replied t ≡ₚ sent t.
Proof.
  intros Hp0 Hr0 Hall. unfold stage_create_actors.
  set (st1 := fold_left _ (rootActors session) st0).
  destruct (spawn_exact (rootActors session) st0) as (Ht1 & Hp1 & Hr1).
  fold st1 in Ht1, Hp1, Hr1. simpl in Ht1, Hp1, Hr1.
  rewrite Hp0 in Hp1. rewrite Hr0 in Hr1. simpl in Hp1, Hr1.
  assert (pending st1 ≡ₚ rootActors session) as Hpend.
  { unfold pending. rewrite Hp1, Hr1.
    rewrite <- (pending_spawn (rootActors session)) at 3. solve_Permutation. }
  rewrite forest_nodes_nodes in Hall.
  assert (replay_inv st1) as Hinv.
  { split; [by rewrite Hpend|]. rewrite Hp1. apply Forall_forall.
    intros [m k] (c & _ & Hm & ->)%elem_of_parked. by exists c. }
  destruct (awaitAll_returns AwaitStage st1) as [o Ho]. rewrite Ho.
  destruct (replay_awaitReplies _ _ _ _ Hinv Ho) as (st' & t & -> & Ht & Hs & Hr).
  exists st', (sends (rootActors session) ++ t). split; [done|].
  split; [by rewrite Ht, Ht1, <- app_assoc|].
  rewrite !sent_app, !replied_app, sent_sends, replied_sends. simpl. split.
  - rewrite Hs, forest_nodes_nodes. unfold createMessages.
    by rewrite Hpend, nodes_children, omap_app.
  - by rewrite Hr, Hp1, fst_parked.
Qed.


(** ** A failed sync-animations request *)

(** X10.  The handler of sync-animations, entered with no reply outstanding
    by a client that is not the authoritative one, sends its request on the
    authoritative client's connection; when that request's reply is rejected
    the handler rejects at once and nothing is forwarded to the joining
    client. *)
Theorem sync_animations_rejected st :
  promises st = [] → resumed st = [] →
  Nat.eqb (order (authoritativeClient session)) (order client) = false →
  respond syncAnimationsRequest = None →
  ∃ st',
    stage_sync_animations st = Some (Rejected st') ∧
    trace st' =
      trace st ++
      [ClientSendPayload (authoritativeClient session) (SyncAnimationsPayload None);
       ReplyFailed syncAnimationsRequest] ∧
    promises st' = [] ∧
    queuedMessages st' = queuedMessages st.
Proof.
  intros Hp Hr Hord Hnone. unfold stage_sync_animations. rewrite Hord.
  unfold awaitAll, weight, Client_sendPayload. simpl. rewrite Hp, Hr. simpl.
  rewrite Hr. unfold deliver. fold syncAnimationsRequest. rewrite Hnone. simpl.
  eexists. split; [reflexivity|]. simpl. by rewrite <- app_assoc.
Qed.

(** ** A queued message on its way out *)

Lemma resend_promises qs : ∀ st,
  Forall (fun q => allowedNow st q = true) qs →
  promises
    (fold_left (fun s q => sendMessage (queued_message q) (queued_promise q) s) qs st)
  = promises st ++ omap queued_continuation qs.
Proof.
  induction qs as [|q qs IH]; intros st Hall; simpl; [by rewrite app_nil_r|].
  apply Forall_cons in Hall as [Hq Hall].
  assert (handlingForMessage st (queued_message q) = Allow) as Hallow.
  { unfold allowedNow in Hq. by apply bool_decide_eq_true in Hq. }
  assert (sendMessage (queued_message q) (queued_promise q) st
          = Protocol_sendMessage (queued_message q) (CallerPromise <$> queued_promise q) st)
    as Hsend.
  { unfold sendMessage. by rewrite Hallow. }
  rewrite Hsend, IH.
  - unfold queued_continuation, Protocol_sendMessage.
    destruct (queued_promise q) as [p|]; simpl; [|done]. by rewrite <- app_assoc.
  - eapply Forall_impl; [exact Hall|]. intros q' Hq'. simpl in *.
    rewrite <- Hq'. apply allowedNow_ext; unfold Protocol_sendMessage;
      by destruct (queued_promise q).
Qed.

Lemma caller_awaitReplies m p fuel : ∀ stuck st st',
  (m, CallerPromise p) ∈ promises st →
  awaitReplies fuel AwaitDrain stuck st = Some (Resolved st') →
  ∃ r t, respond m = Some r ∧ trace st' = trace st ++ t ∧ PromiseResolved p r ∈ t.
Proof.
  induction fuel as [|fuel IH]; intros stuck st st' Hin; rewrite awaitReplies_unfold.
  - destruct (resumed st); [|done].
    destruct (pick _ _) as [[[m0 k0] rest]|] eqn:Hpick; [done|].
    apply pick_None in Hpick. rewrite Hpick in Hin. by apply elem_of_nil in Hin.
  - assert (Hgo : ∀ T stuck',
              (m, CallerPromise p) ∈ promises (turn_state T) →
              extends st (turn_state T) →
              match T with
              | Continue s | Stuck s => awaitReplies fuel AwaitDrain stuck' s
              | Throw s => Some (Rejected s)
              end = Some (Resolved st') →
              ∃ r t, respond m = Some r ∧ trace st' = trace st ++ t ∧
                     PromiseResolved p r ∈ t).
    { intros T stuck' Hin' [c Hc] Hrun.
      destruct T as [s|s|s]; [| |done]; simpl in *;
        destruct (IH _ _ _ Hin' Hrun) as (r & t & Hr & Ht & Hp);
        exists r, (c ++ t); (split; [done|]);
        (split; [by rewrite Ht, Hc, app_assoc|]); apply elem_of_app; by right. }
    destruct (resumed st) as [|tq rest] eqn:Hr.
    + destruct (pick _ _) as [[[m0 k0] rest]|] eqn:Hpick.
      2:{ apply pick_None in Hpick. rewrite Hpick in Hin. by apply elem_of_nil in Hin. }
      apply pick_Some in Hpick. rewrite Hpick in Hin.
      apply elem_of_cons in Hin as [[= <- <-]|Hin].
      * unfold deliver. destruct (respond m) as [r|] eqn:Hrm; [|done].
        intros Hrun. apply quiet_awaitReplies in Hrun as (_ & _ & t & Ht & _).
        simpl in Ht. exists r, ([ReplyReceived m r; PromiseResolved p r] ++ t).
        split; [done|]. split; [by rewrite Ht, <- !app_assoc|].
        apply elem_of_app. left. apply elem_of_cons. right. by apply elem_of_cons; left.
      * intros Hrun.
        pose proof (quiet_extends _ _
                      (quiet_deliver AwaitDrain m0 k0 (set_promises rest st))) as Hext.
        pose proof (promises_grow_deliver AwaitDrain m0 k0 (set_promises rest st)
                      (m, CallerPromise p) Hin) as Hin'.
        destruct (deliver _ _ _ _) as [s|s|s] eqn:Hd; [| |done].
        -- by apply (Hgo (Continue s) stuck).
        -- by apply (Hgo (Stuck s) true).
    + intros Hrun.
      pose proof (quiet_extends _ _ (quiet_resumeActor tq (set_resumed rest st))) as Hext.
      pose proof (promises_grow_resumeActor tq (set_resumed rest st)
                    (m, CallerPromise p) Hin) as Hin'.
      destruct (resumeActor _ _) as [s|s|s] eqn:Hd; [| |done].
      * by apply (Hgo (Continue s) stuck).
      * by apply (Hgo (Stuck s) true).
Qed.

Lemma elem_of_taken st q :
  q ∈ taken st ↔ q ∈ queuedMessages st ∧ allowedNow st q = true.
Proof. unfold taken. rewrite !list_elem_of_In. apply filter_In. Qed.

Lemma elem_of_remaining st q :
  q ∈ remaining st ↔ q ∈ queuedMessages st ∧ allowedNow st q = false.
Proof.
  unfold remaining. rewrite !list_elem_of_In, filter_In.
  destruct (allowedNow st q); simpl; split; intros [? ?]; done.
Qed.

(** One iteration of the drain that finds something to send. *)
Lemma sendQueuedMessages_once fuel st :
  taken st ≠ [] →
  let st1 :=
    fold_left (fun s q => sendMessage (queued_message q) (queued_promise q) s)
      (taken st) (set_queuedMessages (remaining st) st) in
  trace st1 = trace st ++ forwarded (taken st) ∧
  promises st1 = promises st ++ omap queued_continuation (taken st) ∧
  ∃ o1 t,
    drainPromises st1 = Some o1 ∧
    trace (outcome_state o1) = trace st1 ++ t ∧
    queuedMessages (outcome_state o1) = remaining st ∧
    sendQueuedMessages (S fuel) st =
      Some match o1 with
           | Resolved st2 => Resolved (set_queuedMessages (remaining st2) st2)
           | other => other
           end ∧
    ∀ st2, o1 = Resolved st2 → remaining st2 = remaining st.
Proof.
  intros Hne st1.
  assert (Forall (fun q => allowedNow (set_queuedMessages (remaining st) st) q = true)
            (taken st)) as Hall.
  { eapply Forall_impl; [apply taken_allowed|]. intros q Hq. simpl in Hq.
    by rewrite (allowedNow_ext st). }
  destruct (resend_allowed (taken st) (set_queuedMessages (remaining st) st) Hall)
    as (Hq1 & _ & Hi1 & Hc1 & Ht1).
  pose proof (resend_promises (taken st) _ Hall) as Hp1.
  fold st1 in Hq1, Hi1, Hc1, Ht1, Hp1. simpl in Hq1, Hi1, Hc1, Ht1, Hp1.
  split; [done|]. split; [done|].
  destruct (awaitAll_returns AwaitDrain st1) as [o1 Ho1].
  pose proof (quiet_awaitAll _ _ _ Ho1) as (Hi2 & Hc2 & t & Ht & _).
  pose proof (same_awaitReplies _ _ _ _ _ Ho1) as [Hq2 _].
  exists o1, t. split; [done|]. split; [done|]. split; [congruence|].
  assert (∀ st2, o1 = Resolved st2 →
            taken st2 = [] ∧ remaining st2 = remaining st) as Hend.
  { intros st2 ->. simpl in *. apply (taken_nil_after st); congruence. }
  split; [|intros st2 Hst2; by apply Hend].
  rewrite sendQueuedMessages_unfold.
  assert (∀ (l : list QueuedMessage) (a b : option Outcome),
            l ≠ [] → match l with [] => a | _ :: _ => b end = b) as Hcons
    by (by intros [|]).
  rewrite Hcons by done. subst st1. unfold drainPromises. rewrite Ho1.
  destruct o1 as [st2|st2|st2]; [|done..].
  rewrite sendQueuedMessages_unfold. by destruct (Hend st2 eq_refl) as [-> _].
Qed.

(** X11.  A message [m] sent with continuation [p] in a state [st] where the
    router classifies it [queue] is appended to the client's queue and
    nothing is sent.  In a later state [st2] whose queue still holds the
    entry and where [m] is classified [allow], the drain takes the entry out
    of the queue and hands [m] to the transport, with a reply expected
    exactly when it was queued with a continuation; and when that drain
    resolves, the continuation has been resolved with the reply. *)
Theorem queued_message_round_trip st m p st2 :
  let q := {| queued_message := m; queued_promise := p |} in
  handlingForMessage st m = Queue →
  q ∈ queuedMessages st2 →
  handlingForMessage st2 m = Allow →
  (queuedMessages (sendMessage m p st) = queuedMessages st ++ [q] ∧
   trace (sendMessage m p st) = trace st ∧
   promises (sendMessage m p st) = promises st) ∧
  ∃ o t,
    sendAllQueuedMessages st2 = Some o ∧
    trace (outcome_state o) = trace st2 ++ t ∧
    ProtocolSendMessage m (bool_decide (is_Some p)) ∈ t ∧
    (q ∉ queuedMessages (outcome_state o)) ∧
    ∀ cp st', p = Some cp → o = Resolved st' →
      ∃ r, respond m = Some r ∧ PromiseResolved cp r ∈ t.
Proof.
  intros q Hqueue Hin Hallow. split.
  { unfold sendMessage. by rewrite Hqueue. }
  assert (q ∈ taken st2) as Htaken.
  { apply elem_of_taken. split; [done|]. unfold allowedNow. by apply bool_decide_eq_true. }
  assert (taken st2 ≠ []) as Hne.
  { intros Hnil. rewrite Hnil in Htaken. by apply elem_of_nil in Htaken. }
  destruct (sendQueuedMessages_once (length (queuedMessages st2)) st2 Hne)
    as (Ht1 & Hp1 & o1 & t & Ho1 & Ht & Hq & Hrun & Hrem).
  unfold sendAllQueuedMessages. rewrite Hrun.
  assert (q ∉ remaining st2) as Hnotin.
  { intros [_ Hq']%elem_of_remaining. apply elem_of_taken in Htaken as [_ Hq'']. congruence. }
  assert (ProtocolSendMessage m (bool_decide (is_Some p)) ∈ forwarded (taken st2)) as Hfw.
  { unfold forwarded. apply list_elem_of_fmap. by exists q. }
  eexists _, (forwarded (taken st2) ++ t). split; [done|].
  destruct o1 as [st3|st3|st3]; simpl in *.
  - split; [by rewrite Ht, Ht1, <- app_assoc|].
    split; [apply elem_of_app; by left|].
    split; [by rewrite (Hrem st3 eq_refl)|].
    intros cp st' -> [= <-].
    destruct (caller_awaitReplies m cp _ _ _ _
                ltac:(rewrite Hp1; apply elem_of_app; right;
                      apply list_elem_of_omap; by exists q) Ho1)
      as (r & t' & Hr & Ht' & Hres).
    exists r. split; [done|]. apply elem_of_app. right.
    rewrite Ht in Ht'. by apply app_inv_head in Ht' as ->.
  - split; [by rewrite Ht, Ht1, <- app_assoc|].
    split; [apply elem_of_app; by left|]. split; [by rewrite Hq|]. done.
  - split; [by rewrite Ht, Ht1, <- app_assoc|].
    split; [apply elem_of_app; by left|]. split; [by rewrite Hq|]. done.
Qed.


(** ** The store along a run *)

Lemma keeps_objects_refl st : keeps_objects st st.
Proof. by intros l o. Qed.

Lemma keeps_objects_trans st1 st2 st3 :
  keeps_objects st1 st2 → keeps_objects st2 st3 → keeps_objects st1 st3.
Proof. intros H12 H23 l o Hl. by apply H23, H12. Qed.

Lemma keeps_objects_eq st st' : objects st' = objects st → keeps_objects st st'.
Proof. intros Heq l o. by rewrite Heq. Qed.

Lemma fold_left_objects {A} (f : State → A → State) l : ∀ st,
  (∀ s x, objects (f s x) = objects s) → objects (fold_left f l st) = objects st.
Proof.
  induction l as [|x l IH]; intros st Hf; simpl; [done|]. by rewrite IH, Hf.
Qed.

Lemma objects_sendMessage m p st : objects (sendMessage m p st) = objects st.
Proof.
  unfold sendMessage, Protocol_sendMessage.
  destruct (handlingForMessage st m); try done. by destruct p.
Qed.

Lemma awaitAll_keeps_objects ctx st o :
  awaitAll ctx st = Some o → keeps_objects st (outcome_state o).
Proof. intros Ho. apply keeps_objects_eq. by apply same_awaitReplies in Ho as [_ ?]. Qed.

Lemma executeStage_keeps_objects s st o :
  executeStage s st = Some o → keeps_objects st (outcome_state o).
Proof.
  destruct s; simpl.
  - intros [= <-]. by apply keeps_objects_eq.
  - unfold stage_load_assets.
    set (st1 := fold_left _ (assets session) st).
    assert (keeps_objects st st1) as H1.
    { apply keeps_objects_eq, fold_left_objects. by intros s m. }
    destruct (awaitAll AwaitStage st1) as [o1|] eqn:Ho1; [|done].
    apply awaitAll_keeps_objects in Ho1.
    assert (keeps_objects st (outcome_state o1)) as H2 by by eapply keeps_objects_trans.
    destruct o1 as [st2|st2|st2]; intros [= <-]; try done.
    eapply keeps_objects_trans; [exact H2|].
    apply keeps_objects_eq, fold_left_objects. intros s p. apply objects_sendMessage.
  - unfold stage_create_actors. intros Ho. apply awaitAll_keeps_objects in Ho.
    eapply keeps_objects_trans; [|exact Ho].
    apply keeps_objects_eq. by destruct (same_spawn (rootActors session) st).
  - unfold stage_create_animations. intros [= <-]. simpl.
    set (st1 := fold_left _ (actors session) st).
    destruct (interpolations_pass (actors session) st) as (H1 & _).
    destruct (animations_pass (actors session) st1) as (H2 & _).
    eapply keeps_objects_trans; [exact H1|]. by apply keeps_objects_eq.
  - unfold stage_sync_animations.
    destruct (_ =? _); [intros [= <-]; apply keeps_objects_refl|].
    intros Ho. by apply awaitAll_keeps_objects in Ho.
  - intros [= <-]. apply keeps_objects_eq.
    by destruct (behaviors_pass (actors session) st) as (_ & _ & _ & _ & ?).
  - intros [= <-]. by apply keeps_objects_eq.
Qed.

Lemma drain_keeps_objects st o :
  sendAllQueuedMessages st = Some o → keeps_objects st (outcome_state o).
Proof.
  intros Ho. destruct (sendAllQueuedMessages_drained st) as (o' & Ho' & Hd).
  rewrite Ho in Ho'. injection Ho' as <-. apply keeps_objects_eq.
  by destruct Hd as (_ & _ & ? & _).
Qed.

Lemma runStages_keeps_objects stages : ∀ st o,
  runStages stages st = Some o → keeps_objects st (outcome_state o).
Proof.
  induction stages as [|s stages IH]; intros st o; simpl.
  - intros [= <-]. apply keeps_objects_refl.
  - destruct (executeStage s (beginStage s st)) as [o1|] eqn:Ho1; [|done].
    apply executeStage_keeps_objects in Ho1.
    destruct o1 as [st1|st1|st1]; [|by intros [= <-]..].
    destruct (sendAllQueuedMessages (completeStage s st1)) as [o2|] eqn:Ho2; [|done].
    apply drain_keeps_objects in Ho2.
    assert (keeps_objects st (outcome_state o2)) as H2.
    { eapply keeps_objects_trans; [exact Ho1|exact Ho2]. }
    destruct o2 as [st2|st2|st2]; [|by intros [= <-]..].
    intros Hrun. eapply keeps_objects_trans; [exact H2|]. by apply IH.
Qed.

(** X12.  A run of the driver never removes or changes an object of the
    store of cached payloads, whatever its outcome: every object present when
    the run starts is present, with the same properties, when it ends.  (The
    copies made by create-animations are new objects.) *)
Theorem run_keeps_cache st :
  ∃ o, run st = Some o ∧
       ∀ l obj, objects st !! l = Some obj →
                objects (outcome_state o) !! l = Some obj.
Proof.
  destruct (run_spec st) as (o & Ho & _). exists o. split; [done|].
  revert Ho. unfold run.
  assert (∃ o1, (if peerAuthoritative session
                 then runStages sequence (beginStage StageAlways st)
                 else Some (Resolved (beginStage StageAlways st))) = Some o1 ∧
                keeps_objects st (outcome_state o1)) as (o1 & -> & H1).
  { destruct (peerAuthoritative session).
    - destruct (runStages sequence (beginStage StageAlways st)) as [o1|] eqn:Ho1.
      + exists o1. split; [done|]. by apply runStages_keeps_objects in Ho1.
      + destruct (runStages_spec sequence (beginStage StageAlways st)) as (? & ? & _).
        congruence.
    - eexists. split; [done|]. by apply keeps_objects_eq. }
  destruct o1 as [st1|st1|st1]; [|by intros [= <-]..].
  intros Ho. apply drain_keeps_objects in Ho.
  eapply keeps_objects_trans; [exact H1|exact Ho].
Qed.


(** ** What the stages leave outstanding *)

(** X13.  The handler of create-animations resolves without observing any
    reply, whatever the session and the state: it sends every cached
    create-animation message expecting a reply, in the order of the cache,
    and every one of these replies is still outstanding when it returns. *)
Theorem create_animations_awaits_nothing st :
  ∃ st' t,
    stage_create_animations st = Some (Resolved st') ∧
    trace st' = trace st ++ t ∧
    Forall (fun e => is_reply_event e = false) t ∧
    sent t =
      map animation_message
        (flat_map (fun a => default [] (createdAnimations a)) (actors session)) ∧
    promises st' =
      promises st ++
      map (fun ca => (animation_message ca, ExpectResponse AwaitNothing))
        (flat_map (fun a => default [] (createdAnimations a)) (actors session)).
Proof.
  destruct (create_animations_outstanding st) as (st' & t1 & Hrun & Hp & Ht & Hall).
  exists st', (t1 ++ map (fun ca => ProtocolSendMessage (animation_message ca) true)
                 (flat_map (fun a => default [] (createdAnimations a)) (actors session))).
  split; [done|]. split; [done|]. split; [|split; [|done]].
  - apply Forall_app. split.
    + eapply Forall_impl; [exact Hall|]. by intros e [o ->].
    + by apply Forall_map, Forall_true.
  - rewrite sent_app.
    assert (sent t1 = []) as ->.
    { clear Ht. induction Hall as [|e t1 [o ->] _ IH]; [done|]. exact IH. }
    simpl. generalize (flat_map (fun a => default [] (createdAnimations a))
                         (actors session)).
    intros l. induction l as [|ca l IH]; [done|]. simpl. f_equal. exact IH.
Qed.

Lemma executeStage_settled s st st1 :
  s ∈ [StageLoadAssets; StageCreateActors; StageSetBehaviors] →
  promises st = [] → resumed st = [] →
  executeStage s st = Some (Resolved st1) →
  promises st1 = [] ∧ resumed st1 = [].
Proof.
  intros Hs Hp Hr.
  apply elem_of_cons in Hs as [->|Hs]; [|apply elem_of_cons in Hs as [->|Hs]];
    [| |apply list_elem_of_singleton in Hs as ->]; simpl.
  - apply load_assets_settled.
  - unfold stage_create_actors. apply awaitReplies_settled.
  - intros [= <-].
    destruct (behaviors_pass (actors session) st) as (_ & Hp1 & Hr1 & _).
    simpl in *. by rewrite Hp1, Hr1.
Qed.

(** X14.  While the application sends no message of its own (the driver
    alone is running), a pass of the driver over load-assets, create-actors
    and set-behaviors that starts with no reply outstanding and resolves ends
    with no reply outstanding: each of these handlers, and create-animations
    after them, is then entered with nothing to wait for. *)
Theorem stages_entered_settled stages st st' :
  stages `prefix_of` [StageLoadAssets; StageCreateActors; StageSetBehaviors] →
  promises st = [] → resumed st = [] →
  runStages stages st = Some (Resolved st') →
  promises st' = [] ∧ resumed st' = [].
Proof.
  intros Hpre.
  assert (Forall (fun s => s ∈ [StageLoadAssets; StageCreateActors; StageSetBehaviors])
            stages) as Hall.
  { destruct Hpre as [k Hk]. apply Forall_forall. intros s Hs. rewrite Hk.
    apply elem_of_app. by left. }
  clear Hpre. revert st.
  induction Hall as [|s stages Hs _ IH]; intros st Hp Hr; simpl.
  - by intros [= <-].
  - destruct (executeStage s (beginStage s st)) as [[st1|st1|st1]|] eqn:Ho1; try done.
    apply executeStage_settled in Ho1 as [Hp1 Hr1]; [|done..].
    destruct (sendAllQueuedMessages (completeStage s st1)) as [[st2|st2|st2]|] eqn:Ho2;
      try done.
    apply sendAllQueuedMessages_settled in Ho2 as [Hp2 Hr2]; [|done..].
    by apply IH.
Qed.

(** ** The queue along a run *)

Lemma queue_from_refl st : queue_from st st.
Proof. intros q Hq. by left. Qed.

Lemma queue_from_trans st1 st2 st3 :
  queue_from st1 st2 → queue_from st2 st3 → queue_from st1 st3.
Proof.
  intros H12 H23 q Hq. destruct (H23 q Hq) as [Hq2|Hq2]; [by apply H12|by right].
Qed.

Lemma queue_from_eq st st' :
  queuedMessages st' = queuedMessages st → queue_from st st'.
Proof. intros Heq q. rewrite Heq. by left. Qed.

Lemma fold_left_queue {A} (f : State → A → State) l : ∀ st,
  (∀ s x, queuedMessages (f s x) = queuedMessages s) →
  queuedMessages (fold_left f l st) = queuedMessages st.
Proof.
  induction l as [|x l IH]; intros st Hf; simpl; [done|]. by rewrite IH, Hf.
Qed.

Lemma asset_updates_queue_from l : ∀ st,
  l ⊆ assetUpdates session →
  queue_from st (fold_left (fun s p => sendMessage (messageOf p) None s) l st).
Proof.
  induction l as [|p l IH]; intros st Hl; simpl; [apply queue_from_refl|].
  eapply queue_from_trans; [|apply IH].
  - intros q. unfold sendMessage, queueMessage.
    destruct (handlingForMessage st (messageOf p)); simpl; try by left.
    intros [Hq|Hq]%elem_of_app; [by left|]. right.
    apply list_elem_of_singleton in Hq as ->. exists p. split; [|done].
    apply Hl, elem_of_cons. by left.
  - intros x Hx. apply Hl, elem_of_cons. by right.
Qed.

Lemma awaitAll_queue_from ctx st o :
  awaitAll ctx st = Some o → queue_from st (outcome_state o).
Proof. intros Ho. apply queue_from_eq. by apply same_awaitReplies in Ho as [? _]. Qed.

Lemma executeStage_queue_from s st o :
  executeStage s st = Some o → queue_from st (outcome_state o).
Proof.
  destruct s; simpl.
  - intros [= <-]. by apply queue_from_eq.
  - unfold stage_load_assets.
    set (st1 := fold_left _ (assets session) st).
    assert (queue_from st st1) as H1.
    { apply queue_from_eq, fold_left_queue. by intros s m. }
    destruct (awaitAll AwaitStage st1) as [o1|] eqn:Ho1; [|done].
    apply awaitAll_queue_from in Ho1.
    assert (queue_from st (outcome_state o1)) as H2 by by eapply queue_from_trans.
    destruct o1 as [st2|st2|st2]; intros [= <-]; try done.
    eapply queue_from_trans; [exact H2|]. by apply asset_updates_queue_from.
  - unfold stage_create_actors. intros Ho. apply awaitAll_queue_from in Ho.
    eapply queue_from_trans; [|exact Ho].
    apply queue_from_eq. by destruct (same_spawn (rootActors session) st).
  - unfold stage_create_animations. intros [= <-]. simpl.
    set (st1 := fold_left _ (actors session) st).
    apply queue_from_eq. subst st1.
    rewrite fold_left_queue; [apply fold_left_queue|].
    + intros s a. unfold createActorInterpolations. apply fold_left_queue.
      intros s' l. by destruct (forwardInterpolation_exact s' l) as (_ & ? & _).
    + intros s a. unfold createActorAnimations. apply fold_left_queue. by intros s' ca.
  - unfold stage_sync_animations.
    destruct (_ =? _); [intros [= <-]; apply queue_from_refl|].
    intros Ho. by apply awaitAll_queue_from in Ho.
  - intros [= <-]. apply queue_from_eq.
    by destruct (behaviors_pass (actors session) st) as (_ & _ & _ & ? & _).
  - intros [= <-]. by apply queue_from_eq.
Qed.

Lemma drain_queue_from st o :
  sendAllQueuedMessages st = Some o → queue_from st (outcome_state o).
Proof.
  intros Ho. destruct (sendAllQueuedMessages_drained st) as (o' & Ho' & Hd).
  rewrite Ho in Ho'. injection Ho' as <-.
  destruct Hd as (_ & Hq & _). intros q. rewrite Hq.
  intros [? _]%elem_of_remaining. by left.
Qed.

Lemma runStages_queue_from stages : ∀ st o,
  runStages stages st = Some o → queue_from st (outcome_state o).
Proof.
  induction stages as [|s stages IH]; intros st o; simpl.
  - intros [= <-]. apply queue_from_refl.
  - destruct (executeStage s (beginStage s st)) as [o1|] eqn:Ho1; [|done].
    apply executeStage_queue_from in Ho1.
    destruct o1 as [st1|st1|st1]; [|by intros [= <-]..].
    destruct (sendAllQueuedMessages (completeStage s st1)) as [o2|] eqn:Ho2; [|done].
    apply drain_queue_from in Ho2.
    assert (queue_from st (outcome_state o2)) as H2.
    { eapply queue_from_trans; [exact Ho1|exact Ho2]. }
    destruct o2 as [st2|st2|st2]; [|by intros [= <-]..].
    intros Hrun. eapply queue_from_trans; [exact H2|]. by apply IH.
Qed.

(** X15.  While the application sends no message of its own (the driver
    alone is running), and whatever the outcome of the run, every message
    left in the client's queue was queued before the run or is a cached asset
    update that load-assets routed through [sendMessage].  The cached
    load-assets, create-actor and create-animation messages are sent with
    [super.sendMessage] and never enter the queue; nor do the payloads sent
    with the parent's [sendPayload], taken as a raw send. *)
Theorem run_queue_origin st :
  ∃ o, run st = Some o ∧
       ∀ q, q ∈ queuedMessages (outcome_state o) →
            q ∈ queuedMessages st ∨
            ∃ p, p ∈ assetUpdates session ∧
                 q = {| queued_message := messageOf p; queued_promise := None |}.
Proof.
  destruct (run_spec st) as (o & Ho & _). exists o. split; [done|].
  revert Ho. unfold run.
  assert (∃ o1, (if peerAuthoritative session
                 then runStages sequence (beginStage StageAlways st)
                 else Some (Resolved (beginStage StageAlways st))) = Some o1 ∧
                queue_from st (outcome_state o1)) as (o1 & -> & H1).
  { destruct (peerAuthoritative session).
    - destruct (runStages sequence (beginStage StageAlways st)) as [o1|] eqn:Ho1.
      + exists o1. split; [done|]. by apply runStages_queue_from in Ho1.
      + destruct (runStages_spec sequence (beginStage StageAlways st)) as (? & ? & _).
        congruence.
    - eexists. split; [done|]. by apply queue_from_eq. }
  destruct o1 as [st1|st1|st1]; [|by intros [= <-]..].
  intros Ho. apply drain_queue_from in Ho.
  eapply queue_from_trans; [exact H1|exact Ho].
Qed.


(** ** A failed asset ends the run *)

(** X16.  When the session is peer-authoritative and one of its cached
    load-assets messages is not answered, the run of a fresh [ClientSync]
    rejects inside load-assets: no stage is completed, no later stage is
    begun, the queue is as it was, and [sync-complete] is never sent. *)
Theorem run_rejects_on_failed_asset queue cache :
  peerAuthoritative session = true →
  Exists (fun m => respond m = None) (assets session) →
  ∃ st',
    run (newClientSync queue cache) = Some (Rejected st') ∧
    driver_events (trace st') =
      [LogBeginStage StageAlways; LogBeginStage StageLoadAssets] ∧
    inProgressStages st' = [StageAlways; StageLoadAssets] ∧
    completedStages st' = [] ∧
    queuedMessages st' = queue ∧
    sync_complete_count (trace st') = 0.
Proof.
  intros Hpa Hex. unfold run. rewrite Hpa. unfold sequence. simpl runStages.
  set (st0 := beginStage StageLoadAssets
                (beginStage StageAlways (newClientSync queue cache))).
  destruct (load_assets_cases st0) as (o & order & rest & Ho & Hperm & Hout);
    [done..|].
  change (executeStage StageLoadAssets st0) with (stage_load_assets st0).
  rewrite Ho.
  pose proof (quiet_executeStage StageLoadAssets st0 o Ho) as Hquiet.
  destruct o as [st'|st'|st']; [|clear Hperm|done].
  - exfalso. destruct Hout as (-> & Hans & _). rewrite app_nil_r in Hperm.
    apply Exists_exists in Hex as (m & Hm & Hnone).
    rewrite Hperm in Hm. rewrite Forall_forall in Hans.
    destruct (Hans m Hm) as [r Hr]. congruence.
  - exists st'. split; [done|].
    pose proof (quiet_driver_events _ _ Hquiet) as Hd.
    destruct Hquiet as (Hi & Hc & _). destruct Hout as (_ & _ & Hq). simpl in *.
    split; [done|]. split; [done|]. split; [done|]. split; [done|].
    by rewrite <- sync_complete_count_driver_events, Hd.
Qed.


(** ** The errors a run can report *)

Lemma only_expected_refl st : only_expected st st.
Proof. exists []. by rewrite app_nil_r. Qed.

Lemma only_expected_trans st1 st2 st3 :
  only_expected st1 st2 → only_expected st2 st3 → only_expected st1 st3.
Proof.
  intros (t1 & Ht1 & H1) (t2 & Ht2 & H2). exists (t1 ++ t2).
  split; [by rewrite Ht2, Ht1, app_assoc|]. by apply Forall_app.
Qed.

Lemma only_expected_trace st st' t :
  trace st' = trace st ++ t → Forall expected_event t → only_expected st st'.
Proof. intros Ht Hall. by exists t. Qed.

Lemma only_expected_addEvent e st st1 :
  expected_event e → only_expected st st1 → only_expected st (addEvent e st1).
Proof.
  intros He H1. eapply only_expected_trans; [exact H1|].
  apply (only_expected_trace _ _ [e]); [done|by constructor].
Qed.

Lemma only_expected_set_promises l st st1 :
  only_expected st st1 → only_expected st (set_promises l st1).
Proof. intros (t & Ht & Hall). by exists t. Qed.

Lemma only_expected_set_resumed l st st1 :
  only_expected st st1 → only_expected st (set_resumed l st1).
Proof. intros (t & Ht & Hall). by exists t. Qed.

Lemma only_expected_set_queuedMessages l st st1 :
  only_expected st st1 → only_expected st (set_queuedMessages l st1).
Proof. intros (t & Ht & Hall). by exists t. Qed.

Lemma only_expected_set_inProgressStages l st st1 :
  only_expected st st1 → only_expected st (set_inProgressStages l st1).
Proof. intros (t & Ht & Hall). by exists t. Qed.

Lemma only_expected_set_completedStages l st st1 :
  only_expected st st1 → only_expected st (set_completedStages l st1).
Proof. intros (t & Ht & Hall). by exists t. Qed.

Ltac only_expected_steps :=
  repeat first
    [ apply only_expected_refl
    | apply only_expected_addEvent; [try exact I|]
    | apply only_expected_set_promises
    | apply only_expected_set_resumed
    | apply only_expected_set_queuedMessages
    | apply only_expected_set_inProgressStages
    | apply only_expected_set_completedStages ].

Lemma only_expected_fold_left {A} (f : State → A → State) l : ∀ st,
  (∀ s x, x ∈ l → only_expected s (f s x)) → only_expected st (fold_left f l st).
Proof.
  induction l as [|x l IH]; intros st Hf; simpl; [apply only_expected_refl|].
  eapply only_expected_trans; [apply Hf, elem_of_cons; by left|].
  apply IH. intros s y Hy. apply Hf, elem_of_cons. by right.
Qed.

Lemma expected_sends kids : Forall expected_event (sends kids).
Proof. apply Forall_forall. by intros e (c & m & _ & _ & ->)%elem_of_sends. Qed.

Lemma only_expected_Protocol_sendMessage m k st :
  only_expected st (Protocol_sendMessage m k st).
Proof.
  unfold Protocol_sendMessage. destruct k; only_expected_steps.
Qed.

Lemma only_expected_resumeActor t st :
  only_expected st (turn_state (resumeActor t st)).
Proof.
  destruct (resumeActor_exact t st) as (Ht & _).
  eapply only_expected_trace; [exact Ht|apply expected_sends].
Qed.

Lemma only_expected_deliver ctx m k st :
  only_expected st (turn_state (deliver ctx m k st)).
Proof.
  unfold deliver. destruct (respond m) as [r|].
  - assert (only_expected st
              (if authoritative client
               then addEvent (SessionConnSend r) (addEvent (ReplyReceived m r) st)
               else addEvent (ReplyReceived m r) st)) as Hecho.
    { destruct (authoritative client); only_expected_steps. }
    destruct k as [[|t|]|p|]; simpl; try exact Hecho.
    + eapply only_expected_trans; [exact Hecho|apply only_expected_resumeActor].
    + only_expected_steps.
    + unfold Protocol_sendPayload.
      destruct (payload r) as [|[l|]| | | |]; simpl; only_expected_steps.
  - destruct k as [[|t|]|p|], ctx; simpl; only_expected_steps.
Qed.

Lemma only_expected_awaitAll ctx st o :
  awaitAll ctx st = Some o → only_expected st (outcome_state o).
Proof.
  apply (awaitReplies_rel only_expected).
  - apply only_expected_refl.
  - apply only_expected_trans.
  - intros l s. only_expected_steps.
  - intros l s. only_expected_steps.
  - apply only_expected_deliver.
  - apply only_expected_resumeActor.
Qed.

(** The router reports an invalid message only when the rule says so; here
    the message is a cached asset update. *)
Lemma only_expected_update p st :
  p ∈ assetUpdates session → only_expected st (sendMessage (messageOf p) None st).
Proof.
  intros Hp. unfold sendMessage.
  destruct (handlingForMessage st (messageOf p)).
  - apply only_expected_Protocol_sendMessage.
  - unfold queueMessage. only_expected_steps.
  - apply only_expected_refl.
  - apply only_expected_addEvent; [|apply only_expected_refl]. by exists p.
Qed.

Lemma only_expected_executeStage s st o :
  s ∈ sequence →
  executeStage s st = Some o → only_expected st (outcome_state o).
Proof.
  intros Hs. destruct s; simpl.
  - exfalso. unfold sequence in Hs. rewrite !elem_of_cons, elem_of_nil in Hs.
    by destruct Hs as [?|[?|[?|[?|[?|?]]]]].
  - unfold stage_load_assets.
    set (st1 := fold_left _ (assets session) st).
    assert (only_expected st st1) as H1.
    { apply only_expected_fold_left. intros s m _.
      apply only_expected_Protocol_sendMessage. }
    destruct (awaitAll AwaitStage st1) as [o1|] eqn:Ho1; [|done].
    apply only_expected_awaitAll in Ho1.
    assert (only_expected st (outcome_state o1)) as H2
      by by eapply only_expected_trans.
    destruct o1 as [st2|st2|st2]; intros [= <-]; try done.
    eapply only_expected_trans; [exact H2|].
    apply only_expected_fold_left. intros s p Hp. by apply only_expected_update.
  - unfold stage_create_actors. intros Ho%only_expected_awaitAll.
    eapply only_expected_trans; [|exact Ho].
    destruct (spawn_exact (rootActors session) st) as (Ht & _).
    eapply only_expected_trace; [exact Ht|apply expected_sends].
  - unfold stage_create_animations. intros [= <-]. simpl.
    eapply only_expected_trans.
    + apply (only_expected_fold_left (fun s a => createActorInterpolations a s)).
      intros s a _. unfold createActorInterpolations.
      apply only_expected_fold_left. intros s' l _.
      destruct (forwardInterpolation_exact s' l) as (_ & _ & _ & Ht).
      eapply only_expected_trace; [exact Ht|]. by destruct (objects s' !! l); repeat constructor.
    + apply only_expected_fold_left. intros s a _.
      destruct (createActorAnimations_exact a s) as (_ & _ & Ht).
      eapply only_expected_trace; [exact Ht|]. by apply Forall_map, Forall_true.
  - unfold stage_sync_animations. destruct (_ =? _).
    + intros [= <-]. apply only_expected_refl.
    + intros Ho%only_expected_awaitAll. eapply only_expected_trans; [|exact Ho].
      unfold Client_sendPayload. only_expected_steps.
  - intros [= <-].
    destruct (behaviors_pass (actors session) st) as (Ht & _).
    eapply only_expected_trace; [exact Ht|]. by apply Forall_map, Forall_true.
  - exfalso. unfold sequence in Hs. rewrite !elem_of_cons, elem_of_nil in Hs.
    by destruct Hs as [?|[?|[?|[?|[?|?]]]]].
Qed.

Lemma only_expected_drain fuel : ∀ st o,
  sendQueuedMessages fuel st = Some o → only_expected st (outcome_state o).
Proof.
  induction fuel as [|fuel IH]; intros st o; rewrite sendQueuedMessages_unfold.
  - destruct (taken st); [|done]. intros [= <-]. simpl. only_expected_steps.
  - destruct (taken st) as [|q qs] eqn:Htaken.
    { intros [= <-]. simpl. only_expected_steps. }
    rewrite <- Htaken. clear q qs Htaken.
    set (st1 := fold_left _ (taken st) (set_queuedMessages (remaining st) st)).
    assert (only_expected st st1) as H1.
    { destruct (resend_allowed (taken st) (set_queuedMessages (remaining st) st))
        as (_ & _ & _ & _ & Ht).
      { eapply Forall_impl; [apply taken_allowed|]. intros q Hq. simpl in Hq.
        by rewrite (allowedNow_ext st). }
      eapply only_expected_trace; [exact Ht|]. by apply Forall_map, Forall_true. }
    unfold drainPromises.
    destruct (awaitAll AwaitDrain st1) as [o1|] eqn:Ho1; [|done].
    apply only_expected_awaitAll in Ho1.
    assert (only_expected st (outcome_state o1)) as H2
      by by eapply only_expected_trans.
    destruct o1 as [st2|st2|st2]; [|by intros [= <-]..].
    intros Hrun%IH. by eapply only_expected_trans.
Qed.

Lemma only_expected_runStages stages : ∀ st o,
  stages ⊆ sequence →
  runStages stages st = Some o → only_expected st (outcome_state o).
Proof.
  induction stages as [|s stages IH]; intros st o Hsub; simpl.
  - intros [= <-]. apply only_expected_refl.
  - assert (only_expected st (beginStage s st)) as H0.
    { unfold beginStage. only_expected_steps. }
    destruct (executeStage s (beginStage s st)) as [o1|] eqn:Ho1; [|done].
    apply only_expected_executeStage in Ho1; [|apply Hsub, elem_of_cons; by left].
    assert (only_expected st (outcome_state o1)) as H1
      by by eapply only_expected_trans.
    destruct o1 as [st1|st1|st1]; [|by intros [= <-]..].
    assert (only_expected st (completeStage s st1)) as H2.
    { unfold completeStage. only_expected_steps. exact H1. }
    destruct (sendAllQueuedMessages (completeStage s st1)) as [o2|] eqn:Ho2; [|done].
    apply only_expected_drain in Ho2.
    assert (only_expected st (outcome_state o2)) as H3
      by by eapply only_expected_trans.
    destruct o2 as [st2|st2|st2]; [|by intros [= <-]..].
    intros Hrun. eapply only_expected_trans; [exact H3|]. apply IH; [|done].
    intros x Hx. apply Hsub, elem_of_cons. by right.
Qed.

(** X17.  Whatever its outcome, a run never reports a missing stage handler
    (every stage of the sequence has one, so that branch of [executeStage] is
    never taken), and the router reports an invalid message during a run only
    for a cached asset update: the replayed messages bypass the router and
    the queue drain forwards only messages classified [allow]. *)
Theorem run_reports_no_missing_handler st :
  ∃ o t,
    run st = Some o ∧
    trace (outcome_state o) = trace st ++ t ∧
    (∀ s, ConsoleErrorNoHandler s ∉ t) ∧
    (∀ type inProgress complete,
       ConsoleErrorInvalidMessage type inProgress complete ∈ t →
       ∃ p, p ∈ assetUpdates session ∧ type = payload_type p).
Proof.
  destruct (run_spec st) as (o & Ho & _).
  assert (only_expected st (outcome_state o)) as (t & Ht & Hall).
  { revert Ho. unfold run.
    assert (only_expected st (beginStage StageAlways st)) as H0.
    { unfold beginStage. only_expected_steps. }
    assert (∃ o1, (if peerAuthoritative session
                   then runStages sequence (beginStage StageAlways st)
                   else Some (Resolved (beginStage StageAlways st))) = Some o1 ∧
                  only_expected st (outcome_state o1)) as (o1 & -> & H1).
    { destruct (peerAuthoritative session).
      - destruct (runStages sequence (beginStage StageAlways st)) as [o1|] eqn:Ho1.
        + exists o1. split; [done|]. eapply only_expected_trans; [exact H0|].
          by eapply only_expected_runStages.
        + destruct (runStages_spec sequence (beginStage StageAlways st)) as (? & ? & _).
          congruence.
      - by eexists. }
    destruct o1 as [st1|st1|st1]; [|by intros [= <-]..].
    intros Hd%only_expected_drain. eapply only_expected_trans; [|exact Hd].
    unfold Protocol_sendPayload, completeStage. only_expected_steps. exact H1. }
  exists o, t. split; [done|]. split; [done|].
  rewrite Forall_forall in Hall. split.
  - intros s Hs. exact (Hall _ Hs).
  - intros type inProgress complete Hin. exact (Hall _ Hin).
Qed.


End ClientSync.

(** * The properties on sample sessions *)

(** C2, as stated, fails: when the reply to a cached load-asset message is
    rejected, the driver leaves the [try] block for [this.reject(e)] and the
    [sync-complete] payload is never emitted. *)
Lemma run_rejected_without_sync_complete :
  ¬ (∀ Rules MissingRule client session respond sched queue cache o,
       run Rules MissingRule client session respond sched
         (newClientSync queue cache) = Some o →
       sync_complete_count (trace (outcome_state o)) = 1).
Proof.
  intros H.
  destruct (run specRules specMissingRule firstClient assetSession neverReplies
              oldestFirst (newClientSync [] ∅)) as [o|] eqn:Ho.
  - pose proof (H _ _ _ _ _ _ _ _ _ Ho) as Hcount.
    vm_compute in Ho. injection Ho as <-. vm_compute in Hcount. discriminate.
  - vm_compute in Ho. discriminate.
Qed.

Lemma treeSession_distinct : distinct_create_messages (rootActors treeSession).
Proof.
  unfold distinct_create_messages. simpl.
  apply NoDup_cons. split; [|apply NoDup_singleton].
  intros Hin%list_elem_of_singleton. discriminate.
Defined.

Lemma treeSession_typed : typed_create_messages (rootActors treeSession).
Proof. repeat constructor; intros c [= <-]; reflexivity. Defined.

Lemma create_actors_parent_first_witness :
  promises (newClientSync [] ∅) = [] ∧
  resumed (newClientSync [] ∅) = [] ∧
  distinct_create_messages (rootActors treeSession) ∧
  typed_create_messages (rootActors treeSession) ∧
  ∃ o t,
    stage_create_actors firstClient treeSession alwaysReplies oldestFirst
      (newClientSync [] ∅) = Some o ∧
    trace (outcome_state o) = trace (newClientSync [] ∅) ++ t ∧
    sends (rootActors treeSession) `prefix_of` t ∧
    waits (rootActors treeSession) t ∧
    fans_out firstClient (rootActors treeSession) t.
Proof.
  split; [reflexivity|]. split; [reflexivity|]. split; [exact treeSession_distinct|].
  split; [exact treeSession_typed|].
  apply (create_actors_parent_first firstClient treeSession alwaysReplies oldestFirst
           (newClientSync [] ∅));
    [reflexivity | reflexivity | exact treeSession_distinct | exact treeSession_typed].
Defined.

(** Below a cached actor without a create message nothing is created:
    reading [actor.created.message] throws inside the [async] executor, so
    the child's task is never started and the handler is left pending. *)
Example uncreated_parent_blocks_children :
  stage_create_actors joiningClient uncreatedSession alwaysReplies oldestFirst
    (newClientSync [] ∅) = Some (Hung (newClientSync [] ∅)).
Proof. reflexivity. Qed.

(** A joining client with a latency of 60 ms; the authoritative client, with
    a latency of 100 ms, answers with one sample at 10.000 s, which is
    forwarded at 10.080 s. *)
Lemma sync_animations_adjusts_time_witness :
  let st0 := beginStage StageSyncAnimations (newClientSync [] ∅) in
  promises st0 = [] ∧ resumed st0 = [] ∧
  (∀ l, handlingForMessage specRules specMissingRule st0
          (messageOf (SyncAnimationsPayload l)) = Allow) ∧
  Nat.eqb (order (authoritativeClient emptySession)) (order joiningClient) = false ∧
  repliesWithAnimations syncAnimationsRequest = Some animationsReply ∧
  payload animationsReply = SyncAnimationsPayload (Some [sampleAnimationState]) ∧
  (∃ st' forwarded,
     stage_sync_animations joiningClient emptySession repliesWithAnimations
       oldestFirst st0 = Some (Resolved st') ∧
     trace st' =
       trace st0 ++
       [ClientSendPayload firstClient (SyncAnimationsPayload None);
        ReplyReceived syncAnimationsRequest animationsReply;
        ProtocolSendPayload (SyncAnimationsPayload (Some forwarded))] ∧
     Forall2
       (fun a a' =>
          time (state a') = (time (state a) + 100 / 2000 + 60 / 2000)%float ∧
          animationId a' = animationId a ∧
          stateRest (state a') = stateRest (state a))
       [sampleAnimationState] forwarded ∧
     promises st' = [] ∧
     queuedMessages st' = queuedMessages st0) ∧
  option_map (fun o => trace (outcome_state o))
    (stage_sync_animations joiningClient emptySession repliesWithAnimations
       oldestFirst st0) =
  Some
    [LogBeginStage StageSyncAnimations;
     ClientSendPayload firstClient (SyncAnimationsPayload None);
     ReplyReceived syncAnimationsRequest animationsReply;
     ProtocolSendPayload
       (SyncAnimationsPayload
          (Some [{| animationId := "animation:0";
                    state := {| time := 10.08%float; stateRest := ∅ |} |}]))] ∧
  time (state (adjustAnimationState joiningClient emptySession sampleAnimationState))
  = 10.08%float.
Proof.
  destruct (sync_animations_adjusts_time specRules specMissingRule joiningClient
              emptySession repliesWithAnimations oldestFirst
              (beginStage StageSyncAnimations (newClientSync [] ∅))
              animationsReply [sampleAnimationState]
              eq_refl eq_refl (fun _ => eq_refl) eq_refl eq_refl eq_refl)
    as [Hstage Hsample].
  split; [reflexivity|]. split; [reflexivity|]. split; [intros l; reflexivity|].
  split; [reflexivity|]. split; [reflexivity|]. split; [reflexivity|].
  split; [exact Hstage|]. split; [vm_compute; reflexivity|].
  apply Hsample; reflexivity.
Defined.

(** C5: the code at the failing input.  The only cached actor has one
    created animation and the joining client is the first one, so the last
    stage has nothing to do and nothing is queued: the whole synchronization
    resolves, [create-animations] having been completed right after the
    create-animation message was sent, and the reply to that message is still
    outstanding at the end. *)
Theorem create_animation_reply_never_awaited :
  ∃ st',
    run specRules specMissingRule firstClient animatedSession alwaysReplies
      oldestFirst (newClientSync [] ∅) = Some (Resolved st') ∧
    trace st' =
      [LogBeginStage StageAlways;
       LogBeginStage StageLoadAssets; LogCompleteStage StageLoadAssets;
       LogBeginStage StageCreateActors; LogCompleteStage StageCreateActors;
       LogBeginStage StageSetBehaviors; LogCompleteStage StageSetBehaviors;
       LogBeginStage StageCreateAnimations;
       ProtocolSendMessage animationMessage true;
       LogCompleteStage StageCreateAnimations;
       LogBeginStage StageSyncAnimations; LogCompleteStage StageSyncAnimations;
       LogCompleteStage StageAlways;
       ProtocolSendPayload SyncCompletePayload] ∧
    promises st' = [(animationMessage, ExpectResponse AwaitNothing)].
Proof.
  eexists. split; [vm_compute; reflexivity|]. split; reflexivity.
Qed.

Lemma sendMessage_ignore_witness :
  handlingForMessage specRules specMissingRule (newClientSync [] ∅)
    (sampleMessage "s" "sync-animations") = Ignore ∧
  sendMessage specRules specMissingRule (sampleMessage "s" "sync-animations")
    (Some callerPromise) (newClientSync [] ∅) = newClientSync [] ∅.
Proof.
  split; [reflexivity|]. apply sendMessage_ignore. reflexivity.
Defined.

(** C8, as stated, fails: for a message classified [Ignore] that carries a
    reply continuation, [sendMessage] emits nothing, so nothing resolves the
    continuation. *)
Lemma ignored_reply_not_resolved :
  ¬ (∀ Rules MissingRule st m p,
       handlingForMessage Rules MissingRule st m = Ignore →
       ∃ e, e ∈ trace (sendMessage Rules MissingRule m (Some p) st) ∧ settles p e).
Proof.
  intros H.
  destruct (H specRules specMissingRule (newClientSync [] ∅)
              (sampleMessage "s" "sync-animations") callerPromise eq_refl)
    as (e & He & _).
  vm_compute in He. by apply elem_of_nil in He.
Qed.

Lemma reply_echo_witness :
  alwaysReplies heartbeat = Some (replyTo heartbeat) ∧
  (∃ t,
     trace (turn_state
              (deliver firstClient emptySession alwaysReplies AwaitStage heartbeat
                 (ExpectResponse AwaitAsset) (newClientSync [] ∅))) =
       trace (newClientSync [] ∅) ++
       ReplyReceived heartbeat (replyTo heartbeat)
       :: [SessionConnSend (replyTo heartbeat)] ++ t ∧
     Forall (fun e => ∃ m' b, e = ProtocolSendMessage m' b) t) ∧
  deliver firstClient emptySession alwaysReplies AwaitStage heartbeat
    (CallerPromise callerPromise) (newClientSync [] ∅) =
    Continue (addEvent (PromiseResolved callerPromise (replyTo heartbeat))
                (addEvent (ReplyReceived heartbeat (replyTo heartbeat))
                   (newClientSync [] ∅))).
Proof.
  destruct (reply_echo specRules specMissingRule firstClient emptySession
              alwaysReplies AwaitStage (newClientSync [] ∅) heartbeat
              (replyTo heartbeat) eq_refl) as (_ & Hecho & Hcaller).
  split; [reflexivity|]. split; [exact (Hecho AwaitAsset)|].
  apply (Hcaller callerPromise). reflexivity.
Defined.

(** C9, as stated, fails: a queued message that expects a reply is forwarded
    by the router with its caller's continuation; when the reply arrives the
    continuation is resolved and nothing is sent on the session connection,
    although the client is flagged authoritative. *)
Lemma forwarded_reply_not_echoed :
  ¬ (∀ Rules MissingRule client session respond sched fuel queue cache o m reply,
       authoritative client = true →
       sendQueuedMessages Rules MissingRule client session respond sched fuel
         (newClientSync queue cache) = Some o →
       ReplyReceived m reply ∈ trace (outcome_state o) →
       SessionConnSend reply ∈ trace (outcome_state o)).
Proof.
  intros H.
  destruct (sendQueuedMessages specRules specMissingRule firstClient emptySession
              alwaysReplies oldestFirst 1 (newClientSync [heartbeatQueued] ∅))
    as [o|] eqn:Ho.
  - pose proof (H specRules specMissingRule firstClient emptySession alwaysReplies
                  oldestFirst 1 [heartbeatQueued] ∅ o heartbeat (replyTo heartbeat)
                  eq_refl Ho) as Hecho.
    vm_compute in Ho. injection Ho as <-. simpl in Hecho.
    assert (SessionConnSend (replyTo heartbeat)
              ∈ [ProtocolSendMessage heartbeat true;
                 ReplyReceived heartbeat (replyTo heartbeat);
                 PromiseResolved callerPromise (replyTo heartbeat)]) as Hin.
    { apply Hecho. apply elem_of_cons. right. apply elem_of_cons. by left. }
    rewrite !elem_of_cons in Hin. destruct Hin as [?|[?|[?|Hin]]]; try discriminate.
    by apply elem_of_nil in Hin.
  - vm_compute in Ho. discriminate.
Qed.

(** A peer joining a session with an empty cache: the stages are traversed
    with no work and the only thing sent is [sync-complete]. *)
Example empty_session_run :
  option_map (fun o => trace (outcome_state o))
    (run specRules specMissingRule firstClient emptySession alwaysReplies
       oldestFirst (newClientSync [] ∅)) =
  Some
    [LogBeginStage StageAlways;
     LogBeginStage StageLoadAssets; LogCompleteStage StageLoadAssets;
     LogBeginStage StageCreateActors; LogCompleteStage StageCreateActors;
     LogBeginStage StageSetBehaviors; LogCompleteStage StageSetBehaviors;
     LogBeginStage StageCreateAnimations; LogCompleteStage StageCreateAnimations;
     LogBeginStage StageSyncAnimations; LogCompleteStage StageSyncAnimations;
     LogCompleteStage StageAlways;
     ProtocolSendPayload SyncCompletePayload].
Proof. vm_compute. reflexivity. Qed.

(** A cached root actor [A] with a child [B]: [B]'s create message is sent
    after the reply to [A]'s. *)
Example tree_session_replay :
  option_map (fun o => trace (outcome_state o))
    (stage_create_actors joiningClient treeSession alwaysReplies oldestFirst
       (newClientSync [] ∅)) =
  Some
    [ProtocolSendMessage (createActorMessage "A" "create-empty") true;
     ReplyReceived (createActorMessage "A" "create-empty")
       (replyTo (createActorMessage "A" "create-empty"));
     ProtocolSendMessage (createActorMessage "B" "create-empty") true;
     ReplyReceived (createActorMessage "B" "create-empty")
       (replyTo (createActorMessage "B" "create-empty"))].
Proof. vm_compute. reflexivity. Qed.

(** ** The further properties on sample sessions *)

(** Set-behaviors is in progress; of the two cached actors, the one with a
    behavior gets its set-behavior payload. *)
Lemma set_behaviors_exact_witness :
  let st := beginStage StageSetBehaviors (newClientSync [] ∅) in
  Forall (fun a => ∀ p, behaviorPayload a = Some p →
                        handlingForMessage specRules specMissingRule st (messageOf p)
                        = Allow)
    (actors behaviorSession) ∧
  (∃ st',
     stage_set_behaviors behaviorSession st = Some (Resolved st') ∧
     trace st' =
       trace st ++
       map ProtocolSendPayload (omap behaviorPayload (actors behaviorSession)) ∧
     promises st' = promises st ∧
     queuedMessages st' = queuedMessages st ∧
     inProgressStages st' = inProgressStages st ∧
     completedStages st' = completedStages st) ∧
  option_map (fun o => trace (outcome_state o))
    (stage_set_behaviors behaviorSession st) =
  Some [LogBeginStage StageSetBehaviors;
        ProtocolSendPayload (SetBehaviorPayload "button" "A")].
Proof.
  assert (Forall (fun a => ∀ p, behaviorPayload a = Some p →
                    handlingForMessage specRules specMissingRule
                      (beginStage StageSetBehaviors (newClientSync [] ∅)) (messageOf p)
                    = Allow)
            (actors behaviorSession)) as Hallowed.
  { repeat constructor. intros p [= <-]. reflexivity. intros p [=]. }
  split; [exact Hallowed|]. split; [|reflexivity].
  exact (set_behaviors_exact specRules specMissingRule behaviorSession
           (beginStage StageSetBehaviors (newClientSync [] ∅)) Hallowed).
Defined.

(** The cached asset of [assetSession] is answered: load-assets resolves. *)
Lemma load_assets_replay_witness :
  promises (newClientSync [] ∅) = [] ∧
  resumed (newClientSync [] ∅) = [] ∧
  ∃ o order,
    stage_load_assets specRules specMissingRule firstClient assetSession
      alwaysReplies oldestFirst (newClientSync [] ∅) = Some o ∧
    match o with
    | Resolved st' =>
        order ≡ₚ assets assetSession ∧
        ∃ st1,
          st' = fold_left
                  (fun s p => sendMessage specRules specMissingRule (messageOf p) None s)
                  (assetUpdates assetSession) st1 ∧
          trace st1 =
            trace (newClientSync [] ∅)
            ++ map (fun m => ProtocolSendMessage m true) (assets assetSession)
            ++ flat_map (arrival firstClient alwaysReplies) order ∧
          promises st1 = [] ∧
          queuedMessages st1 = queuedMessages (newClientSync [] ∅) ∧
          (∀ m, handlingForMessage specRules specMissingRule st1 m =
                handlingForMessage specRules specMissingRule (newClientSync [] ∅) m)
    | Rejected st' =>
        (∃ m, m ∈ assets assetSession ∧ alwaysReplies m = None ∧
              last (trace st') = Some (ReplyFailed m)) ∧
        order ⊆ assets assetSession ∧
        trace st' =
          trace (newClientSync [] ∅)
          ++ map (fun m => ProtocolSendMessage m true) (assets assetSession)
          ++ flat_map (arrival firstClient alwaysReplies) order ∧
        queuedMessages st' = queuedMessages (newClientSync [] ∅)
    | Hung _ => False
    end.
Proof.
  split; [reflexivity|]. split; [reflexivity|].
  apply (load_assets_replay specRules specMissingRule firstClient assetSession
           alwaysReplies oldestFirst (newClientSync [] ∅)); reflexivity.
Defined.

(** The cached asset of [assetSession] is never answered: load-assets
    rejects. *)
Lemma load_assets_resolves_iff_witness :
  promises (newClientSync [] ∅) = [] ∧
  resumed (newClientSync [] ∅) = [] ∧
  ∃ o,
    stage_load_assets specRules specMissingRule firstClient assetSession
      neverReplies oldestFirst (newClientSync [] ∅) = Some o ∧
    ((∃ st', o = Resolved st') ↔ Forall (answered neverReplies) (assets assetSession)) ∧
    ((∃ st', o = Rejected st') ↔
     Exists (fun m => neverReplies m = None) (assets assetSession)).
Proof.
  split; [reflexivity|]. split; [reflexivity|].
  apply (load_assets_resolves_iff specRules specMissingRule firstClient assetSession
           neverReplies oldestFirst (newClientSync [] ∅)); reflexivity.
Defined.

(** The create message of the root of [treeSession] is never answered. *)
Lemma create_actors_never_rejects_witness :
  promises (newClientSync [] ∅) = [] ∧
  ∃ o t,
    stage_create_actors firstClient treeSession neverReplies oldestFirst
      (newClientSync [] ∅) = Some o ∧
    trace (outcome_state o) = trace (newClientSync [] ∅) ++ t ∧
    (∀ st', o ≠ Rejected st') ∧
    (∀ m b, ProtocolSendMessage m b ∈ t → neverReplies m = None →
            ReplyFailed m ∈ t ∧ ∃ st', o = Hung st').
Proof.
  split; [reflexivity|].
  apply (create_actors_never_rejects firstClient treeSession neverReplies oldestFirst
           (newClientSync [] ∅)); reflexivity.
Defined.

Lemma treeSession_replayable :
  Forall (replayable alwaysReplies) (forest_nodes (rootActors treeSession)).
Proof.
  repeat constructor; try (by eexists _, _, _); intros m _; by eexists.
Defined.

(** Both actors of [treeSession] are created. *)
Lemma create_actors_replays_forest_witness :
  promises (newClientSync [] ∅) = [] ∧
  resumed (newClientSync [] ∅) = [] ∧
  Forall (replayable alwaysReplies) (forest_nodes (rootActors treeSession)) ∧
  ∃ st' t,
    stage_create_actors joiningClient treeSession alwaysReplies oldestFirst
      (newClientSync [] ∅) = Some (Resolved st') ∧
    trace st' = trace (newClientSync [] ∅) ++ t ∧
    sent t ≡ₚ createMessages (forest_nodes (rootActors treeSession)) ∧
    replied t ≡ₚ sent t.
Proof.
  split; [reflexivity|]. split; [reflexivity|]. split; [exact treeSession_replayable|].
  apply (create_actors_replays_forest joiningClient treeSession alwaysReplies
           oldestFirst (newClientSync [] ∅));
    [reflexivity | reflexivity | exact treeSession_replayable].
Defined.

(** The authoritative peer does not answer the joining client's request. *)
Lemma sync_animations_rejected_witness :
  promises (newClientSync [] ∅) = [] ∧
  resumed (newClientSync [] ∅) = [] ∧
  Nat.eqb (order (authoritativeClient emptySession)) (order joiningClient) = false ∧
  neverReplies syncAnimationsRequest = None ∧
  ∃ st',
    stage_sync_animations joiningClient emptySession neverReplies oldestFirst
      (newClientSync [] ∅) = Some (Rejected st') ∧
    trace st' =
      trace (newClientSync [] ∅) ++
      [ClientSendPayload (authoritativeClient emptySession) (SyncAnimationsPayload None);
       ReplyFailed syncAnimationsRequest] ∧
    promises st' = [] ∧
    queuedMessages st' = queuedMessages (newClientSync [] ∅).
Proof.
  split; [reflexivity|]. split; [reflexivity|]. split; [reflexivity|].
  split; [reflexivity|].
  apply (sync_animations_rejected joiningClient emptySession neverReplies oldestFirst
           (newClientSync [] ∅)); reflexivity.
Defined.

(** A set-behavior message sent by the application before synchronization
    has begun is queued with its continuation; the drain that follows
    set-behaviors sends it, and its reply resolves the continuation. *)
Lemma queued_message_round_trip_witness :
  let m := sampleMessage "b" "set-behavior" in
  let q := {| queued_message := m; queued_promise := Some callerPromise |} in
  let st := newClientSync [] ∅ in
  let st2 :=
    completeStage StageSetBehaviors
      (beginStage StageSetBehaviors
         (sendMessage specRules specMissingRule m (Some callerPromise) st)) in
  handlingForMessage specRules specMissingRule st m = Queue ∧
  q ∈ queuedMessages st2 ∧
  handlingForMessage specRules specMissingRule st2 m = Allow ∧
  ((queuedMessages (sendMessage specRules specMissingRule m (Some callerPromise) st)
    = queuedMessages st ++ [q] ∧
    trace (sendMessage specRules specMissingRule m (Some callerPromise) st) = trace st ∧
    promises (sendMessage specRules specMissingRule m (Some callerPromise) st)
    = promises st) ∧
   ∃ o t,
     sendAllQueuedMessages specRules specMissingRule firstClient emptySession
       alwaysReplies oldestFirst st2 = Some o ∧
     trace (outcome_state o) = trace st2 ++ t ∧
     ProtocolSendMessage m (bool_decide (is_Some (Some callerPromise))) ∈ t ∧
     (q ∉ queuedMessages (outcome_state o)) ∧
     ∀ cp st', Some callerPromise = Some cp → o = Resolved st' →
       ∃ r, alwaysReplies m = Some r ∧ PromiseResolved cp r ∈ t) ∧
  match sendAllQueuedMessages specRules specMissingRule firstClient emptySession
          alwaysReplies oldestFirst st2 with
  | Some (Resolved st') => Some (trace st', queuedMessages st')
  | _ => None
  end =
  Some ([LogBeginStage StageSetBehaviors; LogCompleteStage StageSetBehaviors;
         ProtocolSendMessage (sampleMessage "b" "set-behavior") true;
         ReplyReceived (sampleMessage "b" "set-behavior")
           (replyTo (sampleMessage "b" "set-behavior"));
         PromiseResolved callerPromise (replyTo (sampleMessage "b" "set-behavior"))],
        []).
Proof.
  assert ({| queued_message := sampleMessage "b" "set-behavior";
             queued_promise := Some callerPromise |}
          ∈ queuedMessages
              (completeStage StageSetBehaviors
                 (beginStage StageSetBehaviors
                    (sendMessage specRules specMissingRule
                       (sampleMessage "b" "set-behavior") (Some callerPromise)
                       (newClientSync [] ∅))))) as Hin.
  { apply list_elem_of_In. simpl. left. reflexivity. }
  split; [reflexivity|]. split; [exact Hin|]. split; [reflexivity|].
  split; [|vm_compute; reflexivity].
  exact (queued_message_round_trip specRules specMissingRule firstClient emptySession
           alwaysReplies oldestFirst (newClientSync [] ∅)
           (sampleMessage "b" "set-behavior") (Some callerPromise)
           (completeStage StageSetBehaviors
              (beginStage StageSetBehaviors
                 (sendMessage specRules specMissingRule
                    (sampleMessage "b" "set-behavior") (Some callerPromise)
                    (newClientSync [] ∅))))
           eq_refl Hin eq_refl).
Defined.

(** The first three stages on [busySession]: an asset, an asset update, two
    actors and a behavior are replayed, and every reply has arrived when the
    pass ends. *)
Lemma stages_entered_settled_witness :
  [StageLoadAssets; StageCreateActors; StageSetBehaviors]
    `prefix_of` [StageLoadAssets; StageCreateActors; StageSetBehaviors] ∧
  promises (newClientSync [] ∅) = [] ∧
  resumed (newClientSync [] ∅) = [] ∧
  ∃ st',
    runStages specRules specMissingRule joiningClient busySession alwaysReplies
      oldestFirst [StageLoadAssets; StageCreateActors; StageSetBehaviors]
      (newClientSync [] ∅) = Some (Resolved st') ∧
    trace st' =
      [LogBeginStage StageLoadAssets;
       ProtocolSendMessage (sampleMessage "X" "load-assets") true;
       ReplyReceived (sampleMessage "X" "load-assets")
         (replyTo (sampleMessage "X" "load-assets"));
       ProtocolSendMessage (messageOf (OtherPayload "asset-update")) false;
       LogCompleteStage StageLoadAssets;
       LogBeginStage StageCreateActors;
       ProtocolSendMessage (createActorMessage "A" "create-empty") true;
       ReplyReceived (createActorMessage "A" "create-empty")
         (replyTo (createActorMessage "A" "create-empty"));
       ProtocolSendMessage (createActorMessage "B" "create-empty") true;
       ReplyReceived (createActorMessage "B" "create-empty")
         (replyTo (createActorMessage "B" "create-empty"));
       LogCompleteStage StageCreateActors;
       LogBeginStage StageSetBehaviors;
       ProtocolSendPayload (SetBehaviorPayload "button" "A");
       LogCompleteStage StageSetBehaviors] ∧
    promises st' = [] ∧ resumed st' = [].
Proof.
  split; [reflexivity|]. split; [reflexivity|]. split; [reflexivity|].
  eexists. split; [vm_compute; reflexivity|]. split; [reflexivity|].
  apply (stages_entered_settled specRules specMissingRule joiningClient busySession
           alwaysReplies oldestFirst
           [StageLoadAssets; StageCreateActors; StageSetBehaviors]
           (newClientSync [] ∅));
    [reflexivity | reflexivity | reflexivity | vm_compute; reflexivity].
Defined.

(** The cached asset of [assetSession] is never answered: the run rejects. *)
Lemma run_rejects_on_failed_asset_witness :
  peerAuthoritative assetSession = true ∧
  Exists (fun m => neverReplies m = None) (assets assetSession) ∧
  ∃ st',
    run specRules specMissingRule firstClient assetSession neverReplies oldestFirst
      (newClientSync [] ∅) = Some (Rejected st') ∧
    driver_events (trace st') =
      [LogBeginStage StageAlways; LogBeginStage StageLoadAssets] ∧
    inProgressStages st' = [StageAlways; StageLoadAssets] ∧
    completedStages st' = [] ∧
    queuedMessages st' = [] ∧
    sync_complete_count (trace st') = 0.
Proof.
  split; [reflexivity|]. split; [apply Exists_cons_hd; reflexivity|].
  apply (run_rejects_on_failed_asset specRules specMissingRule firstClient assetSession
           neverReplies oldestFirst [] ∅);
    [reflexivity | apply Exists_cons_hd; reflexivity].
Defined.
